(** * Tank Battle: enemy AI core

    A shallow embedding of the decision-and-coordination code of the
    game: the classes [StateMachine], [AStar] and [AIBlackboard], and the
    target selection and state evaluation of [EnemyAI].

    Conventions of the embedding.
    - JavaScript numbers are modelled by exact numbers: world
      coordinates, times and health by rationals [Q], grid indices and
      path costs by integers [Z].  Rounding of doubles, NaN and negative
      zero are outside the model; a division by zero is written out where
      the source can reach one.
    - [Map] and [Set] objects keyed by agent id are [gmap string _] and
      [gset string]; none of the modelled methods depends on the
      iteration order of a [Map].
    - [Phaser.Math.Distance.Between] and [Math.random] are external: the
      first is a parameter of the development, the second is a stream of
      draws handed to the method that consumes it. *)

From Stdlib Require Import Floats.
From Stdlib Require Import QArith Qround Qminmax Qabs Lqa Sorted.
From stdpp Require Import gmap strings list fin_maps.

Local Open Scope Z_scope.

(** ** JavaScript truthiness of the values the code tests *)

Module JS.

(** [if (s)] for [s] a string or [null]: [null] and the empty string are
    falsy. *)
Definition truthy_str (o : option string) : bool :=
  match o with
  | Some s => negb (String.eqb s EmptyString)
  | None => false
  end.

(** [if (n)] for [n] a number or [undefined]: [undefined] and zero are
    falsy. *)
Definition truthy_num (o : option Q) : bool :=
  match o with
  | Some q => negb (Qeq_bool q 0)
  | None => false
  end.

(** [if (x)] for [x] a double or [undefined]: [undefined], both zeros and
    [NaN] are falsy. *)
Definition truthy_double (o : option float) : bool :=
  match o with
  | Some x => negb (PrimFloat.is_nan x || PrimFloat.is_zero x)
  | None => false
  end.

(** [Math.max(a, b)] on doubles: [NaN] when either argument is [NaN];
    otherwise the running maximum starts as [a], becomes [+0] when it is
    [-0] and [b] is [+0], and becomes [b] when [b] is greater. *)
Definition Math_max (a b : float) : float :=
  if PrimFloat.is_nan a || PrimFloat.is_nan b then PrimFloat.nan
  else
    match PrimFloat.classify a, PrimFloat.classify b with
    | NZero, PZero => b
    | _, _ => if PrimFloat.ltb a b then b else a
    end.

(** [Math.min(a, b)] on doubles: [NaN] when either argument is [NaN];
    otherwise the running minimum starts as [a], becomes [-0] when it is
    [+0] and [b] is [-0], and becomes [b] when [b] is smaller. *)
Definition Math_min (a b : float) : float :=
  if PrimFloat.is_nan a || PrimFloat.is_nan b then PrimFloat.nan
  else
    match PrimFloat.classify a, PrimFloat.classify b with
    | PZero, NZero => b
    | _, _ => if PrimFloat.ltb b a then b else a
    end.

(** The property names that every object literal inherits from
    [Object.prototype]: [obj[name]] is truthy for each of them on an
    object that has no property of its own under that name. *)
Definition objectPrototypeNames : list string :=
  [ "constructor"; "hasOwnProperty"; "isPrototypeOf";
    "propertyIsEnumerable"; "toLocaleString"; "toString"; "valueOf";
    "__defineGetter__"; "__defineSetter__"; "__lookupGetter__";
    "__lookupSetter__"; "__proto__" ].

(** [a < b] on numbers. *)
Definition lt (a b : Q) : bool :=
  match Qcompare a b with Lt => true | _ => false end.

Definition le (a b : Q) : bool := Qle_bool a b.

(** [a / b < c] for finite [a], [b], [c].  With [b] zero the quotient is
    [-Infinity] for negative [a] (below every finite [c]) and [Infinity]
    or [NaN] otherwise (below nothing). *)
Definition div_lt (a b c : Q) : bool :=
  if Qeq_bool b 0 then lt a 0 else lt (a / b) c.

(** [Math.sign] of a number, as an integer. *)
Definition sign (q : Q) : Z :=
  match Qcompare q 0 with Lt => -1 | Eq => 0 | Gt => 1 end.

End JS.

(** ** StateMachine.js *)

Module StateMachine.
Section Machine.

(** [Ctx] is the world the handlers act on (the object they are bound to
    and whatever it reaches); [Arg] is the type of the extra arguments
    of [setState], handed to [enter].  Handlers are functions on the
    world: a handler that calls back into the machine that is running
    it is outside the model. *)
Context {Ctx Arg : Type}.

Record State := mkState {
  enter : option (list Arg -> Ctx -> Ctx);
  update : option (Q -> Ctx -> Ctx);
  exit : option (Ctx -> Ctx)
}.

(** The machine.  [states] is an object literal used as a map from names
    to states; the map stands for it on every name that is not one of
    [JS.objectPrototypeNames], under which a look-up in the object finds
    the inherited property. *)
Record t := mk {
  states : gmap string State;
  currentState : option string;
  previousState : option string
}.

(** [constructor] *)
Definition new : t :=
  {| states := ∅; currentState := None; previousState := None |}.

(** [addState(name, state)]: the handlers are bound to the context and
    the state is stored under [name]. *)
Definition addState (name : string) (state : State) (m : t) : t :=
  {| states := <[name := state]> (states m);
     currentState := currentState m;
     previousState := previousState m |}.

(** [if (this.currentState && this.states[this.currentState].exit)
      this.states[this.currentState].exit()].
    The lookup of an unregistered current state would raise; the
    machine never holds one (see [current_registered]). *)
Definition run_exit (m : t) (w : Ctx) : Ctx :=
  if JS.truthy_str (currentState m) then
    match currentState m with
    | Some c =>
        match states m !! c with
        | Some st => match exit st with Some f => f w | None => w end
        | None => w
        end
    | None => w
    end
  else w.

(** [if (this.states[name].enter) this.states[name].enter(...args)] *)
Definition run_enter (st : State) (args : list Arg) (w : Ctx) : Ctx :=
  match enter st with Some f => f args w | None => w end.

(** [setState(name, ...args)]: the returned boolean, the machine and the
    world after the call. *)
Definition setState (name : string) (args : list Arg) (m : t) (w : Ctx)
  : bool * t * Ctx :=
  match states m !! name with
  | None => (false, m, w)
  | Some st =>
      if decide (currentState m = Some name) then (false, m, w)
      else
        let w1 := run_exit m w in
        let m1 := {| states := states m;
                     currentState := Some name;
                     previousState := currentState m |} in
        (true, m1, run_enter st args w1)
  end.

(** [update(delta)] *)
Definition step_update (delta : Q) (m : t) (w : Ctx) : Ctx :=
  if JS.truthy_str (currentState m) then
    match currentState m with
    | Some c =>
        match states m !! c with
        | Some st => match update st with Some f => f delta w | None => w end
        | None => w
        end
    | None => w
    end
  else w.

Definition getCurrentState (m : t) : option string := currentState m.
Definition getPreviousState (m : t) : option string := previousState m.

Definition isInState (name : string) (m : t) : bool :=
  bool_decide (currentState m = Some name).

(** [revertToPrevious()] *)
Definition revertToPrevious (m : t) (w : Ctx) : bool * t * Ctx :=
  if JS.truthy_str (previousState m) then
    match previousState m with
    | Some p => setState p [] m w
    | None => (false, m, w)
    end
  else (false, m, w).

(** [reset()] *)
Definition reset (m : t) (w : Ctx) : t * Ctx :=
  ({| states := states m; currentState := None; previousState := None |},
   run_exit m w).

(** The current state, when there is one, is a registered state. *)
Definition current_registered (m : t) : Prop :=
  ∀ c, currentState m = Some c → is_Some (states m !! c).

(** The two names the machine holds are those of registered states,
    there is a current state when there is a previous one, and the two
    differ. *)
Definition names_registered (m : t) : Prop :=
  current_registered m ∧
  (∀ p, previousState m = Some p → is_Some (states m !! p)) ∧
  (∀ p, previousState m = Some p → is_Some (currentState m)) ∧
  (∀ c, currentState m = Some c → previousState m ≠ Some c).

(** A call of a method of the machine. *)
Inductive call : Type :=
| call_addState (name : string) (state : State)
| call_setState (name : string) (args : list Arg)
| call_update (delta : Q)
| call_revertToPrevious
| call_reset.

(** The state name that a call passes, when it passes one. *)
Definition call_name (c : call) : option string :=
  match c with
  | call_addState name _ | call_setState name _ => Some name
  | _ => None
  end.

(** The machine and the world after a call. *)
Definition perform (c : call) (mw : t * Ctx) : t * Ctx :=
  match c with
  | call_addState name state => (addState name state mw.1, mw.2)
  | call_setState name args =>
      let r := setState name args mw.1 mw.2 in (r.1.2, r.2)
  | call_update delta => (mw.1, step_update delta mw.1 mw.2)
  | call_revertToPrevious =>
      let r := revertToPrevious mw.1 mw.2 in (r.1.2, r.2)
  | call_reset => reset mw.1 mw.2
  end.

(** A new machine after a sequence of calls. *)
Definition run (calls : list call) (w : Ctx) : t * Ctx :=
  foldl (λ mw c, perform c mw) (new, w) calls.

End Machine.
Arguments State : clear implicits.
Arguments t : clear implicits.
Arguments call : clear implicits.
End StateMachine.

(** ** Constants.js *)

Module Constants.
(** [GAME_CONFIG.TILE_SIZE] *)
Definition TILE_SIZE : Q := 32%Q.
(** [TILE_TYPES] *)
Definition EMPTY : Z := 0.
Definition BRICK : Z := 1.
Definition STEEL : Z := 2.
Definition WATER : Z := 3.
Definition ICE : Z := 4.
Definition FOREST : Z := 5.
Definition BASE : Z := 6.
(** [AI_CONFIG] *)
Definition DETECTION_RANGE : Q := 300%Q.
Definition ATTACK_RANGE : Q := 150%Q.
Definition RETREAT_HEALTH_PERCENT : Q := (3 # 10)%Q.
End Constants.

(** ** AStar.js *)

Module AStar.

(** The terrain grid, [map[y][x]], each tile a number. *)
Definition Grid : Type := list (list Z).

(** A grid cell [{x, y}]. *)
Definition cell : Type := (Z * Z)%type.

(** A world point [{x, y}]. *)
Record point := mkPoint { px : Q; py : Q }.

(** A search node [{x, y, g, h, f, parent}].  [parent] refers to a node
    that has left the open list; such a node is not written to again
    (see [parentsClosed]), so the reference is modelled by the node's
    value. *)
Local Unset Elimination Schemes.
Inductive node : Type :=
  Node (node_x node_y node_g node_h node_f : Z) (node_parent : option node).
Local Set Elimination Schemes.

Definition node_x (n : node) : Z := let 'Node x _ _ _ _ _ := n in x.
Definition node_y (n : node) : Z := let 'Node _ y _ _ _ _ := n in y.
Definition node_g (n : node) : Z := let 'Node _ _ g _ _ _ := n in g.
Definition node_h (n : node) : Z := let 'Node _ _ _ h _ _ := n in h.
Definition node_f (n : node) : Z := let 'Node _ _ _ _ f _ := n in f.
Definition node_parent (n : node) : option node :=
  let 'Node _ _ _ _ _ p := n in p.

Definition node_cell (n : node) : cell := (node_x n, node_y n).

(** A waypoint of a returned path. *)
Record waypoint := mkWaypoint { x : Q; y : Q; gridX : Z; gridY : Z }.

Definition waypoint_cell (w : waypoint) : cell := (gridX w, gridY w).

(** What a call of [findPath] does: it raises a [TypeError], returns
    [null], or returns a path. *)
Inductive result : Type :=
| TypeError
| Null
| Path (path : list waypoint).

(** [heuristic(a, b)] *)
Definition heuristic (a b : cell) : Z :=
  Z.abs (a.1 - b.1) + Z.abs (a.2 - b.2).

(** [isValidNode(node, map)].  On an empty map [map[0].length] raises
    when it is reached; [findPath] reaches it first and the case is
    written out there. *)
Definition isValidNode (c : cell) (map : Grid) : bool :=
  (0 <=? c.1) && (c.1 <? Z.of_nat (length (nth 0 map []))) &&
  (0 <=? c.2) && (c.2 <? Z.of_nat (length map)).

(** [map[node.y][node.x]] where [map[node.y]] is a row or the index is
    negative; [None] for [undefined]. *)
Definition tileAt (c : cell) (map : Grid) : option Z :=
  if (c.1 <? 0) || (c.2 <? 0) then None
  else map !! Z.to_nat c.2 ≫= λ row, row !! Z.to_nat c.1.

(** [isWalkable(node, map)] *)
Definition isWalkable (c : cell) (map : Grid) : bool :=
  if negb (isValidNode c map) then false
  else
    match tileAt c map with
    | Some tileType =>
        (tileType =? 0) || (tileType =? 4) || (tileType =? 5) || (tileType =? 6)
    | None => false
    end.

Definition directions : list cell := [(0, -1); (0, 1); (-1, 0); (1, 0)].

(** [getNeighbors(node, map)] *)
Definition getNeighbors (c : cell) (map : Grid) : list cell :=
  filter (λ nb, isWalkable nb map = true)
         ((λ dir : cell, (c.1 + dir.1, c.2 + dir.2)) <$> directions).

(** The scan for the smallest [f]: [currentIndex] moves to [i] when
    [openList[i].f < openList[currentIndex].f]. *)
Fixpoint scanMin (rest : list node) (i currentIndex : nat) (currentF : Z)
  : nat :=
  match rest with
  | [] => currentIndex
  | n :: rest' =>
      if node_f n <? currentF then scanMin rest' (S i) i (node_f n)
      else scanMin rest' (S i) currentIndex currentF
  end.

Definition minIndex (openList : list node) : nat :=
  match openList with
  | [] => 0%nat
  | n0 :: rest => scanMin rest 1 0 (node_f n0)
  end.

Definition sameCell (c : cell) (n : node) : bool :=
  (node_x n =? c.1) && (node_y n =? c.2).

(** [openList.find(node => node.x === neighbor.x && node.y === neighbor.y)] *)
Definition findNode (c : cell) (openList : list node) : option node :=
  List.find (sameCell c) openList.

(** The write to [existingNode]: the first node of the open list on the
    neighbour's cell gets the new cost and parent. *)
Fixpoint updateNode (c : cell) (gScore : Z) (current : node)
  (openList : list node) : list node :=
  match openList with
  | [] => []
  | n :: rest =>
      if sameCell c n
      then Node (node_x n) (node_y n) gScore (node_h n)
                (gScore + node_h n) (Some current) :: rest
      else n :: updateNode c gScore current rest
  end.

(** The body of [for (const neighbor of neighbors)]. *)
Definition visitNeighbor (goalNode : cell) (closedList : gset cell)
  (current : node) (openList : list node) (neighbor : cell) : list node :=
  if bool_decide (neighbor ∈ closedList) then openList
  else
    let gScore := node_g current + 1 in
    match findNode neighbor openList with
    | None =>
        let h := heuristic neighbor goalNode in
        openList ++ [Node neighbor.1 neighbor.2 gScore h (gScore + h)
                          (Some current)]
    | Some existingNode =>
        if gScore <? node_g existingNode
        then updateNode neighbor gScore current openList
        else openList
    end.

(** The main loop.  [None]: the fuel ran out; [Some None]: the open list
    emptied; [Some (Some n)]: the goal node [n] was taken from it. *)
Fixpoint search (fuel : nat) (map : Grid) (goalNode : cell)
  (openList : list node) (closedList : gset cell) : option (option node) :=
  match fuel with
  | O => None
  | S fuel' =>
      match openList !! minIndex openList with
      | None => Some None
      | Some current =>
          if (node_x current =? goalNode.1) && (node_y current =? goalNode.2)
          then Some (Some current)
          else
            let openList1 := delete (minIndex openList) openList in
            let closedList1 := closedList ∪ {[node_cell current]} in
            let neighbors := getNeighbors (node_cell current) map in
            search fuel' map goalNode
              (foldl (visitNeighbor goalNode closedList1 current)
                     openList1 neighbors)
              closedList1
      end
  end.

Definition toWaypoint (tileSize : Q) (n : node) : waypoint :=
  {| x := inject_Z (node_x n) * tileSize + tileSize / 2;
     y := inject_Z (node_y n) * tileSize + tileSize / 2;
     gridX := node_x n;
     gridY := node_y n |}.

(** The [while (current !== null)] loop of [reconstructPath]. *)
Fixpoint unshiftAll (tileSize : Q) (current : node) (path : list waypoint)
  : list waypoint :=
  match current with
  | Node cx cy cg ch cf cparent =>
      let path' := toWaypoint tileSize (Node cx cy cg ch cf cparent) :: path in
      match cparent with
      | None => path'
      | Some p => unshiftAll tileSize p path'
      end
  end.

(** [reconstructPath(node, tileSize)]: the first point is shifted out. *)
Definition reconstructPath (n : node) (tileSize : Q) : list waypoint :=
  drop 1 (unshiftAll tileSize n []).

(** [Math.floor(v / tileSize)] for a non-zero [tileSize]. *)
Definition toGrid (v tileSize : Q) : Z := Qfloor (v / tileSize).

Definition startPathNode (startNode goalNode : cell) : node :=
  let h := heuristic startNode goalNode in
  Node startNode.1 startNode.2 0 h (0 + h) None.

(** [findPath(start, goal, map, tileSize)] with the loop run on [fuel];
    a caller that leaves [tileSize] out gets 32.
    - With [tileSize] zero the start column is [Infinity], [-Infinity]
      or [NaN]: the validity test fails, after reading [map[0].length]
      when the column is [Infinity].
    - [isValidNode(startNode, map)] reads [map[0].length] as soon as the
      start column is not negative, which raises on an empty map. *)
Definition findPath_fuel (fuel : nat) (start goal : point) (map : Grid)
  (tileSize : Q) : option result :=
  if Qeq_bool tileSize 0 then
    Some (if JS.lt 0 (px start) && bool_decide (map = []) then TypeError
          else Null)
  else
    let startNode := (toGrid (px start) tileSize, toGrid (py start) tileSize) in
    let goalNode := (toGrid (px goal) tileSize, toGrid (py goal) tileSize) in
    if (0 <=? startNode.1) && bool_decide (map = []) then Some TypeError
    else if negb (isValidNode startNode map) || negb (isValidNode goalNode map)
    then Some Null
    else
      match search fuel map goalNode [startPathNode startNode goalNode] ∅ with
      | None => None
      | Some None => Some Null
      | Some (Some current) => Some (Path (reconstructPath current tileSize))
      end.

(** Every iteration that goes on closes one more cell of the grid, so
    the loop runs at most once per cell and once more. *)
Definition searchBound (map : Grid) : nat :=
  S (length (nth 0 map []) * length map).

Definition findPath (start goal : point) (map : Grid) (tileSize : Q)
  : option result :=
  findPath_fuel (searchBound map) start goal map tileSize.

(** The loop of [simplifyPath], from [i] on; [prev] is [path[i - 1]] and
    [rest] is [path[i..]]. *)
Fixpoint simplifyLoop (prev : waypoint) (rest : list waypoint)
  (lastDirection : option (Z * Z)) (simplified : list waypoint)
  : list waypoint :=
  match rest with
  | [] => simplified
  | curr :: rest' =>
      let dx := JS.sign (x curr - x prev) in
      let dy := JS.sign (y curr - y prev) in
      let currentDirection := Some (dx, dy) in
      if bool_decide (currentDirection ≠ lastDirection)
      then simplifyLoop curr rest' currentDirection (simplified ++ [prev])
      else simplifyLoop curr rest' lastDirection simplified
  end.

(** [simplifyPath(path)] for a path that is not [null]. *)
Definition simplifyPath (path : list waypoint) : list waypoint :=
  if (length path <=? 2)%nat then path
  else
    match path with
    | [] => path
    | p0 :: rest =>
        match last path with
        | Some pn => simplifyLoop p0 rest None [p0] ++ [pn]
        | None => path
        end
    end.

(** *** Notions used to state the properties of the search *)

(** The nodes from the root of the parent links down to [n]. *)
Fixpoint lineage (n : node) : list node :=
  match n with
  | Node cx cy cg ch cf cparent =>
      match cparent with
      | None => [Node cx cy cg ch cf cparent]
      | Some p => lineage p ++ [Node cx cy cg ch cf cparent]
      end
  end.

(** Induction along the parent links. *)
Fixpoint node_parent_ind (P : node → Prop)
  (Hroot : ∀ cx cy cg ch cf, P (Node cx cy cg ch cf None))
  (Hlink : ∀ cx cy cg ch cf p, P p → P (Node cx cy cg ch cf (Some p)))
  (n : node) : P n :=
  match n with
  | Node cx cy cg ch cf None => Hroot cx cy cg ch cf
  | Node cx cy cg ch cf (Some p) =>
      Hlink cx cy cg ch cf p (node_parent_ind P Hroot Hlink p)
  end.

(** Two cells are 4-adjacent. *)
Definition adjacent (a b : cell) : Prop := heuristic a b = 1.

(** A walk on the grid: from [c], each cell of [cs] is a walkable
    neighbour of the one before. *)
Fixpoint walk (map : Grid) (c : cell) (cs : list cell) : Prop :=
  match cs with
  | [] => True
  | c' :: cs' => c' ∈ getNeighbors c map ∧ walk map c' cs'
  end.

(** [goalNode] can be reached from [startNode] by a walk. *)
Definition reachable (map : Grid) (startNode goalNode : cell) : Prop :=
  ∃ cs, walk map startNode cs ∧ last (startNode :: cs) = Some goalNode.

(** A walk from [c] to [goalNode] on which every step comes one closer
    to the goal: a walk of the Manhattan length. *)
Fixpoint directWalk (map : Grid) (goalNode c : cell) (cs : list cell) : Prop :=
  match cs with
  | [] => c = goalNode
  | c' :: cs' =>
      c' ∈ getNeighbors c map ∧
      heuristic c goalNode = 1 + heuristic c' goalNode ∧
      directWalk map goalNode c' cs'
  end.

(** The cells of a row between two columns are all walkable, and so for a
    column between two rows. *)
Definition rowCorridor (map : Grid) (a b : cell) : Prop :=
  a.2 = b.2 ∧
  ∀ cx, Z.min a.1 b.1 ≤ cx ≤ Z.max a.1 b.1 → isWalkable (cx, a.2) map = true.

Definition columnCorridor (map : Grid) (a b : cell) : Prop :=
  a.1 = b.1 ∧
  ∀ cy, Z.min a.2 b.2 ≤ cy ≤ Z.max a.2 b.2 → isWalkable (a.1, cy) map = true.

(** [startNode] and [goalNode] lie on an obstacle-free straight
    corridor. *)
Definition straightCorridor (map : Grid) (startNode goalNode : cell) : Prop :=
  rowCorridor map startNode goalNode ∨ columnCorridor map startNode goalNode.

(** The cells inside the grid, row by row. *)
Definition gridCells (map : Grid) : list cell :=
  y ← seq 0 (length map);
  (λ x : nat, (Z.of_nat x, Z.of_nat y)) <$> seq 0 (length (nth 0 map [])).

(** A tile on which [isWalkable] lets an agent stand. *)
Definition walkableTile (tile : Z) : Prop :=
  tile = Constants.EMPTY ∨ tile = Constants.ICE ∨
  tile = Constants.FOREST ∨ tile = Constants.BASE.

(** A tile that blocks. *)
Definition blockingTile (tile : Z) : Prop :=
  tile = Constants.BRICK ∨ tile = Constants.STEEL ∨ tile = Constants.WATER.

(** *** What the loop keeps true *)

(** The cells of the lineage of a node. *)
Definition trail (n : node) : list cell := node_cell <$> lineage n.

(** The open list after the neighbours of [current] have been visited. *)
Definition expand (map : Grid) (goalNode : cell) (closedList1 : gset cell)
  (current : node) (openList1 : list node) : list node :=
  foldl (visitNeighbor goalNode closedList1 current) openList1
        (getNeighbors (node_cell current) map).

(** A node of the search: its lineage is a walk from the start cell that
    does not come back to it, [g] is the length of that walk, [h] is the
    heuristic of its cell and [f] their sum. *)
Definition nodeOk (map : Grid) (startNode goalNode : cell) (n : node) : Prop :=
  (∃ rest, trail n = startNode :: rest ∧ walk map startNode rest ∧
           Z.of_nat (length rest) = node_g n ∧ startNode ∉ rest) ∧
  node_h n = heuristic (node_cell n) goalNode ∧
  node_f n = node_g n + node_h n.

(** The nodes above [n] in its lineage are on closed cells.  The loop
    writes to nodes of the open list only, which are not on closed cells:
    a node that is a parent is not written to any more. *)
Definition parentsClosed (closedList : gset cell) (n : node) : Prop :=
  ∀ p, p ∈ lineage n → p = n ∨ node_cell p ∈ closedList.

(** The open list: one node for a cell, none of a closed cell, every node
    a node of the search inside the grid, below closed nodes. *)
Definition openOk (map : Grid) (startNode goalNode : cell)
  (closedList : gset cell) (openList : list node) : Prop :=
  NoDup (node_cell <$> openList) ∧
  ∀ n, n ∈ openList →
       (node_cell n ∉ closedList) ∧ nodeOk map startNode goalNode n ∧
       isValidNode (node_cell n) map = true ∧ parentsClosed closedList n.

(** The state of the loop at the head of an iteration. *)
Definition loopOk (map : Grid) (startNode goalNode : cell)
  (openList : list node) (closedList : gset cell) : Prop :=
  openOk map startNode goalNode closedList openList ∧
  (∀ c, c ∈ closedList → isValidNode c map = true) ∧
  (startNode ∈ closedList ∨ openList = [startPathNode startNode goalNode]).

(** Every node of [openList] has a node of [openList'] on its cell that
    costs no more. *)
Definition covers (openList openList' : list node) : Prop :=
  ∀ n, n ∈ openList →
       ∃ n', n' ∈ openList' ∧ node_cell n' = node_cell n ∧ node_g n' ≤ node_g n.

(** The state of the loop when a direct walk leads from the start to the
    goal; [D] is the Manhattan distance between them.  No open node has
    an [f] below [D]; a walkable neighbour of a closed cell is closed or
    open at a cost that keeps [f] at [D] along the direct walk; the goal
    is not closed; the start is closed or open at cost 0. *)
Definition directOk (map : Grid) (startNode goalNode : cell)
  (openList : list node) (closedList : gset cell) : Prop :=
  let D := heuristic startNode goalNode in
  (∀ n, n ∈ openList → D ≤ node_f n) ∧
  (∀ c nb, c ∈ closedList → nb ∈ getNeighbors c map →
           nb ∈ closedList ∨
           ∃ n, n ∈ openList ∧ node_cell n = nb ∧
                node_g n + heuristic c goalNode ≤ D + 1) ∧
  (goalNode ∉ closedList) ∧
  (startNode ∈ closedList ∨
   ∃ n, n ∈ openList ∧ node_cell n = startNode ∧ node_g n ≤ 0).

(** The state of the loop with respect to all walks from the start: a
    walkable neighbour of a closed cell is closed, or open at a cost of at
    most one more than the length of any walk to that closed cell; the
    goal is not closed; the start is closed or open at cost 0. *)
Definition shortestOk (map : Grid) (startNode goalNode : cell)
  (openList : list node) (closedList : gset cell) : Prop :=
  (∀ c cs nb, c ∈ closedList → walk map startNode cs →
              last (startNode :: cs) = Some c → nb ∈ getNeighbors c map →
              nb ∈ closedList ∨
              ∃ n, n ∈ openList ∧ node_cell n = nb ∧
                   node_g n ≤ Z.of_nat (length cs) + 1) ∧
  (goalNode ∉ closedList) ∧
  (startNode ∈ closedList ∨
   ∃ n, n ∈ openList ∧ node_cell n = startNode ∧ node_g n ≤ 0).

(** The direction of travel from [prev] to [curr], as [simplifyPath]
    computes it: the signs of the two differences. *)
Definition travel (prev curr : waypoint) : Z * Z :=
  (JS.sign (x curr - x prev), JS.sign (y curr - y prev)).

(** A stretch of [path] from [u] to [v] on which the direction of travel
    stays the same. *)
Definition straightRun (path : list waypoint) (u v : waypoint) : Prop :=
  ∃ before run after d,
    path = before ++ run ++ after ∧ head run = Some u ∧ last run = Some v ∧
    ∀ j a b, run !! j = Some a → run !! S j = Some b → travel a b = d.

(** The grid cell of a world point. *)
Definition cellOf (p : point) (tileSize : Q) : cell :=
  (toGrid (px p) tileSize, toGrid (py p) tileSize).

End AStar.


(** ** GridMovement.js *)

Module GridMovement.

(** A movement direction: ['up'], ['down'], ['left'] or ['right']. *)
Inductive Direction : Type := up | down | left | right.

Global Instance Direction_eq_dec : EqDecision Direction.
Proof. solve_decision. Defined.

(** [DIRECTION_VECTORS[direction]] *)
Definition vector (d : Direction) : Z * Z :=
  match d with
  | up => (0, -1)
  | down => (0, 1)
  | left => (-1, 0)
  | right => (1, 0)
  end.

(** [Math.round]: the nearest integer, a half going up. *)
Definition round (q : Q) : Z := Qfloor (q + (1 # 2)).

(** [snapToGrid(value)] *)
Definition snapToGrid (value : Q) : Q :=
  (inject_Z (round (value / Constants.TILE_SIZE)) * Constants.TILE_SIZE)%Q.

(** [pixelToGrid(x, y)]: [{gridX, gridY}] *)
Definition pixelToGrid (x y : Q) : Z * Z :=
  (Qfloor (x / Constants.TILE_SIZE), Qfloor (y / Constants.TILE_SIZE)).

(** [gridToPixel(gridX, gridY)]: [{x, y}] *)
Definition gridToPixel (gridX gridY : Z) : Q * Q :=
  ((inject_Z gridX * Constants.TILE_SIZE + Constants.TILE_SIZE / 2)%Q,
   (inject_Z gridY * Constants.TILE_SIZE + Constants.TILE_SIZE / 2)%Q).

(** The position of a tank. *)
Record Tank := mkTank { tank_x : Q; tank_y : Q }.

Record Alignment := mkAlignment {
  alignedX : bool;
  alignedY : bool;
  offsetX : Q;
  offsetY : Q;
  nearestX : Q;
  nearestY : Q
}.

(** [checkAlignment(tank, threshold)] *)
Definition checkAlignment (tank : Tank) (threshold : Q) : Alignment :=
  let nearestX := snapToGrid (tank_x tank) in
  let nearestY := snapToGrid (tank_y tank) in
  let offsetX := (tank_x tank - nearestX)%Q in
  let offsetY := (tank_y tank - nearestY)%Q in
  {| alignedX := JS.le (Qabs offsetX) threshold;
     alignedY := JS.le (Qabs offsetY) threshold;
     offsetX := offsetX;
     offsetY := offsetY;
     nearestX := nearestX;
     nearestY := nearestY |}.

(** The test of one corner in [isPositionWalkable]: inside the grid and
    not on a brick, steel or water tile. *)
Definition cornerWalkable (map : AStar.Grid) (corner : Q * Q) : bool :=
  let gridX := Qfloor (corner.1 / Constants.TILE_SIZE) in
  let gridY := Qfloor (corner.2 / Constants.TILE_SIZE) in
  if (gridY <? 0) || (Z.of_nat (length map) <=? gridY) ||
     (gridX <? 0) || (Z.of_nat (length (nth 0 map [])) <=? gridX)
  then false
  else
    match AStar.tileAt (gridX, gridY) map with
    | Some tile =>
        negb ((tile =? Constants.BRICK) || (tile =? Constants.STEEL) ||
              (tile =? Constants.WATER))
    | None => true
    end.

(** [isPositionWalkable(x, y, map)]; [map] is [None] when it is absent. *)
Definition isPositionWalkable (x y : Q) (map : option AStar.Grid) : bool :=
  match map with
  | None => true
  | Some map =>
      let halfTank := 14%Q in
      forallb (cornerWalkable map)
        [ (x - halfTank, y - halfTank);
          (x + halfTank, y - halfTank);
          (x - halfTank, y + halfTank);
          (x + halfTank, y + halfTank) ]%Q
  end.

(** [canMoveInDirection(tank, direction, map)] *)
Definition canMoveInDirection (tank : Tank) (direction : Direction)
  (map : option AStar.Grid) : bool :=
  match map with
  | None => true
  | Some _ =>
      let checkX :=
        (tank_x tank + inject_Z (vector direction).1 * Constants.TILE_SIZE)%Q in
      let checkY :=
        (tank_y tank + inject_Z (vector direction).2 * Constants.TILE_SIZE)%Q in
      isPositionWalkable checkX checkY map
  end.

(** [getAvailableDirections(tank, map)] *)
Definition getAvailableDirections (tank : Tank) (map : option AStar.Grid)
  : list Direction :=
  List.filter (λ dir, canMoveInDirection tank dir map) [up; down; left; right].

(** The axis of a corner slide. *)
Inductive Axis : Type := axisX | axisY.

Record Slide := mkSlide { axis : Axis; amount : Q; targetValue : Q }.

(** [calculateCornerSlide(tank, direction, map)] *)
Definition calculateCornerSlide (tank : Tank) (direction : Direction)
  (map : option AStar.Grid) : option Slide :=
  match map with
  | None => None
  | Some _ =>
      let alignment :=
        checkAlignment tank (Constants.TILE_SIZE * (45 # 100))%Q in
      let vertical := bool_decide (direction = up ∨ direction = down) in
      let horizontal := bool_decide (direction = left ∨ direction = right) in
      if vertical && negb (alignedX alignment) &&
         JS.lt 2 (Qabs (offsetX alignment)) &&
         isPositionWalkable (nearestX alignment) (tank_y tank) map
      then
        let slideDir := if JS.lt 0 (offsetX alignment) then (-1)%Q else 1%Q in
        Some {| axis := axisX;
                amount := (slideDir * Qmin 3 (Qabs (offsetX alignment)))%Q;
                targetValue := nearestX alignment |}
      else if horizontal && negb (alignedY alignment) &&
              JS.lt 2 (Qabs (offsetY alignment)) &&
              isPositionWalkable (tank_x tank) (nearestY alignment) map
      then
        let slideDir := if JS.lt 0 (offsetY alignment) then (-1)%Q else 1%Q in
        Some {| axis := axisY;
                amount := (slideDir * Qmin 3 (Qabs (offsetY alignment)))%Q;
                targetValue := nearestY alignment |}
      else None
  end.

(** [forceSnapToGrid(tank, map)]: the returned boolean and the tank after
    the call. *)
Definition forceSnapToGrid (tank : Tank) (map : option AStar.Grid)
  : bool * Tank :=
  let alignment := checkAlignment tank 4 in
  if JS.lt (Qabs (offsetX alignment)) 16 &&
     JS.lt (Qabs (offsetY alignment)) 16 &&
     isPositionWalkable (nearestX alignment) (nearestY alignment) map
  then (true, mkTank (nearestX alignment) (nearestY alignment))
  else (false, tank).

(** The offsets [(dx, dy)] that the search of
    [findNearestWalkablePosition] goes through, in its order: for each
    radius from 0 to 3, row by row, the cells of the ring of that
    radius. *)
Definition ringOffsets (radius : Z) : list (Z * Z) :=
  dy ← seqZ (- radius) (2 * radius + 1);
  dx ← seqZ (- radius) (2 * radius + 1);
  if negb (Z.abs dx =? radius) && negb (Z.abs dy =? radius) then []
  else [(dx, dy)].

Definition searchOffsets : list (Z * Z) :=
  radius ← seqZ 0 4; ringOffsets radius.

(** The distance of an offset in cells: the radius of its ring. *)
Definition ringDistance (d : Z * Z) : Z := Z.max (Z.abs d.1) (Z.abs d.2).

(** [findNearestWalkablePosition(tank, map)] *)
Definition findNearestWalkablePosition (tank : Tank) (map : option AStar.Grid)
  : option (Q * Q) :=
  match map with
  | None => None
  | Some _ =>
      let '(gridX, gridY) := pixelToGrid (tank_x tank) (tank_y tank) in
      List.find (λ pixel : Q * Q, isPositionWalkable pixel.1 pixel.2 map)
        ((λ d : Z * Z, gridToPixel (gridX + d.1) (gridY + d.2))
           <$> searchOffsets)
  end.

End GridMovement.

(** ** AIBlackboard.js *)

Module AIBlackboard.

Record pos := mkPos { pos_x : Q; pos_y : Q }.

(** A flanking candidate [{x, y, side}]. *)
Record flankPos := mkFlank { flank_x : Q; flank_y : Q; side : string }.

(** An entry of [enemyPositions]: [{...position, time}]. *)
Record timedPos := mkTimed { tp_x : Q; tp_y : Q; time : Q }.

(** A patrol index as the code can store it: a number, or the [NaN] that
    [(i + 1) % 0] yields. *)
Inductive jsindex : Type := Idx (i : nat) | NaNIdx.

Global Instance jsindex_eq_dec : EqDecision jsindex.
Proof. solve_decision. Defined.

(** The fields of the player tank the blackboard reads; [None] stands
    for a field that is [undefined]. *)
Record Player := mkPlayer {
  isDestroyed : bool;
  player_x : Q;
  player_y : Q;
  body_velocity : option (Q * Q);
  direction : option string;
  starLevel : option float;
  lives : option float
}.

(** What the blackboard reads of its scene at the time of a call. *)
Record Scene := mkScene {
  time_now : Q;
  levelData_map : option AStar.Grid;
  game_config_width : option Q;
  game_config_height : option Q;
  scene_player : option Player
}.

Record Config := mkConfig {
  positionUpdateInterval : Q;
  flankingDistance : Q;
  minDistanceBetweenEnemies : Q;
  playerInfoExpireTime : Q;
  maxFlankingEnemies : nat
}.

Record t := mk {
  playerLastKnownPosition : option pos;
  playerLastSeenTime : Q;
  playerVelocity : Q * Q;
  playerDirection : string;
  assignedTargets : gmap string string;
  targetAssignmentCooldown : Q;
  flankingPositions : gmap string flankPos;
  occupiedPositions : list pos;
  threatLevel : float;
  dangerZones : list pos;
  activeEnemyCount : nat;
  enemyPositions : gmap string timedPos;
  attackingEnemies : gset string;
  patrolPoints : list pos;
  assignedPatrolPoints : gmap string jsindex;
  patrolPointsNeedValidation : bool;
  config : Config
}.

Definition defaultConfig : Config :=
  {| positionUpdateInterval := 100%Q;
     flankingDistance := 120%Q;
     minDistanceBetweenEnemies := 60%Q;
     playerInfoExpireTime := 5000%Q;
     maxFlankingEnemies := 2 |}.

(** [_initializePatrolPoints()]: the candidate points. *)
Definition candidatePoints : list pos :=
  let width := 832%Q in
  let height := 832%Q in
  let margin := 80%Q in
  [ mkPos margin margin;
    mkPos (width - margin) margin;
    mkPos margin (height - margin);
    mkPos (width - margin) (height - margin);
    mkPos (width / 2) margin;
    mkPos (width / 2) (height - margin);
    mkPos margin (height / 2);
    mkPos (width - margin) (height / 2);
    mkPos (width / 2) (height / 2);
    mkPos (width / 3) (height / 3);
    mkPos (width * 2 / 3) (height / 3);
    mkPos (width / 3) (height * 2 / 3);
    mkPos (width * 2 / 3) (height * 2 / 3) ]%Q.

(** [constructor(scene)] *)
Definition new : t :=
  {| playerLastKnownPosition := None;
     playerLastSeenTime := 0%Q;
     playerVelocity := (0%Q, 0%Q);
     playerDirection := "down";
     assignedTargets := ∅;
     targetAssignmentCooldown := 3000%Q;
     flankingPositions := ∅;
     occupiedPositions := [];
     threatLevel := 0%float;
     dangerZones := [];
     activeEnemyCount := 0;
     enemyPositions := ∅;
     attackingEnemies := ∅;
     patrolPoints := candidatePoints;
     assignedPatrolPoints := ∅;
     patrolPointsNeedValidation := true;
     config := defaultConfig |}.

(** Field updates. *)
Definition with_assignedTargets (v : gmap string string) (b : t) : t :=
  mk (playerLastKnownPosition b) (playerLastSeenTime b) (playerVelocity b)
     (playerDirection b) v (targetAssignmentCooldown b)
     (flankingPositions b) (occupiedPositions b) (threatLevel b)
     (dangerZones b) (activeEnemyCount b) (enemyPositions b)
     (attackingEnemies b) (patrolPoints b) (assignedPatrolPoints b)
     (patrolPointsNeedValidation b) (config b).

Definition with_flankingPositions (v : gmap string flankPos) (b : t) : t :=
  mk (playerLastKnownPosition b) (playerLastSeenTime b) (playerVelocity b)
     (playerDirection b) (assignedTargets b) (targetAssignmentCooldown b)
     v (occupiedPositions b) (threatLevel b)
     (dangerZones b) (activeEnemyCount b) (enemyPositions b)
     (attackingEnemies b) (patrolPoints b) (assignedPatrolPoints b)
     (patrolPointsNeedValidation b) (config b).

Definition with_threatLevel (v : float) (b : t) : t :=
  mk (playerLastKnownPosition b) (playerLastSeenTime b) (playerVelocity b)
     (playerDirection b) (assignedTargets b) (targetAssignmentCooldown b)
     (flankingPositions b) (occupiedPositions b) v
     (dangerZones b) (activeEnemyCount b) (enemyPositions b)
     (attackingEnemies b) (patrolPoints b) (assignedPatrolPoints b)
     (patrolPointsNeedValidation b) (config b).

Definition with_activeEnemyCount (v : nat) (b : t) : t :=
  mk (playerLastKnownPosition b) (playerLastSeenTime b) (playerVelocity b)
     (playerDirection b) (assignedTargets b) (targetAssignmentCooldown b)
     (flankingPositions b) (occupiedPositions b) (threatLevel b)
     (dangerZones b) v (enemyPositions b)
     (attackingEnemies b) (patrolPoints b) (assignedPatrolPoints b)
     (patrolPointsNeedValidation b) (config b).

Definition with_enemyPositions (v : gmap string timedPos) (b : t) : t :=
  mk (playerLastKnownPosition b) (playerLastSeenTime b) (playerVelocity b)
     (playerDirection b) (assignedTargets b) (targetAssignmentCooldown b)
     (flankingPositions b) (occupiedPositions b) (threatLevel b)
     (dangerZones b) (activeEnemyCount b) v
     (attackingEnemies b) (patrolPoints b) (assignedPatrolPoints b)
     (patrolPointsNeedValidation b) (config b).

Definition with_attackingEnemies (v : gset string) (b : t) : t :=
  mk (playerLastKnownPosition b) (playerLastSeenTime b) (playerVelocity b)
     (playerDirection b) (assignedTargets b) (targetAssignmentCooldown b)
     (flankingPositions b) (occupiedPositions b) (threatLevel b)
     (dangerZones b) (activeEnemyCount b) (enemyPositions b)
     v (patrolPoints b) (assignedPatrolPoints b)
     (patrolPointsNeedValidation b) (config b).

Definition with_patrolPoints (v : list pos) (needValidation : bool) (b : t)
  : t :=
  mk (playerLastKnownPosition b) (playerLastSeenTime b) (playerVelocity b)
     (playerDirection b) (assignedTargets b) (targetAssignmentCooldown b)
     (flankingPositions b) (occupiedPositions b) (threatLevel b)
     (dangerZones b) (activeEnemyCount b) (enemyPositions b)
     (attackingEnemies b) v (assignedPatrolPoints b)
     needValidation (config b).

Definition with_assignedPatrolPoints (v : gmap string jsindex) (b : t) : t :=
  mk (playerLastKnownPosition b) (playerLastSeenTime b) (playerVelocity b)
     (playerDirection b) (assignedTargets b) (targetAssignmentCooldown b)
     (flankingPositions b) (occupiedPositions b) (threatLevel b)
     (dangerZones b) (activeEnemyCount b) (enemyPositions b)
     (attackingEnemies b) (patrolPoints b) v
     (patrolPointsNeedValidation b) (config b).

Definition with_playerInfo (p : option pos) (seen : Q) (v : Q * Q)
  (d : string) (b : t) : t :=
  mk p seen v d (assignedTargets b) (targetAssignmentCooldown b)
     (flankingPositions b) (occupiedPositions b) (threatLevel b)
     (dangerZones b) (activeEnemyCount b) (enemyPositions b)
     (attackingEnemies b) (patrolPoints b) (assignedPatrolPoints b)
     (patrolPointsNeedValidation b) (config b).

(** *** Player knowledge *)

(** [updatePlayerInfo(player)] *)
Definition updatePlayerInfo (scene : Scene) (player : option Player) (b : t)
  : t :=
  match player with
  | None => b
  | Some p =>
      if isDestroyed p then b
      else
        with_playerInfo
          (Some (mkPos (player_x p) (player_y p)))
          (time_now scene)
          (match body_velocity p with
           | Some v => v
           | None => playerVelocity b
           end)
          (if JS.truthy_str (direction p)
           then default "down" (direction p) else "down")
          b
  end.

(** [predictPlayerPosition(predictionTime)] *)
Definition predictPlayerPosition (scene : Scene) (predictionTime : Q) (b : t)
  : option pos :=
  match playerLastKnownPosition b with
  | None => None
  | Some last =>
      let timeSinceLastSeen :=
        ((time_now scene - playerLastSeenTime b) / 1000)%Q in
      if JS.lt (playerInfoExpireTime (config b) / 1000)%Q timeSinceLastSeen
      then Some last
      else Some (mkPos (pos_x last + (playerVelocity b).1 * predictionTime)%Q
                       (pos_y last + (playerVelocity b).2 * predictionTime)%Q)
  end.

(** [isPlayerInfoValid()] *)
Definition isPlayerInfoValid (scene : Scene) (b : t) : bool :=
  match playerLastKnownPosition b with
  | None => false
  | Some _ =>
      JS.lt (time_now scene - playerLastSeenTime b)%Q
            (playerInfoExpireTime (config b))
  end.

(** *** Target assignment *)

(** The callback of [assignedTargets.forEach] in [assignTarget]; the
    accumulator is [(playerTargetCount, baseTargetCount)]. *)
Definition countTarget (_ : string) (target : string) (acc : nat * nat)
  : nat * nat :=
  if String.eqb target "player" then (S acc.1, acc.2)
  else if String.eqb target "base" then (acc.1, S acc.2)
  else acc.

Definition targetCounts (targets : gmap string string) : nat * nat :=
  map_fold countTarget (0, 0)%nat targets.

(** [assignTarget(enemyId, preferredTarget)] *)
Definition assignTarget (enemyId preferredTarget : string) (b : t)
  : string * t :=
  let '(playerTargetCount, baseTargetCount) :=
    targetCounts (assignedTargets b) in
  let assignedTarget :=
    if (2 <=? playerTargetCount)%nat && (baseTargetCount =? 0)%nat
    then "base" else preferredTarget in
  (assignedTarget,
   with_assignedTargets (<[enemyId := assignedTarget]> (assignedTargets b)) b).

(** [removeTargetAssignment(enemyId)] *)
Definition removeTargetAssignment (enemyId : string) (b : t) : t :=
  let b1 := with_assignedTargets (delete enemyId (assignedTargets b)) b in
  let b2 := with_flankingPositions (delete enemyId (flankingPositions b1)) b1 in
  let b3 :=
    with_assignedPatrolPoints (delete enemyId (assignedPatrolPoints b2)) b2 in
  let b4 := with_enemyPositions (delete enemyId (enemyPositions b3)) b3 in
  with_attackingEnemies (attackingEnemies b4 ∖ {[enemyId]}) b4.

(** The number of agents assigned ['player'], and ['base']. *)
Definition playerAssigned (targets : gmap string string) : nat :=
  size (filter (λ kv : string * string, kv.2 = "player") targets).

Definition baseAssigned (targets : gmap string string) : nat :=
  size (filter (λ kv : string * string, kv.2 = "base") targets).

(** *** Team state *)

(** [updateEnemyPosition(enemyId, position)] *)
Definition updateEnemyPosition (scene : Scene) (enemyId : string)
  (position : pos) (b : t) : t :=
  with_enemyPositions
    (<[enemyId := mkTimed (pos_x position) (pos_y position) (time_now scene)]>
       (enemyPositions b)) b.

(** [getAttackersCount(target, excludeId)]; [excludeId] is [None] for
    [null]. *)
Definition getAttackersCount (target : string) (excludeId : option string)
  (b : t) : nat :=
  map_fold
    (λ enemyId assignedTarget count,
       if bool_decide (Some enemyId ≠ excludeId) && String.eqb assignedTarget target
       then if bool_decide (enemyId ∈ attackingEnemies b) then S count else count
       else count)
    0%nat (assignedTargets b).

(** [markAsAttacking(enemyId)] *)
Definition markAsAttacking (enemyId : string) (b : t) : t :=
  with_attackingEnemies (attackingEnemies b ∪ {[enemyId]}) b.

(** [markAsNotAttacking(enemyId)] *)
Definition markAsNotAttacking (enemyId : string) (b : t) : t :=
  with_attackingEnemies (attackingEnemies b ∖ {[enemyId]}) b.

(** [getFlankingEnemyCount()] *)
Definition getFlankingEnemyCount (b : t) : nat := size (flankingPositions b).

(** [canJoinFlanking()] *)
Definition canJoinFlanking (b : t) : bool :=
  (size (flankingPositions b) <? maxFlankingEnemies (config b))%nat.

(** [blackboard.flankingPositions.delete(id)], the release of a slot that
    the controller does on the map itself when it reaches the slot. *)
Definition releaseFlankingPosition (enemyId : string) (b : t) : t :=
  with_flankingPositions (delete enemyId (flankingPositions b)) b.

(** *** Threat *)

(** [calculateThreatLevel(player)]: the star level and the lives are
    doubles, and the sum is computed and clamped in double arithmetic. *)
Definition calculateThreatLevel (player : option Player) (b : t) : t :=
  match player with
  | None => with_threatLevel 0%float b
  | Some p =>
      if isDestroyed p then with_threatLevel 0%float b
      else
        let threat := 50%float in
        let threat :=
          if JS.truthy_double (starLevel p)
          then (threat + default 0 (starLevel p) * 10)%float else threat in
        let threat :=
          if JS.truthy_double (lives p)
          then (threat + default 0 (lives p) * 5)%float else threat in
        let activeEnemies := size (enemyPositions b) in
        let threat :=
          if (activeEnemies <? 2)%nat then (threat + 20)%float else threat in
        with_threatLevel (JS.Math_min 100 (JS.Math_max 0 threat)) b
  end.

(** [getThreatLevel()] *)
Definition getThreatLevel (b : t) : float := threatLevel b.

(** [clear()] *)
Definition clear (b : t) : t :=
  {| playerLastKnownPosition := None;
     playerLastSeenTime := 0%Q;
     playerVelocity := (0%Q, 0%Q);
     playerDirection := playerDirection b;
     assignedTargets := ∅;
     targetAssignmentCooldown := targetAssignmentCooldown b;
     flankingPositions := ∅;
     occupiedPositions := [];
     threatLevel := 0%float;
     dangerZones := dangerZones b;
     activeEnemyCount := activeEnemyCount b;
     enemyPositions := ∅;
     attackingEnemies := ∅;
     patrolPoints := patrolPoints b;
     assignedPatrolPoints := ∅;
     patrolPointsNeedValidation := patrolPointsNeedValidation b;
     config := config b |}.

(** *** Terrain checks *)

(** [_isPositionWalkable(pos)].  A tile that is [undefined] (a short row)
    is not in the list of blocking tiles. *)
Definition _isPositionWalkable (scene : Scene) (x y : Q) : bool :=
  match levelData_map scene with
  | None => true
  | Some map =>
      let tileSize := Constants.TILE_SIZE in
      let gridX := Qfloor (x / tileSize) in
      let gridY := Qfloor (y / tileSize) in
      if (gridY <? 0) || (Z.of_nat (length map) <=? gridY) ||
         (gridX <? 0) || (Z.of_nat (length (nth 0 map [])) <=? gridX)
      then false
      else
        match AStar.tileAt (gridX, gridY) map with
        | Some tile =>
            negb ((tile =? Constants.BRICK) || (tile =? Constants.STEEL) ||
                  (tile =? Constants.WATER))
        | None => true
        end
  end.

(** [_isPositionValid(pos)] *)
Definition _isPositionValid (scene : Scene) (x y : Q) : bool :=
  let margin := 32%Q in
  let width :=
    if JS.truthy_num (game_config_width scene)
    then default 832%Q (game_config_width scene) else 832%Q in
  let height :=
    if JS.truthy_num (game_config_height scene)
    then default 832%Q (game_config_height scene) else 832%Q in
  if JS.le x margin || JS.le (width - margin)%Q x ||
     JS.le y margin || JS.le (height - margin)%Q y
  then false
  else _isPositionWalkable scene x y.

(** [_isPositionSafelyWalkable(pos)] *)
Definition _isPositionSafelyWalkable (scene : Scene) (x y : Q) : bool :=
  let halfTile := (Constants.TILE_SIZE / 2)%Q in
  forallb (λ p : Q * Q, _isPositionWalkable scene p.1 p.2)
    [ (x, y);
      (x - halfTile, y - halfTile);
      (x + halfTile, y - halfTile);
      (x - halfTile, y + halfTile);
      (x + halfTile, y + halfTile) ]%Q.

(** The radii of the search of [_findNearbyWalkablePosition]:
    [step, 2 * step, ...] up to [searchRadius]. *)
Definition searchRadii (step searchRadius : Q) : list Q :=
  (λ k : nat, (step * inject_Z (Z.of_nat k))%Q)
    <$> seq 1 (Z.to_nat (Qfloor (searchRadius / step))).

(** [_findNearbyWalkablePosition(pos, searchRadius)] *)
Definition _findNearbyWalkablePosition (scene : Scene) (p : flankPos)
  (searchRadius : Q) : option flankPos :=
  let step := (Constants.TILE_SIZE / 2)%Q in
  let candidates (radius : Q) : list (Q * Q) :=
    [ (flank_x p + radius, flank_y p);
      (flank_x p - radius, flank_y p);
      (flank_x p, flank_y p + radius);
      (flank_x p, flank_y p - radius);
      (flank_x p + radius, flank_y p + radius);
      (flank_x p - radius, flank_y p + radius);
      (flank_x p + radius, flank_y p - radius);
      (flank_x p - radius, flank_y p - radius) ]%Q in
  match
    List.find
      (λ c : Q * Q,
         _isPositionValid scene c.1 c.2 && _isPositionSafelyWalkable scene c.1 c.2)
      (concat (candidates <$> searchRadii step searchRadius))
  with
  | Some c => Some (mkFlank c.1 c.2 (side p))
  | None => None
  end.

(** *** Flanking *)

(** [Array.prototype.indexOf] on the priority list, [-1] when absent. *)
Fixpoint indexOf (s : string) (l : list string) : Z :=
  match l with
  | [] => -1
  | s' :: l' =>
      if String.eqb s' s then 0
      else let i := indexOf s l' in if i <? 0 then -1 else 1 + i
  end.

(** A stable sort by an integer key, the effect of [positions.sort] with
    the comparison [key(a) - key(b)]. *)
Fixpoint insertByKey {A} (key : A → Z) (a : A) (l : list A) : list A :=
  match l with
  | [] => [a]
  | b :: l' => if key b <=? key a then b :: insertByKey key a l' else a :: b :: l'
  end.

Definition sortByKey {A} (key : A → Z) (l : list A) : list A :=
  foldl (λ acc a, insertByKey key a acc) [] l.

(** [_prioritizeFlankingPositions(positions, playerDirection)], for a
    direction that is not one of [JS.objectPrototypeNames]: for those
    [priorityMap[playerDirection]] is the inherited property, which is
    no array. *)
Definition _prioritizeFlankingPositions (positions : list flankPos)
  (playerDirection : string) : list flankPos :=
  let priority :=
    if String.eqb playerDirection "up" then ["bottom"; "left"; "right"; "top"]
    else if String.eqb playerDirection "down" then ["top"; "left"; "right"; "bottom"]
    else if String.eqb playerDirection "left" then ["right"; "top"; "bottom"; "left"]
    else if String.eqb playerDirection "right" then ["left"; "top"; "bottom"; "right"]
    else ["left"; "right"; "top"; "bottom"] in
  sortByKey (λ a, indexOf (side a) priority) positions.

Section WithDistance.

(** [Phaser.Math.Distance.Between(x1, y1, x2, y2)] *)
Context (Distance_Between : Q → Q → Q → Q → Q).

(** [_isPositionOccupied(pos, excludeEnemyId)] *)
Definition _isPositionOccupied (p : flankPos) (excludeEnemyId : string) (b : t)
  : bool :=
  let minDist := minDistanceBetweenEnemies (config b) in
  existsb
    (λ entry : string * flankPos,
       if String.eqb entry.1 excludeEnemyId then false
       else JS.lt (Distance_Between (flank_x p) (flank_y p)
                     (flank_x entry.2) (flank_y entry.2)) minDist)
    (map_to_list (flankingPositions b)).

(** [calculateFlankingPosition(enemyId, enemyPos)] *)
Definition calculateFlankingPosition (scene : Scene) (enemyId : string)
  (enemyPos : pos) (b : t) : option flankPos * t :=
  match playerLastKnownPosition b with
  | None => (None, b)
  | Some playerPos =>
      let flankDist := flankingDistance (config b) in
      let potentialPositions :=
        [ mkFlank (pos_x playerPos - flankDist) (pos_y playerPos) "left";
          mkFlank (pos_x playerPos + flankDist) (pos_y playerPos) "right";
          mkFlank (pos_x playerPos) (pos_y playerPos - flankDist) "top";
          mkFlank (pos_x playerPos) (pos_y playerPos + flankDist) "bottom" ]%Q in
      let prioritizedPositions :=
        _prioritizeFlankingPositions potentialPositions (playerDirection b) in
      match
        List.find
          (λ p, negb (_isPositionOccupied p enemyId b) &&
                (_isPositionValid scene (flank_x p) (flank_y p) &&
                 _isPositionSafelyWalkable scene (flank_x p) (flank_y p)))
          prioritizedPositions
      with
      | Some p =>
          (Some p, with_flankingPositions (<[enemyId := p]> (flankingPositions b)) b)
      | None =>
          match
            List.find
              (λ nearbyPos, negb (_isPositionOccupied nearbyPos enemyId b))
              (omap (λ p, _findNearbyWalkablePosition scene p 80)
                    prioritizedPositions)
          with
          | Some nearbyPos =>
              (Some nearbyPos,
               with_flankingPositions
                 (<[enemyId := nearbyPos]> (flankingPositions b)) b)
          | None => (None, b)
          end
      end
  end.

(** *** Patrol points *)

(** [_generateWalkablePatrolPoints(count)]; [random] is the stream of
    the draws of [Math.random], two for each attempt. *)
Fixpoint generateLoop (scene : Scene) (existing : list pos) (random : nat → Q)
  (count : nat) (attemptsLeft attempts : nat) (points : list pos) : list pos :=
  match attemptsLeft with
  | O => points
  | S attemptsLeft' =>
      if (length points <? count)%nat then
        let margin := 80%Q in
        let width :=
          if JS.truthy_num (game_config_width scene)
          then default 832%Q (game_config_width scene) else 832%Q in
        let height :=
          if JS.truthy_num (game_config_height scene)
          then default 832%Q (game_config_height scene) else 832%Q in
        let cx := (margin + random (2 * attempts)%nat * (width - 2 * margin))%Q in
        let cy := (margin + random (S (2 * attempts)) * (height - 2 * margin))%Q in
        let points' :=
          if _isPositionSafelyWalkable scene cx cy then
            let tooClose :=
              existsb (λ p, JS.lt (Distance_Between cx cy (pos_x p) (pos_y p)) 100)
                      (existing ++ points) in
            if tooClose then points else points ++ [mkPos cx cy]
          else points in
        generateLoop scene existing random count attemptsLeft' (S attempts) points'
      else points
  end.

Definition _generateWalkablePatrolPoints (scene : Scene) (random : nat → Q)
  (count : nat) (b : t) : list pos :=
  generateLoop scene (patrolPoints b) random count (count * 20) 0 [].

(** [_validatePatrolPoints()] *)
Definition _validatePatrolPoints (scene : Scene) (random : nat → Q) (b : t) : t :=
  if negb (patrolPointsNeedValidation b) then b
  else
    match levelData_map scene with
    | None => b
    | Some _ =>
        let validPoints :=
          List.filter (λ p, _isPositionSafelyWalkable scene (pos_x p) (pos_y p))
                      (patrolPoints b) in
        if (length validPoints <? 5)%nat then
          let additionalPoints :=
            _generateWalkablePatrolPoints scene random (10 - length validPoints) b in
          with_patrolPoints (validPoints ++ additionalPoints) false b
        else with_patrolPoints validPoints false b
    end.

(** The callback of [patrolPoints.forEach] in [assignPatrolPoint]; the
    accumulator holds the number of draws made and the best point so far
    with its score and index ([None] while the best score is
    [-Infinity]). *)
Definition scorePatrolPoint (assigned : list jsindex) (currentPos : pos)
  (random : nat → Q) (acc : nat * option (Q * pos * nat))
  (entry : nat * pos) : nat * option (Q * pos * nat) :=
  let '(index, point) := entry in
  if bool_decide (Idx index ∈ assigned) then acc
  else
    let dist :=
      Distance_Between (pos_x currentPos) (pos_y currentPos)
                       (pos_x point) (pos_y point) in
    let score := 100%Q in
    let score :=
      if JS.lt dist 100 then (score - (100 - dist))%Q
      else if JS.lt 400 dist then (score - (dist - 400) / 5)%Q
      else score in
    let score := (score + random acc.1 * 30)%Q in
    match acc.2 with
    | None => (S acc.1, Some (score, point, index))
    | Some (bestScore, _, _) =>
        if JS.lt bestScore score then (S acc.1, Some (score, point, index))
        else (S acc.1, acc.2)
    end.

(** [assignPatrolPoint(enemyId, currentPos)]; the returned point is [None]
    for [undefined]. *)
Definition assignPatrolPoint (random : nat → Q) (enemyId : string)
  (currentPos : pos) (b : t) : option pos * t :=
  let assignedIndices := (map_to_list (assignedPatrolPoints b)).*2 in
  let '(draws, best) :=
    foldl (scorePatrolPoint assignedIndices currentPos random) (0%nat, None)
          (imap (λ i p, (i, p)) (patrolPoints b)) in
  match best with
  | Some (_, bestPoint, bestIndex) =>
      (Some bestPoint,
       with_assignedPatrolPoints
         (<[enemyId := Idx bestIndex]> (assignedPatrolPoints b)) b)
  | None =>
      let randomIndex :=
        Z.to_nat (Qfloor (random draws * inject_Z (Z.of_nat (length (patrolPoints b))))) in
      (patrolPoints b !! randomIndex,
       with_assignedPatrolPoints
         (<[enemyId := Idx randomIndex]> (assignedPatrolPoints b)) b)
  end.

(** [getNextPatrolPoint(enemyId)] *)
Definition getNextPatrolPoint (enemyId : string) (b : t) : option pos * t :=
  match assignedPatrolPoints b !! enemyId with
  | None => (None, b)
  | Some currentIndex =>
      let nextIndex :=
        match currentIndex, length (patrolPoints b) with
        | Idx i, S _ => Idx ((i + 1) mod length (patrolPoints b))
        | _, _ => NaNIdx
        end in
      (match nextIndex with
       | Idx i => patrolPoints b !! i
       | NaNIdx => None
       end,
       with_assignedPatrolPoints
         (<[enemyId := nextIndex]> (assignedPatrolPoints b)) b)
  end.

(** [update()] *)
Definition update (scene : Scene) (random : nat → Q) (b : t) : t :=
  let b1 :=
    if patrolPointsNeedValidation b then _validatePatrolPoints scene random b
    else b in
  let b2 := with_activeEnemyCount (size (enemyPositions b1)) b1 in
  match scene_player scene with
  | Some p =>
      if isDestroyed p then b2
      else calculateThreatLevel (Some p) (updatePlayerInfo scene (Some p) b2)
  | None => b2
  end.

(** *** The blackboard over time *)

(** One call on the blackboard.  A controller calls
    [calculateFlankingPosition] only after [canJoinFlanking()] has
    answered [true] ([_evaluateFlankingOpportunity]). *)
Inductive step : t → t → Prop :=
| step_updatePlayerInfo scene player b :
    step b (updatePlayerInfo scene player b)
| step_assignTarget enemyId preferredTarget b :
    step b (assignTarget enemyId preferredTarget b).2
| step_removeTargetAssignment enemyId b :
    step b (removeTargetAssignment enemyId b)
| step_calculateFlankingPosition scene enemyId enemyPos b :
    canJoinFlanking b = true →
    step b (calculateFlankingPosition scene enemyId enemyPos b).2
| step_releaseFlankingPosition enemyId b :
    step b (releaseFlankingPosition enemyId b)
| step_updateEnemyPosition scene enemyId position b :
    step b (updateEnemyPosition scene enemyId position b)
| step_markAsAttacking enemyId b :
    step b (markAsAttacking enemyId b)
| step_markAsNotAttacking enemyId b :
    step b (markAsNotAttacking enemyId b)
| step_assignPatrolPoint random enemyId currentPos b :
    step b (assignPatrolPoint random enemyId currentPos b).2
| step_getNextPatrolPoint enemyId b :
    step b (getNextPatrolPoint enemyId b).2
| step_calculateThreatLevel player b :
    step b (calculateThreatLevel player b)
| step_clear b :
    step b (clear b)
| step_update scene random b :
    step b (update scene random b).

(** The states a blackboard goes through from its construction. *)
Inductive reachable : t → Prop :=
| reachable_new : reachable new
| reachable_step b b' : reachable b → step b b' → reachable b'.

End WithDistance.

End AIBlackboard.

(** ** EnemyAI.js: target selection and state evaluation *)

Module EnemyAI.

(** The value of [currentTarget] when it is not [null]. *)
Inductive target : Type := player | base.

Global Instance target_eq_dec : EqDecision target.
Proof. solve_decision. Defined.

(** What the controller reads of [scene.player] or [scene.base];
    [isDestroyed] is [None] when the object has no such field. *)
Record Entity := mkEntity {
  entity_x : Q;
  entity_y : Q;
  isDestroyed : option bool
}.

(** What the controller reads of its tank. *)
Record Tank := mkTank {
  tank_x : Q;
  tank_y : Q;
  health : Q;
  maxHealth : Q;
  type : string
}.

(** [targetPriority]: [{player, base}]. *)
Record Priority := mkPriority { priority_player : Q; priority_base : Q }.

(** [_determineTargetPriority(tankType)], for a type that is not one of
    [JS.objectPrototypeNames]: for those [priorities[tankType]] is the
    inherited property, which has no [player] entry. *)
Definition _determineTargetPriority (tankType : string) : Priority :=
  if String.eqb tankType "BASIC" then mkPriority (7 # 10) (3 # 10)
  else if String.eqb tankType "FAST" then mkPriority (4 # 10) (6 # 10)
  else if String.eqb tankType "POWER" then mkPriority (8 # 10) (2 # 10)
  else if String.eqb tankType "ARMOR" then mkPriority (8 # 10) (2 # 10)
  else mkPriority (7 # 10) (3 # 10).

Section Controller.

(** The world the state handlers act on, and the four state objects that
    [_initializeStates] registers. *)
Context {Ctx : Type}.
Context (patrolState chaseState attackState retreatState
           : StateMachine.State Ctx unit).

(** [Phaser.Math.Distance.Between(x1, y1, x2, y2)] *)
Context (Distance_Between : Q → Q → Q → Q → Q).

Record t := mk {
  tank : Tank;
  stateMachine : StateMachine.t Ctx unit;
  detectionRange : Q;
  attackRange : Q;
  retreatHealthPercent : Q;
  currentTarget : option target;
  targetPriority : Priority
}.

Definition with_currentTarget (v : option target) (ai : t) : t :=
  mk (tank ai) (stateMachine ai) (detectionRange ai) (attackRange ai)
     (retreatHealthPercent ai) v (targetPriority ai).

Definition with_stateMachine (v : StateMachine.t Ctx unit) (ai : t) : t :=
  mk (tank ai) v (detectionRange ai) (attackRange ai)
     (retreatHealthPercent ai) (currentTarget ai) (targetPriority ai).

(** [_initializeStates()] *)
Definition _initializeStates (m : StateMachine.t Ctx unit)
  : StateMachine.t Ctx unit :=
  StateMachine.addState "retreat" retreatState
    (StateMachine.addState "attack" attackState
       (StateMachine.addState "chase" chaseState
          (StateMachine.addState "patrol" patrolState m))).

(** The part of [constructor(scene, tank)] that sets up the fields
    modelled here: the ranges, the target and the state machine, put in
    [patrol]. *)
Definition new (tk : Tank) (w : Ctx) : t * Ctx :=
  let '(_, m, w') :=
    StateMachine.setState "patrol" [] (_initializeStates StateMachine.new) w in
  ({| tank := tk;
      stateMachine := m;
      detectionRange := Constants.DETECTION_RANGE;
      attackRange := Constants.ATTACK_RANGE;
      retreatHealthPercent := Constants.RETREAT_HEALTH_PERCENT;
      currentTarget := None;
      targetPriority := _determineTargetPriority (type tk) |}, w').

(** [!obj.isDestroyed] *)
Definition notDestroyed (e : Entity) : bool :=
  negb (default false (isDestroyed e)).

(** [this.currentTarget === 'player' ? player : base] *)
Definition targetObject (tk : target) (playerObj baseObj : option Entity)
  : option Entity :=
  match tk with player => playerObj | base => baseObj end.

(** [_selectTarget(player, base)]; [random] is the stream of the draws
    of [Math.random]. *)
Definition _selectTarget (random : nat → Q) (playerObj baseObj : option Entity)
  (ai : t) : t :=
  let keepDrawn :=
    match currentTarget ai with
    | Some tk =>
        match targetObject tk playerObj baseObj with
        | Some tg => notDestroyed tg
        | None => false
        end
    | None => false
    end in
  if keepDrawn && JS.lt (random 0%nat) (8 # 10) then ai
  else
    let draws := if keepDrawn then 1%nat else 0%nat in
    let playerAvailable :=
      match playerObj with Some p => notDestroyed p | None => false end in
    let baseAvailable :=
      match baseObj with Some b => notDestroyed b | None => false end in
    if negb playerAvailable && negb baseAvailable
    then with_currentTarget None ai
    else if negb playerAvailable then with_currentTarget (Some base) ai
    else if negb baseAvailable then with_currentTarget (Some player) ai
    else
      let roll := random draws in
      if JS.lt roll (priority_player (targetPriority ai))
      then with_currentTarget (Some player) ai
      else with_currentTarget (Some base) ai.

(** [this.stateMachine.setState(name)] from inside the controller. *)
Definition enterState (name : string) (ai : t) (w : Ctx) : t * Ctx :=
  let '(_, m, w') := StateMachine.setState name [] (stateMachine ai) w in
  (with_stateMachine m ai, w').

(** [_evaluateState()] *)
Definition _evaluateState (random : nat → Q) (playerObj baseObj : option Entity)
  (ai : t) (w : Ctx) : t * Ctx :=
  let ai := _selectTarget random playerObj baseObj ai in
  match currentTarget ai with
  | None => enterState "patrol" ai w
  | Some tk =>
      match targetObject tk playerObj baseObj with
      | None => enterState "patrol" (with_currentTarget None ai) w
      | Some tg =>
          if bool_decide (isDestroyed tg = Some true)
          then enterState "patrol" (with_currentTarget None ai) w
          else
            let distance :=
              Distance_Between (tank_x (tank ai)) (tank_y (tank ai))
                               (entity_x tg) (entity_y tg) in
            if JS.div_lt (health (tank ai)) (maxHealth (tank ai))
                         (retreatHealthPercent ai)
               && bool_decide (tk = player)
            then enterState "retreat" ai w
            else if JS.lt distance (attackRange ai)
            then enterState "attack" ai w
            else if JS.lt distance (detectionRange ai) || bool_decide (tk = base)
            then enterState "chase" ai w
            else enterState "patrol" ai w
      end
  end.

(** The four states of the controller are registered in its machine. *)
Definition states_registered (ai : t) : Prop :=
  ∀ name, name ∈ ["patrol"; "chase"; "attack"; "retreat"] →
          is_Some (StateMachine.states (stateMachine ai) !! name).

End Controller.

Arguments t : clear implicits.

(** The decision table of the controller, row by row as the
    specification words it: the first row whose condition holds gives the
    state. *)
Definition decisionTable (healthBelowRetreat targetIsPlayer
  distanceBelowAttack distanceBelowDetection targetIsBase : bool) : string :=
  if healthBelowRetreat && targetIsPlayer then "retreat"
  else if distanceBelowAttack then "attack"
  else if distanceBelowDetection || targetIsBase then "chase"
  else "patrol".

(** *** The controller and the blackboard *)

(** [_registerToBlackboard()]: the blackboard of the scene after the
    call; [blackboard] is [None] when the scene has none. *)
Definition _registerToBlackboard (scene : AIBlackboard.Scene) (id : string)
  (tk : Tank) (priority : Priority) (teamCoordinationEnabled : bool)
  (blackboard : option AIBlackboard.t) : option AIBlackboard.t :=
  match blackboard with
  | Some b =>
      if teamCoordinationEnabled then
        let preferredTarget :=
          if JS.lt (1 # 2) (priority_player priority) then "player"
          else "base" in
        let b1 := (AIBlackboard.assignTarget id preferredTarget b).2 in
        Some (AIBlackboard.updateEnemyPosition scene id
                (AIBlackboard.mkPos (tank_x tk) (tank_y tk)) b1)
      else Some b
  | None => None
  end.

(** [unregisterFromBlackboard()] *)
Definition unregisterFromBlackboard (id : string)
  (blackboard : option AIBlackboard.t) : option AIBlackboard.t :=
  match blackboard with
  | Some b => Some (AIBlackboard.removeTargetAssignment id b)
  | None => None
  end.

(** *** The terrain ahead of the tank *)

(** [_isDirectionSafe(direction)] for one of the four directions; [map]
    is [None] when the scene has no map. *)
Definition _isDirectionSafe (tk : Tank) (direction : GridMovement.Direction)
  (map : option AStar.Grid) : bool :=
  match map with
  | None => true
  | Some map =>
      let tileSize := Constants.TILE_SIZE in
      let vector := GridMovement.vector direction in
      let checkX := (tank_x tk + inject_Z vector.1 * tileSize)%Q in
      let checkY := (tank_y tk + inject_Z vector.2 * tileSize)%Q in
      let gridX := Qfloor (checkX / tileSize) in
      let gridY := Qfloor (checkY / tileSize) in
      if (gridY <? 0) || (Z.of_nat (length map) <=? gridY) ||
         (gridX <? 0) || (Z.of_nat (length (nth 0 map [])) <=? gridX)
      then false
      else
        match AStar.tileAt (gridX, gridY) map with
        | Some tile =>
            (tile =? Constants.EMPTY) || (tile =? Constants.ICE) ||
            (tile =? Constants.FOREST)
        | None => false
        end
  end.

(** *** The line of sight *)






End EnemyAI.

(** ** Concrete machines, boards and grids *)

Module Examples.

(** A handler that writes its name to a log. *)
Definition logState (name : string) : StateMachine.State (list string) unit :=
  {| StateMachine.enter := Some (λ _ log, log ++ [String.append "enter:" name]);
     StateMachine.update := None;
     StateMachine.exit := Some (λ log, log ++ [String.append "exit:" name]) |}.

(** A machine with the states ['a'] and ['b']. *)
Definition machine_ab : StateMachine.t (list string) unit :=
  StateMachine.addState "b" (logState "b")
    (StateMachine.addState "a" (logState "a") StateMachine.new).

(** A machine with a state whose name is the empty string, and ['b']. *)
Definition machine_empty_b : StateMachine.t (list string) unit :=
  StateMachine.addState "b" (logState "b")
    (StateMachine.addState EmptyString (logState EmptyString) StateMachine.new).

(** [machine_empty_b] once it is in the state named by the empty string. *)
Definition machine_in_empty : StateMachine.t (list string) unit :=
  (StateMachine.setState EmptyString [] machine_empty_b []).1.2.

(** A board on which two agents target the player and none the base. *)
Definition board_two_on_player : AIBlackboard.t :=
  (AIBlackboard.assignTarget "e2" "player"
     (AIBlackboard.assignTarget "e1" "player" AIBlackboard.new).2).2.

(** A board that holds every kind of entry for ["e1"] and for ["e2"]. *)
Definition board_full : AIBlackboard.t :=
  let scene := AIBlackboard.mkScene 0 None None None None in
  let b := board_two_on_player in
  let b := AIBlackboard.updateEnemyPosition scene "e1" (AIBlackboard.mkPos 10 10) b in
  let b := AIBlackboard.updateEnemyPosition scene "e2" (AIBlackboard.mkPos 90 90) b in
  let b := AIBlackboard.markAsAttacking "e1" b in
  let b := AIBlackboard.markAsAttacking "e2" b in
  let b := AIBlackboard.with_flankingPositions
             (<["e1" := AIBlackboard.mkFlank 100 100 "left"]>
                (<["e2" := AIBlackboard.mkFlank 300 300 "top"]> ∅)) b in
  AIBlackboard.with_assignedPatrolPoints
    (<["e1" := AIBlackboard.Idx 0]> (<["e2" := AIBlackboard.Idx 1]> ∅)) b.

(** A grid of four columns and three rows:
    - row 0: empty, ice, empty, brick;
    - row 1: brick, steel, forest, brick;
    - row 2: base, empty, empty, water. *)
Definition grid43 : AStar.Grid :=
  [ [0; 4; 0; 1];
    [1; 2; 5; 1];
    [6; 0; 0; 3] ].

(** The centre of the cell [(cx, cy)] for tiles of 32 units. *)
Definition centre (cx cy : Z) : AStar.point :=
  AStar.mkPoint (inject_Z (32 * cx + 16)) (inject_Z (32 * cy + 16)).

(** The waypoint of the cell [(cx, cy)] for tiles of 32 units. *)
Definition waypointAt (cx cy : Z) : AStar.waypoint :=
  AStar.toWaypoint 32 (AStar.Node cx cy 0 0 0 None).

(** A grid of three columns and three rows without an obstacle. *)
Definition gridOpen : AStar.Grid :=
  [ [0; 0; 0];
    [0; 0; 0];
    [0; 0; 0] ].

(** The field of the game without an obstacle: 26 by 26 tiles. *)
Definition gridField : AStar.Grid := replicate 26 (replicate 26 0).

(** A scene on [gridField], without a player. *)
Definition sceneField : AIBlackboard.Scene :=
  AIBlackboard.mkScene 0 (Some gridField) None None None.

(** A grid of one row: a brick and an empty tile. *)
Definition gridBrickEmpty : AStar.Grid := [ [1; 0] ].

(** A path with one turn, and the path of the example of the
    documentation of [simplifyPath]. *)
Definition pathTurn : list AStar.waypoint :=
  [waypointAt 0 0; waypointAt 1 0; waypointAt 1 1].

Definition pathDoc : list AStar.waypoint :=
  [waypointAt 0 0; waypointAt 1 0; waypointAt 2 0; waypointAt 2 1;
   waypointAt 2 2].

(** A stand-in for [Phaser.Math.Distance.Between] that is exact on two
    points of a row or of a column. *)
Definition axisDistance (x1 y1 x2 y2 : Q) : Q :=
  (Qabs (x1 - x2) + Qabs (y1 - y2))%Q.

(** A scene without terrain in which the player stands at (400, 400). *)
Definition scenePlayer : AIBlackboard.Scene :=
  AIBlackboard.mkScene 1000 None None None
    (Some (AIBlackboard.mkPlayer false 400 400 None (Some "down")
             (Some 1%float) (Some 3%float))).

(** A board on which the player is known and ["e1"] has taken a slot. *)
Definition board_flanking : AIBlackboard.t :=
  (AIBlackboard.calculateFlankingPosition axisDistance scenePlayer "e1"
     (AIBlackboard.mkPos 100 100)
     (AIBlackboard.update axisDistance scenePlayer (λ _, 0%Q)
        AIBlackboard.new)).2.

(** A controller with trivial handlers, 400 units from the player. *)
Definition idleState : StateMachine.State unit unit :=
  {| StateMachine.enter := None;
     StateMachine.update := None;
     StateMachine.exit := None |}.

Definition controller : EnemyAI.t unit :=
  (EnemyAI.new idleState idleState idleState idleState
     (EnemyAI.mkTank 100 100 3 3 "BASIC") tt).1.

Definition playerAt (px py : Q) : EnemyAI.Entity :=
  EnemyAI.mkEntity px py (Some false).

End Examples.

(** * Properties of the state machine *)

Section MachineFacts.
Context {Ctx Arg : Type}.
Implicit Types (m : StateMachine.t Ctx Arg) (w : Ctx) (name : string).

(** A call for an unregistered name changes nothing. *)
Lemma setState_unregistered name args m w :
  StateMachine.states m !! name = None →
  StateMachine.setState name args m w = (false, m, w).
Proof. intros H. unfold StateMachine.setState. by rewrite H. Qed.

(** A call for the state the machine is in changes nothing. *)
Lemma setState_same name args m w :
  StateMachine.currentState m = Some name →
  StateMachine.setState name args m w = (false, m, w).
Proof.
  intros H. unfold StateMachine.setState.
  destruct (StateMachine.states m !! name); [|done].
  by rewrite decide_True.
Qed.

(** What a call does when it switches. *)
Lemma setState_switch name args m w st :
  StateMachine.states m !! name = Some st →
  StateMachine.currentState m ≠ Some name →
  StateMachine.setState name args m w =
    (true,
     StateMachine.mk (StateMachine.states m) (Some name)
                     (StateMachine.currentState m),
     StateMachine.run_enter st args (StateMachine.run_exit m w)).
Proof.
  intros H Hne. unfold StateMachine.setState. rewrite H.
  by rewrite decide_False.
Qed.

(** After a call for a registered name the machine is in that state,
    whatever the call returned. *)
Lemma setState_current name args m w :
  is_Some (StateMachine.states m !! name) →
  StateMachine.currentState (StateMachine.setState name args m w).1.2
  = Some name.
Proof.
  intros [st H]. unfold StateMachine.setState. rewrite H.
  by destruct (decide _).
Qed.

(** No call changes the registered states. *)
Lemma setState_states name args m w :
  StateMachine.states (StateMachine.setState name args m w).1.2
  = StateMachine.states m.
Proof.
  unfold StateMachine.setState.
  destruct (StateMachine.states m !! name); [|done].
  by destruct (decide _).
Qed.

(** The current state stays a registered one. *)
Lemma setState_current_registered name args m w :
  StateMachine.current_registered m →
  StateMachine.current_registered (StateMachine.setState name args m w).1.2.
Proof.
  intros Hm. unfold StateMachine.setState.
  destruct (StateMachine.states m !! name) as [st|] eqn:H; [|done].
  destruct (decide _); [done|].
  intros c [= <-]. simpl. by rewrite H.
Qed.

Lemma addState_current_registered name st m :
  StateMachine.current_registered m →
  StateMachine.current_registered (StateMachine.addState name st m).
Proof.
  intros Hm c Hc. simpl in *. destruct (decide (name = c)) as [->|Hne].
  - rewrite lookup_insert_eq. eauto.
  - rewrite lookup_insert_ne by done. by apply Hm.
Qed.

(** The second of two calls for the same registered name returns [false]
    and leaves the machine and the world as they are. *)
Lemma setState_twice name args args' m w w' :
  is_Some (StateMachine.states m !! name) →
  let m1 := (StateMachine.setState name args m w).1.2 in
  StateMachine.setState name args' m1 w' = (false, m1, w').
Proof.
  intros H m1. apply setState_same. by apply setState_current.
Qed.

(** Leaving a state whose name is not the empty string runs its [exit]
    handler first and the [enter] handler of the new state on the
    result. *)
Lemma setState_exit_then_enter name args m w c sc sn :
  StateMachine.currentState m = Some c →
  c ≠ EmptyString →
  c ≠ name →
  StateMachine.states m !! c = Some sc →
  StateMachine.states m !! name = Some sn →
  (StateMachine.setState name args m w).2 =
    StateMachine.run_enter sn args
      (match StateMachine.exit sc with Some f => f w | None => w end).
Proof.
  intros Hc Hne Hcn Hsc Hsn.
  rewrite (setState_switch _ _ _ _ sn) by (done || congruence).
  simpl. unfold StateMachine.run_exit. rewrite Hc, Hsc. simpl.
  destruct (String.eqb_spec c EmptyString); [done|]. done.
Qed.

End MachineFacts.

(** On [machine_ab], the second [setState("a")] returns [false] and logs
    nothing. *)
Lemma machine_ab_setState_twice :
  let '(r1, m1, log1) := StateMachine.setState "a" [] Examples.machine_ab [] in
  r1 = true ∧ log1 = ["enter:a"] ∧
  StateMachine.setState "a" [] m1 log1 = (false, m1, log1).
Proof. vm_compute. done. Qed.

(** Switching from ['a'] to ['b'] logs the exit of ['a'] before the entry
    of ['b']. *)
Lemma machine_ab_exit_before_enter :
  let '(_, m1, log1) := StateMachine.setState "a" [] Examples.machine_ab [] in
  (StateMachine.setState "b" [] m1 log1).2 = ["enter:a"; "exit:a"; "enter:b"].
Proof. vm_compute. done. Qed.

(** C6: a machine that is in the registered state named by the empty
    string switches to ['b'] (the call returns [true]) without running the
    [exit] handler of the state it leaves: the test
    [this.currentState && ...] takes the empty name for no state. *)
Theorem setState_skips_exit_of_empty_name :
  StateMachine.currentState Examples.machine_in_empty = Some EmptyString ∧
  (∃ st, StateMachine.states Examples.machine_in_empty !! EmptyString = Some st ∧
         is_Some (StateMachine.exit st)) ∧
  ∃ m', StateMachine.setState "b" [] Examples.machine_in_empty ["enter:"]
        = (true, m', ["enter:"; "enter:b"]) ∧
        StateMachine.currentState m' = Some "b" ∧
        StateMachine.previousState m' = Some EmptyString.
Proof.
  split; [done|]. split.
  - exists (Examples.logState EmptyString). split; [|by eexists].
    unfold Examples.machine_in_empty, Examples.machine_empty_b. simpl.
    by vm_compute.
  - eexists. split; [|split].
    + unfold Examples.machine_in_empty, Examples.machine_empty_b.
      vm_compute. reflexivity.
    + done.
    + done.
Qed.

(** * Properties of the blackboard *)

(** The two counters of [assignTarget] are the numbers of agents assigned
    ['player'] and ['base']. *)
Lemma targetCounts_spec (targets : gmap string string) :
  AIBlackboard.targetCounts targets =
    (AIBlackboard.playerAssigned targets, AIBlackboard.baseAssigned targets).
Proof.
  unfold AIBlackboard.targetCounts, AIBlackboard.playerAssigned,
    AIBlackboard.baseAssigned.
  apply (map_fold_weak_ind
           (λ r m, r = (size (filter (λ kv : string * string, kv.2 = "player") m),
                        size (filter (λ kv : string * string, kv.2 = "base") m)))).
  - by rewrite !map_filter_empty, !map_size_empty.
  - intros i x m r Hi ->. unfold AIBlackboard.countTarget. simpl.
    destruct (String.eqb_spec x "player") as [->|Hp].
    + rewrite map_filter_insert_True by done.
      rewrite map_size_insert_None by (by rewrite map_lookup_filter_None; left).
      rewrite map_filter_insert_False by done.
      by rewrite delete_id.
    + destruct (String.eqb_spec x "base") as [->|Hb].
      * rewrite (map_filter_insert_False (λ kv : string * string, kv.2 = "player"))
          by done.
        rewrite map_filter_insert_True by done.
        rewrite map_size_insert_None by (by rewrite map_lookup_filter_None; left).
        by rewrite delete_id.
      * rewrite !map_filter_insert_False by done. by rewrite delete_id.
Qed.

(** No agent is assigned ['base'] exactly when the counter is zero. *)
Lemma baseAssigned_zero (targets : gmap string string) :
  AIBlackboard.baseAssigned targets = 0%nat ↔
  ∀ enemyId, targets !! enemyId ≠ Some "base".
Proof.
  unfold AIBlackboard.baseAssigned. rewrite map_size_empty_iff.
  rewrite map_empty_filter. split.
  - intros H i Hi. by apply (H i "base").
  - intros H i x Hi Hx. simpl in Hx. subst x. by apply (H i).
Qed.

(** C3: [assignTarget] returns ['base'] when at least two agents are
    assigned ['player'] and none ['base'], and the requested preference in
    every other case; what it returns is what it records for the agent. *)
Theorem assignTarget_balances (enemyId preferredTarget : string)
  (b : AIBlackboard.t) :
  let targets := AIBlackboard.assignedTargets b in
  let r := AIBlackboard.assignTarget enemyId preferredTarget b in
  r.1 = (if decide ((2 ≤ AIBlackboard.playerAssigned targets)%nat ∧
                    AIBlackboard.baseAssigned targets = 0%nat)
         then "base" else preferredTarget) ∧
  AIBlackboard.assignedTargets r.2 !! enemyId = Some r.1.
Proof.
  intros targets r. subst r. unfold AIBlackboard.assignTarget.
  rewrite targetCounts_spec. fold targets. cbn [fst snd].
  cbn [AIBlackboard.assignedTargets AIBlackboard.with_assignedTargets].
  rewrite lookup_insert_eq. split; [|done].
  destruct (2 <=? AIBlackboard.playerAssigned targets)%nat eqn:E1;
    destruct (AIBlackboard.baseAssigned targets =? 0)%nat eqn:E2;
    cbn [andb];
    [apply Nat.leb_le in E1; apply Nat.eqb_eq in E2
    |apply Nat.leb_le in E1; apply Nat.eqb_neq in E2
    |apply Nat.leb_gt in E1; apply Nat.eqb_eq in E2
    |apply Nat.leb_gt in E1; apply Nat.eqb_neq in E2];
    destruct (decide _) as [[H2 H0]|Hn]; try done; try lia.
Qed.

(** C5: after [removeTargetAssignment(enemyId)] none of the five
    collections holds an entry for [enemyId], and the entries of every
    other agent are as before. *)
Theorem removeTargetAssignment_purges (enemyId : string) (b : AIBlackboard.t) :
  let b' := AIBlackboard.removeTargetAssignment enemyId b in
  (AIBlackboard.assignedTargets b' !! enemyId = None ∧
   AIBlackboard.flankingPositions b' !! enemyId = None ∧
   AIBlackboard.assignedPatrolPoints b' !! enemyId = None ∧
   AIBlackboard.enemyPositions b' !! enemyId = None ∧
   enemyId ∉ AIBlackboard.attackingEnemies b') ∧
  ∀ other, other ≠ enemyId →
    AIBlackboard.assignedTargets b' !! other
      = AIBlackboard.assignedTargets b !! other ∧
    AIBlackboard.flankingPositions b' !! other
      = AIBlackboard.flankingPositions b !! other ∧
    AIBlackboard.assignedPatrolPoints b' !! other
      = AIBlackboard.assignedPatrolPoints b !! other ∧
    AIBlackboard.enemyPositions b' !! other
      = AIBlackboard.enemyPositions b !! other ∧
    (other ∈ AIBlackboard.attackingEnemies b'
       ↔ other ∈ AIBlackboard.attackingEnemies b).
Proof.
  simpl. split.
  - rewrite !lookup_delete_eq. repeat split.
    rewrite elem_of_difference, elem_of_singleton. tauto.
  - intros other Hne. rewrite !lookup_delete_ne by done.
    repeat split; try rewrite elem_of_difference, elem_of_singleton; tauto.
Qed.

(** On a board that holds entries for two agents, removing the first
    leaves no slot for it and keeps the slot of the second. *)
Lemma removeTargetAssignment_purges_witness :
  let b' := AIBlackboard.removeTargetAssignment "e1" Examples.board_full in
  AIBlackboard.flankingPositions b' !! "e1" = None ∧
  AIBlackboard.flankingPositions b' !! "e2"
    = AIBlackboard.flankingPositions Examples.board_full !! "e2".
Proof.
  pose proof (removeTargetAssignment_purges "e1" Examples.board_full)
    as [(_ & H1 & _) H2].
  split; [exact H1|].
  destruct (H2 "e2") as (_ & H & _); [discriminate|exact H].
Defined.

(** On doubles, [a < b] gives [a <= b]. *)
Lemma double_ltb_leb (a b : float) :
  (a <? b)%float = true → (a <=? b)%float = true.
Proof.
  rewrite ltb_spec, leb_spec. unfold SFltb, SFleb.
  by destruct (SFcompare _ _) as [[]|].
Qed.

(** The clamp of [calculateThreatLevel] keeps every double other than
    [NaN] in [0, 100], and keeps [NaN] as it is. *)
Lemma clamp_bounds (threat : float) :
  let r := JS.Math_min 100 (JS.Math_max 0 threat) in
  if PrimFloat.is_nan threat then r = PrimFloat.nan
  else (0 <=? r)%float = true ∧ (r <=? 100)%float = true.
Proof.
  unfold JS.Math_min, JS.Math_max.
  replace (PrimFloat.is_nan 0) with false by reflexivity.
  replace (PrimFloat.is_nan 100) with false by reflexivity.
  replace (PrimFloat.classify 0) with PZero by reflexivity.
  replace (PrimFloat.classify 100) with PNormal by reflexivity.
  cbn [orb]. destruct (PrimFloat.is_nan threat) eqn:Hnan; [reflexivity|].
  cbn zeta. destruct (0 <? threat)%float eqn:Hpos.
  - rewrite Hnan. destruct (threat <? 100)%float eqn:Hlt.
    + split; by apply double_ltb_leb.
    + by split.
  - by split.
Qed.

(** After [calculateThreatLevel] the stored level is within [0, 100]
    unless it is [NaN]. *)
Lemma calculateThreatLevel_bounded_or_NaN (player : option AIBlackboard.Player)
  (b : AIBlackboard.t) :
  let level :=
    AIBlackboard.threatLevel (AIBlackboard.calculateThreatLevel player b) in
  PrimFloat.is_nan level = true ∨
  ((0 <=? level)%float = true ∧ (level <=? 100)%float = true).
Proof.
  unfold AIBlackboard.calculateThreatLevel.
  destruct player as [p|]; [|by right].
  destruct (AIBlackboard.isDestroyed p); [by right|].
  cbn [AIBlackboard.threatLevel AIBlackboard.with_threatLevel].
  cbv zeta.
  match goal with
  | |- context [JS.Math_max 0 ?threat] =>
      pose proof (clamp_bounds threat) as H;
      destruct (PrimFloat.is_nan threat)
  end.
  - left. cbv zeta in H. by rewrite H.
  - by right.
Qed.

(** Without a player, or with a destroyed one, the stored level is 0. *)
Lemma calculateThreatLevel_no_player (b : AIBlackboard.t) :
  AIBlackboard.threatLevel (AIBlackboard.calculateThreatLevel None b)
  = 0%float ∧
  ∀ p, AIBlackboard.isDestroyed p = true →
       AIBlackboard.threatLevel
         (AIBlackboard.calculateThreatLevel (Some p) b) = 0%float.
Proof.
  split; [done|]. intros p Hp. unfold AIBlackboard.calculateThreatLevel.
  by rewrite Hp.
Qed.

(** With a star level of 1, 3 lives and no agent known, the level is
    50 + 10 + 15 + 20. *)
Lemma calculateThreatLevel_example :
  AIBlackboard.threatLevel
    (AIBlackboard.calculateThreatLevel
       (Some (AIBlackboard.mkPlayer false 400 400 None (Some "down")
                (Some 1%float) (Some 3%float)))
       AIBlackboard.new)
  = 95%float.
Proof. reflexivity. Qed.

(** C9: the stored threat level is documented as a number from 0 to 100,
    and [calculateThreatLevel] clamps the sum with [Math.min] and
    [Math.max], yet for a star level of 2^1023 and -2^1023 lives the two
    terms are the infinities of opposite sign, their sum is [NaN], the
    clamp keeps [NaN], and the stored level is neither at least 0 nor at
    most 100. *)
Theorem calculateThreatLevel_NaN_escapes_clamp :
  let player :=
    AIBlackboard.mkPlayer false 400 400 None (Some "down")
      (Some 0x1p+1023%float) (Some (- 0x1p+1023)%float) in
  let level :=
    AIBlackboard.threatLevel
      (AIBlackboard.calculateThreatLevel (Some player) AIBlackboard.new) in
  PrimFloat.is_nan level = true ∧
  (0 <=? level)%float = false ∧ (level <=? 100)%float = false.
Proof. by vm_compute. Qed.

Section FlankingSlots.
Context (Distance_Between : Q → Q → Q → Q → Q).

(** [calculateFlankingPosition] writes at most the slot of its agent. *)
Lemma calculateFlankingPosition_effect scene enemyId enemyPos b :
  let r := AIBlackboard.calculateFlankingPosition Distance_Between scene
             enemyId enemyPos b in
  match r.1 with
  | Some p =>
      r.2 = AIBlackboard.with_flankingPositions
              (<[enemyId := p]> (AIBlackboard.flankingPositions b)) b
  | None => r.2 = b
  end.
Proof.
  unfold AIBlackboard.calculateFlankingPosition.
  destruct (AIBlackboard.playerLastKnownPosition b); [|done].
  destruct (List.find _ _); [done|].
  destruct (List.find _ _); done.
Qed.

(** One call keeps the configuration and the bound on the slots. *)
Lemma step_flanking_bound b b' :
  AIBlackboard.step Distance_Between b b' →
  (size (AIBlackboard.flankingPositions b)
     ≤ AIBlackboard.maxFlankingEnemies (AIBlackboard.config b))%nat →
  AIBlackboard.config b' = AIBlackboard.config b ∧
  (size (AIBlackboard.flankingPositions b')
     ≤ AIBlackboard.maxFlankingEnemies (AIBlackboard.config b))%nat.
Proof.
  intros Hstep Hle. destruct Hstep; try (split; [reflexivity|exact Hle]).
  - unfold AIBlackboard.updatePlayerInfo.
    destruct player as [p|]; [|done]. by destruct (AIBlackboard.isDestroyed p).
  - unfold AIBlackboard.assignTarget.
    by destruct (AIBlackboard.targetCounts _).
  - split; [done|]. simpl. rewrite map_size_delete.
    destruct (_ !! _); simpl; lia.
  - pose proof (calculateFlankingPosition_effect scene enemyId enemyPos b) as E.
    simpl in E. unfold AIBlackboard.canJoinFlanking in H.
    apply Nat.ltb_lt in H.
    destruct (AIBlackboard.calculateFlankingPosition _ _ _ _ _) as [[p|] b2];
      simpl in *; subst b2; [|done].
    split; [done|]. simpl. rewrite map_size_insert.
    destruct (_ !! _); simpl; lia.
  - split; [done|]. simpl. rewrite map_size_delete.
    destruct (_ !! _); simpl; lia.
  - unfold AIBlackboard.assignPatrolPoint.
    destruct (foldl _ _ _) as [draws [[[? ?] ?]|]]; done.
  - unfold AIBlackboard.getNextPatrolPoint. by destruct (_ !! _).
  - unfold AIBlackboard.calculateThreatLevel.
    destruct player as [p|]; [|done]. by destruct (AIBlackboard.isDestroyed p).
  - split; [done|]. simpl. rewrite map_size_empty. lia.
  - unfold AIBlackboard.update.
    assert (∀ b0, AIBlackboard.config (AIBlackboard._validatePatrolPoints
               Distance_Between scene random b0) = AIBlackboard.config b0 ∧
             AIBlackboard.flankingPositions (AIBlackboard._validatePatrolPoints
               Distance_Between scene random b0) = AIBlackboard.flankingPositions b0)
      as Hv.
    { intros b0. unfold AIBlackboard._validatePatrolPoints.
      destruct (negb _); [done|]. destruct (AIBlackboard.levelData_map scene); [|done].
      by destruct (_ <? _)%nat. }
    destruct (Hv b) as [Hc Hf].
    destruct (AIBlackboard.patrolPointsNeedValidation b);
      destruct (AIBlackboard.scene_player scene) as [p|]; simpl;
      try destruct (AIBlackboard.isDestroyed p) eqn:Ed; simpl;
      rewrite ?Ed; simpl; rewrite ?Hc, ?Hf; done.
Qed.

(** C4: in every state that a blackboard reaches from its construction
    by calls in which [calculateFlankingPosition] only follows a
    [canJoinFlanking()] that answered [true], the flanking map holds at
    most [maxFlankingEnemies] entries, and [maxFlankingEnemies] is 2. *)
Theorem flanking_slots_bounded (b : AIBlackboard.t) :
  AIBlackboard.reachable Distance_Between b →
  AIBlackboard.maxFlankingEnemies (AIBlackboard.config b) = 2%nat ∧
  (size (AIBlackboard.flankingPositions b)
     ≤ AIBlackboard.maxFlankingEnemies (AIBlackboard.config b))%nat.
Proof.
  induction 1 as [|b b' Hb [Hc IH] Hstep].
  - split; [done|]. simpl. rewrite map_size_empty. lia.
  - destruct (step_flanking_bound b b' Hstep IH) as [Hc' Hle].
    rewrite Hc'. by split.
Qed.

End FlankingSlots.

(** * Properties of the controller *)

Section ControllerFacts.
Context {Ctx : Type}.
Context (patrolState chaseState attackState retreatState
           : StateMachine.State Ctx unit).
Context (Distance_Between : Q → Q → Q → Q → Q).
Implicit Types (ai : EnemyAI.t Ctx) (w : Ctx).

(** [_initializeStates] registers the four states. *)
Lemma initializeStates_registered m name :
  name ∈ ["patrol"; "chase"; "attack"; "retreat"] →
  is_Some (StateMachine.states
             (EnemyAI._initializeStates patrolState chaseState attackState
                retreatState m) !! name).
Proof.
  intros Hin. unfold EnemyAI._initializeStates. simpl.
  repeat (apply elem_of_cons in Hin as [->|Hin]);
    [| | | |by apply elem_of_nil in Hin];
    repeat (rewrite lookup_insert_eq || rewrite lookup_insert_ne by done);
    eauto.
Qed.

(** A constructed controller has its four states and is in [patrol]. *)
Lemma new_registered tk w :
  let ai := (EnemyAI.new patrolState chaseState attackState retreatState tk w).1 in
  EnemyAI.states_registered ai ∧
  StateMachine.currentState (EnemyAI.stateMachine ai) = Some "patrol".
Proof.
  unfold EnemyAI.new.
  pose proof (setState_states "patrol" ([] : list unit)
    (EnemyAI._initializeStates patrolState chaseState attackState retreatState
       StateMachine.new) w) as Hs.
  pose proof (setState_current "patrol" ([] : list unit)
    (EnemyAI._initializeStates patrolState chaseState attackState retreatState
       StateMachine.new) w) as Hc.
  destruct (StateMachine.setState _ _ _ _) as [[r m] w'].
  cbn [fst snd EnemyAI.stateMachine] in *.
  split.
  - intros name Hin. cbn [EnemyAI.stateMachine]. rewrite Hs.
    by apply initializeStates_registered.
  - apply Hc. apply initializeStates_registered. set_solver.
Qed.

(** [_selectTarget] leaves the state machine alone. *)
Lemma selectTarget_stateMachine random playerObj baseObj ai :
  EnemyAI.stateMachine (EnemyAI._selectTarget random playerObj baseObj ai)
  = EnemyAI.stateMachine ai.
Proof.
  unfold EnemyAI._selectTarget.
  repeat match goal with |- context [if ?c then _ else _] => destruct c end;
    reflexivity.
Qed.

(** A [setState] of the controller for one of its states puts it there. *)
Lemma enterState_current name ai w :
  is_Some (StateMachine.states (EnemyAI.stateMachine ai) !! name) →
  StateMachine.currentState
    (EnemyAI.stateMachine (EnemyAI.enterState name ai w).1) = Some name.
Proof.
  intros H. unfold EnemyAI.enterState.
  pose proof (setState_current name ([] : list unit) (EnemyAI.stateMachine ai) w H)
    as Hc.
  by destruct (StateMachine.setState _ _ _ _) as [[r m] w'].
Qed.

(** The states stay registered through an evaluation. *)
Lemma enterState_registered name ai w :
  EnemyAI.states_registered ai →
  EnemyAI.states_registered (EnemyAI.enterState name ai w).1.
Proof.
  intros H n Hn. unfold EnemyAI.enterState.
  pose proof (setState_states name ([] : list unit) (EnemyAI.stateMachine ai) w)
    as Hs.
  destruct (StateMachine.setState _ _ _ _) as [[r m] w']. simpl in *.
  rewrite Hs. by apply H.
Qed.

(** C1: when the target chosen at a re-evaluation is live, the state the
    controller is in after [_evaluateState] is the one that the priority
    table gives, read from the top: retreat when health / maxHealth is
    below the threshold and the target is the player; else attack when
    the distance is below the attack range; else chase when the distance
    is below the detection range or the target is the base; else
    patrol. *)
Theorem evaluateState_priority_table random playerObj baseObj ai w tk tg :
  EnemyAI.states_registered ai →
  let ai1 := EnemyAI._selectTarget random playerObj baseObj ai in
  EnemyAI.currentTarget ai1 = Some tk →
  EnemyAI.targetObject tk playerObj baseObj = Some tg →
  EnemyAI.isDestroyed tg ≠ Some true →
  let distance :=
    Distance_Between (EnemyAI.tank_x (EnemyAI.tank ai))
      (EnemyAI.tank_y (EnemyAI.tank ai))
      (EnemyAI.entity_x tg) (EnemyAI.entity_y tg) in
  StateMachine.currentState
    (EnemyAI.stateMachine
       (EnemyAI._evaluateState Distance_Between random playerObj baseObj ai w).1)
  = Some (EnemyAI.decisionTable
            (JS.div_lt (EnemyAI.health (EnemyAI.tank ai))
                       (EnemyAI.maxHealth (EnemyAI.tank ai))
                       (EnemyAI.retreatHealthPercent ai))
            (bool_decide (tk = EnemyAI.player))
            (JS.lt distance (EnemyAI.attackRange ai))
            (JS.lt distance (EnemyAI.detectionRange ai))
            (bool_decide (tk = EnemyAI.base))).
Proof.
  intros Hreg ai1 Htk Htg Hlive distance.
  assert (Hreg1 : EnemyAI.states_registered ai1).
  { intros n Hn. subst ai1. rewrite selectTarget_stateMachine. by apply Hreg. }
  assert (Hfields :
    EnemyAI.tank ai1 = EnemyAI.tank ai ∧
    EnemyAI.attackRange ai1 = EnemyAI.attackRange ai ∧
    EnemyAI.detectionRange ai1 = EnemyAI.detectionRange ai ∧
    EnemyAI.retreatHealthPercent ai1 = EnemyAI.retreatHealthPercent ai).
  { subst ai1. unfold EnemyAI._selectTarget.
    repeat match goal with |- context [if ?c then _ else _] => destruct c end;
      done. }
  destruct Hfields as (Ht & Ha & Hd & Hr).
  unfold EnemyAI._evaluateState. fold ai1. rewrite Htk, Htg.
  rewrite bool_decide_eq_false_2 by done.
  rewrite Ht, Ha, Hd, Hr. fold distance.
  unfold EnemyAI.decisionTable.
  destruct (JS.div_lt _ _ _ && bool_decide (tk = EnemyAI.player));
    [apply enterState_current, Hreg1; set_solver|].
  destruct (JS.lt distance (EnemyAI.attackRange ai));
    [apply enterState_current, Hreg1; set_solver|].
  destruct (JS.lt distance (EnemyAI.detectionRange ai) ||
            bool_decide (tk = EnemyAI.base));
    apply enterState_current, Hreg1; set_solver.
Qed.

End ControllerFacts.

(** * Properties of the path search *)

Import AStar.

(** ** Nodes *)

Lemma lineage_last n : last (lineage n) = Some n.
Proof.
  destruct n as [cx cy cg ch cf [p|]]; simpl; [|done].
  by rewrite last_snoc.
Qed.

Lemma lineage_child cx cy cg ch cf p :
  lineage (Node cx cy cg ch cf (Some p))
  = lineage p ++ [Node cx cy cg ch cf (Some p)].
Proof. done. Qed.

(** The loop of [reconstructPath] puts the waypoints of the lineage in
    front of the path. *)
Lemma unshiftAll_lineage tileSize n path :
  unshiftAll tileSize n path = (toWaypoint tileSize <$> lineage n) ++ path.
Proof.
  revert path. induction n as [cx cy cg ch cf|cx cy cg ch cf p IH]
    using node_parent_ind; intros path; simpl; [done|].
  rewrite IH. rewrite fmap_app. by rewrite <- app_assoc.
Qed.

Lemma reconstructPath_lineage tileSize n :
  reconstructPath n tileSize = drop 1 (toWaypoint tileSize <$> lineage n).
Proof.
  unfold reconstructPath. by rewrite unshiftAll_lineage, app_nil_r.
Qed.

Lemma waypoint_cell_toWaypoint tileSize n :
  waypoint_cell (toWaypoint tileSize n) = node_cell n.
Proof. done. Qed.

(** ** The heuristic *)

Lemma heuristic_sym a b : heuristic a b = heuristic b a.
Proof. unfold heuristic. lia. Qed.

Lemma heuristic_nonneg a b : 0 ≤ heuristic a b.
Proof. unfold heuristic. lia. Qed.

Lemma heuristic_zero a b : heuristic a b = 0 ↔ a = b.
Proof.
  unfold heuristic. destruct a as [ax ay], b as [bx by']. simpl. split.
  - intros H. f_equal; lia.
  - intros [= -> ->]. lia.
Qed.

Lemma heuristic_triangle a b c : heuristic a c ≤ heuristic a b + heuristic b c.
Proof. unfold heuristic. lia. Qed.

(** ** The grid *)

Lemma isWalkable_valid c map : isWalkable c map = true → isValidNode c map = true.
Proof. unfold isWalkable. by destruct (isValidNode c map). Qed.

Lemma isWalkable_tile c map :
  isWalkable c map = true ↔
  isValidNode c map = true ∧ ∃ tile, tileAt c map = Some tile ∧ walkableTile tile.
Proof.
  unfold isWalkable, walkableTile, Constants.EMPTY, Constants.ICE,
    Constants.FOREST, Constants.BASE.
  destruct (isValidNode c map); simpl;
    [|split; [done|by intros [? _]]].
  destruct (tileAt c map) as [tile|];
    [|split; [done|by intros [_ (? & ? & _)]]].
  split.
  - intros H. split; [done|]. exists tile. split; [done|]. lia.
  - intros [_ (tile' & [= <-] & H)]. lia.
Qed.

Lemma elem_of_getNeighbors nb c map :
  nb ∈ getNeighbors c map ↔ adjacent c nb ∧ isWalkable nb map = true.
Proof.
  unfold getNeighbors, adjacent, directions. rewrite list_elem_of_filter.
  rewrite list_elem_of_fmap. split.
  - intros [Hw (dir & -> & Hdir)]. split; [|done].
    unfold heuristic. simpl.
    repeat (apply elem_of_cons in Hdir as [->|Hdir]); simpl; try lia.
    by apply elem_of_nil in Hdir.
  - intros [Hadj Hw]. split; [done|].
    exists (nb.1 - c.1, nb.2 - c.2). split.
    + destruct nb; simpl. f_equal; lia.
    + unfold heuristic in Hadj. destruct nb as [bx by'], c as [cx cy].
      simpl in *.
      assert ((bx - cx = 0 ∧ by' - cy = -1) ∨ (bx - cx = 0 ∧ by' - cy = 1) ∨
              (bx - cx = -1 ∧ by' - cy = 0) ∨ (bx - cx = 1 ∧ by' - cy = 0))
        as [[-> ->]|[[-> ->]|[[-> ->]|[-> ->]]]] by lia; set_solver.
Qed.

Lemma elem_of_gridCells c map :
  isValidNode c map = true → c ∈ gridCells map.
Proof.
  unfold isValidNode, gridCells. intros H.
  apply andb_prop in H as [H H4]. apply andb_prop in H as [H H3].
  apply andb_prop in H as [H1 H2].
  apply list_elem_of_bind. exists (Z.to_nat c.2). split.
  - apply list_elem_of_fmap. exists (Z.to_nat c.1). split.
    + destruct c as [cx cy]. simpl in *. f_equal; lia.
    + apply elem_of_seq. lia.
  - apply elem_of_seq. lia.
Qed.

Lemma length_gridCells map :
  length (gridCells map) = (length (nth 0 map []) * length map)%nat.
Proof.
  unfold gridCells. generalize (length (nth 0 map [])) as w. intros w.
  assert (∀ h s,
    length (seq s h ≫= λ y : nat,
              (λ x : nat, (Z.of_nat x, Z.of_nat y)) <$> seq 0 w)
    = (w * h)%nat) as H; [|apply H].
  induction h as [|h IH]; intros s; simpl; [lia|].
  rewrite length_app, length_fmap, length_seq, IH. lia.
Qed.

(** A set of valid cells has at most as many elements as the grid has
    cells. *)
Lemma size_valid_cells (closedList : gset cell) map :
  (∀ c, c ∈ closedList → isValidNode c map = true) →
  (size closedList ≤ length (nth 0 map []) * length map)%nat.
Proof.
  intros H. rewrite <- length_gridCells.
  unfold size, set_size. simpl. apply submseteq_length.
  apply NoDup_submseteq; [apply NoDup_elements|].
  intros c Hc. apply elem_of_gridCells, H. by apply elem_of_elements.
Qed.

(** ** The scan for the node with the least [f] *)

Lemma scanMin_spec rest i currentIndex currentF :
  let r := scanMin rest i currentIndex currentF in
  (r = currentIndex ∧ ∀ n, n ∈ rest → currentF ≤ node_f n) ∨
  (∃ k n, r = (i + k)%nat ∧ rest !! k = Some n ∧ node_f n < currentF ∧
          ∀ n', n' ∈ rest → node_f n ≤ node_f n').
Proof.
  revert i currentIndex currentF.
  induction rest as [|n0 rest IH]; intros i currentIndex currentF; simpl.
  - left. split; [done|]. intros n Hn. by apply elem_of_nil in Hn.
  - destruct (Z.ltb_spec (node_f n0) currentF) as [Hlt|Hge].
    + destruct (IH (S i) i (node_f n0)) as [[-> Hall]|(k & n & -> & Hk & Hn & Hall)].
      * right. exists 0%nat, n0. split; [lia|]. split; [done|]. split; [done|].
        intros n' Hn'. apply elem_of_cons in Hn' as [->|Hn']; [lia|by apply Hall].
      * right. exists (S k), n. split; [lia|]. split; [done|]. split; [lia|].
        intros n' Hn'. apply elem_of_cons in Hn' as [->|Hn']; [lia|by apply Hall].
    + destruct (IH (S i) currentIndex currentF)
        as [[-> Hall]|(k & n & -> & Hk & Hn & Hall)].
      * left. split; [done|].
        intros n' Hn'. apply elem_of_cons in Hn' as [->|Hn']; [lia|by apply Hall].
      * right. exists (S k), n. split; [lia|]. split; [done|]. split; [lia|].
        intros n' Hn'. apply elem_of_cons in Hn' as [->|Hn']; [lia|by apply Hall].
Qed.

(** On a non-empty open list the scan ends on a node whose [f] is the
    least. *)
Lemma minIndex_spec openList :
  openList ≠ [] →
  ∃ current, openList !! minIndex openList = Some current ∧
             ∀ n, n ∈ openList → node_f current ≤ node_f n.
Proof.
  destruct openList as [|n0 rest]; [done|]. intros _. unfold minIndex.
  destruct (scanMin_spec rest 1 0 (node_f n0))
    as [[-> Hall]|(k & n & -> & Hk & Hn & Hall)].
  - exists n0. split; [done|]. intros n Hn.
    apply elem_of_cons in Hn as [->|Hn]; [lia|by apply Hall].
  - exists n. split; [done|]. intros n' Hn'.
    apply elem_of_cons in Hn' as [->|Hn']; [lia|by apply Hall].
Qed.

Lemma minIndex_nil : ([] : list node) !! minIndex [] = None.
Proof. done. Qed.

(** Taking the node at [i] out of the list. *)
Lemma delete_split (openList : list node) i current :
  openList !! i = Some current →
  ∃ before after, openList = before ++ current :: after ∧
                  delete i openList = before ++ after.
Proof.
  intros H. exists (take i openList), (drop (S i) openList). split.
  - by rewrite take_drop_middle.
  - apply delete_take_drop.
Qed.

(** ** Walks *)

Lemma walk_snoc map c cs nb :
  walk map c cs →
  (∀ c', last (c :: cs) = Some c' → nb ∈ getNeighbors c' map) →
  walk map c (cs ++ [nb]).
Proof.
  revert c. induction cs as [|c1 cs IH]; intros c Hw Hnb; simpl in *.
  - split; [|done]. by apply Hnb.
  - destruct Hw as [H1 Hw]. split; [done|]. apply IH; [done|].
    intros c' Hc'. apply Hnb. by destruct cs.
Qed.

(** A walk of [k] steps covers a Manhattan distance of at most [k]. *)
Lemma walk_heuristic map c cs c' :
  walk map c cs → last (c :: cs) = Some c' →
  heuristic c c' ≤ Z.of_nat (length cs).
Proof.
  revert c. induction cs as [|c1 cs IH]; intros c Hw Hl.
  - simpl in Hl. injection Hl as ->. simpl.
    assert (heuristic c' c' = 0) by by apply heuristic_zero. lia.
  - destruct Hw as [H1 Hw]. apply elem_of_getNeighbors in H1 as [Hadj _].
    unfold adjacent in Hadj.
    assert (last (c1 :: cs) = Some c') as Hl' by by destruct cs.
    specialize (IH c1 Hw Hl').
    pose proof (heuristic_triangle c c1 c'). simpl length. lia.
Qed.

(** Every cell of a walk is walkable and adjacent to the one before. *)
Lemma walk_walkable map c cs c' :
  walk map c cs → c' ∈ cs → isWalkable c' map = true.
Proof.
  revert c. induction cs as [|c1 cs IH]; intros c Hw Hin.
  - by apply elem_of_nil in Hin.
  - destruct Hw as [H1 Hw]. apply elem_of_cons in Hin as [->|Hin].
    + by apply elem_of_getNeighbors in H1 as [_ ?].
    + by apply (IH c1).
Qed.

Lemma walk_adjacent map c cs i a b :
  walk map c cs → (c :: cs) !! i = Some a → (c :: cs) !! S i = Some b →
  adjacent a b.
Proof.
  revert c i. induction cs as [|c1 cs IH]; intros c i Hw Ha Hb.
  - by destruct i.
  - destruct Hw as [H1 Hw]. destruct i as [|i].
    + simpl in Ha, Hb. injection Ha as ->. injection Hb as ->.
      by apply elem_of_getNeighbors in H1 as [? _].
    + by apply (IH c1 i).
Qed.

(** ** Finding and rewriting a node of the open list *)

Lemma sameCell_spec c n : sameCell c n = true ↔ node_cell n = c.
Proof.
  unfold sameCell, node_cell. destruct c as [cx cy]. simpl.
  rewrite andb_true_iff, !Z.eqb_eq. split; [by intros [-> ->]|by intros [= -> ->]].
Qed.

Lemma findNode_Some c openList e :
  findNode c openList = Some e → e ∈ openList ∧ node_cell e = c.
Proof.
  unfold findNode. intros H. apply find_some in H as [Hin Hc].
  split; [by apply list_elem_of_In|by apply sameCell_spec].
Qed.

Lemma findNode_None c openList :
  findNode c openList = None → c ∉ node_cell <$> openList.
Proof.
  unfold findNode. intros H Hin. apply list_elem_of_fmap in Hin as (n & -> & Hn).
  apply list_elem_of_In in Hn.
  pose proof (find_none _ _ H n Hn) as Hf.
  assert (sameCell (node_cell n) n = true) by by apply sameCell_spec.
  congruence.
Qed.

Lemma updateNode_cells c gScore current openList :
  node_cell <$> updateNode c gScore current openList = node_cell <$> openList.
Proof.
  induction openList as [|n rest IH]; [done|]. cbn [updateNode].
  destruct (sameCell c n); rewrite !fmap_cons; [done|]. by rewrite IH.
Qed.

Lemma elem_of_updateNode c gScore current openList n' :
  n' ∈ updateNode c gScore current openList →
  n' ∈ openList ∨
  ∃ n, n ∈ openList ∧ node_cell n = c ∧
       n' = Node (node_x n) (node_y n) gScore (node_h n) (gScore + node_h n)
                 (Some current).
Proof.
  induction openList as [|n rest IH]; simpl; [by left|].
  destruct (sameCell c n) eqn:E.
  - intros H. apply elem_of_cons in H as [->|H].
    + right. exists n. split; [by left|]. split; [by apply sameCell_spec|done].
    + left. by right.
  - intros H. apply elem_of_cons in H as [->|H]; [left; by left|].
    destruct (IH H) as [?|(n0 & ? & ? & ?)]; [left; by right|].
    right. exists n0. split; [by right|done].
Qed.

(** The rewritten list has, on every cell, a node that costs no more,
    and on the rewritten cell a node at the new cost. *)
Lemma updateNode_covers c gScore current openList e :
  findNode c openList = Some e → gScore < node_g e →
  covers openList (updateNode c gScore current openList) ∧
  ∃ n', n' ∈ updateNode c gScore current openList ∧ node_cell n' = c ∧
        node_g n' = gScore.
Proof.
  unfold findNode, covers.
  induction openList as [|n rest IH]; simpl; [done|].
  destruct (sameCell c n) eqn:E.
  - intros [= ->] Hlt. apply sameCell_spec in E. split.
    + intros n Hn. apply elem_of_cons in Hn as [->|Hn].
      * eexists. split; [by left|]. simpl. split; [|lia].
        by destruct e.
      * exists n. split; [by right|]. split; [done|lia].
    + eexists. split; [by left|]. split; [|done]. rewrite <- E. by destruct e.
  - intros Hf Hlt. destruct (IH Hf Hlt) as [Hcov (n' & Hn' & Hc & Hg)]. split.
    + intros n0 Hn0. apply elem_of_cons in Hn0 as [->|Hn0].
      * exists n. split; [by left|]. split; [done|lia].
      * destruct (Hcov n0 Hn0) as (n1 & ? & ? & ?).
        exists n1. split; [by right|done].
    + exists n'. split; [by right|done].
Qed.

Lemma covers_refl openList : covers openList openList.
Proof. intros n Hn. exists n. split; [done|]. split; [done|lia]. Qed.

Lemma covers_trans l1 l2 l3 : covers l1 l2 → covers l2 l3 → covers l1 l3.
Proof.
  intros H12 H23 n Hn. destruct (H12 n Hn) as (n2 & Hn2 & Hc2 & Hg2).
  destruct (H23 n2 Hn2) as (n3 & Hn3 & Hc3 & Hg3).
  exists n3. split; [done|]. split; [congruence|lia].
Qed.

Lemma covers_app openList extra : covers openList (openList ++ extra).
Proof.
  intros n Hn. exists n. split; [apply elem_of_app; by left|].
  split; [done|lia].
Qed.

(** ** One neighbour *)

Section Visit.
Context (map : Grid) (startNode goalNode : cell).
Context (closedList1 : gset cell) (current : node).

Lemma trail_last n : last (trail n) = Some (node_cell n).
Proof. unfold trail. by rewrite fmap_last, lineage_last. Qed.

(** The node made for a neighbour of [current] is a node of the
    search. *)
Lemma nodeOk_child nb hh :
  nodeOk map startNode goalNode current →
  nb ∈ getNeighbors (node_cell current) map →
  nb ≠ startNode →
  hh = heuristic nb goalNode →
  nodeOk map startNode goalNode
    (Node nb.1 nb.2 (node_g current + 1) hh (node_g current + 1 + hh)
          (Some current)).
Proof.
  intros [(rest & Ht & Hw & Hg & Hs) [Hh Hf]] Hnb Hne ->.
  split; [|split; [by destruct nb|done]].
  exists (rest ++ [nb]). split; [|split; [|split]].
  - unfold trail in *. rewrite lineage_child, fmap_app, Ht. by destruct nb.
  - apply walk_snoc; [done|]. intros c' Hc'.
    rewrite <- Ht, trail_last in Hc'. by injection Hc' as <-.
  - rewrite length_app. simpl. lia.
  - intros Hin. apply elem_of_app in Hin as [?|Hin]; [done|].
    apply list_elem_of_singleton in Hin. congruence.
Qed.

(** Where the nodes of the list come from after a visit. *)
Lemma visitNeighbor_elem openList nb n' :
  n' ∈ visitNeighbor goalNode closedList1 current openList nb →
  n' ∈ openList ∨
  ((nb ∉ closedList1) ∧
   ∃ hh, n' = Node nb.1 nb.2 (node_g current + 1) hh
                   (node_g current + 1 + hh) (Some current) ∧
         (hh = heuristic nb goalNode ∨
          ∃ n, n ∈ openList ∧ node_cell n = nb ∧ node_h n = hh)).
Proof.
  unfold visitNeighbor. case_bool_decide as Hc; [by left|].
  destruct (findNode nb openList) as [e|] eqn:Hf.
  - destruct (Z.ltb_spec (node_g current + 1) (node_g e)); [|by left].
    intros H'. apply elem_of_updateNode in H' as [?|(n & Hn & Hcn & ->)];
      [by left|].
    right. split; [done|]. exists (node_h n). split.
    + rewrite <- Hcn. done.
    + right. by exists n.
  - intros H'. apply elem_of_app in H' as [?|H']; [by left|].
    apply list_elem_of_singleton in H' as ->. right. split; [done|].
    eexists. split; [done|by left].
Qed.

Lemma visitNeighbor_cells openList nb :
  node_cell <$> visitNeighbor goalNode closedList1 current openList nb
    = node_cell <$> openList ∨
  ((nb ∉ node_cell <$> openList) ∧
   node_cell <$> visitNeighbor goalNode closedList1 current openList nb
     = (node_cell <$> openList) ++ [nb]).
Proof.
  unfold visitNeighbor. case_bool_decide as Hc; [by left|].
  destruct (findNode nb openList) as [e|] eqn:Hf.
  - destruct (Z.ltb_spec (node_g current + 1) (node_g e)); [|by left].
    left. apply updateNode_cells.
  - right. split; [by apply findNode_None|].
    rewrite fmap_app. by destruct nb.
Qed.

(** A visit keeps the open list well formed. *)
Lemma visitNeighbor_openOk openList nb :
  startNode ∈ closedList1 →
  nodeOk map startNode goalNode current →
  (∀ p, p ∈ lineage current → node_cell p ∈ closedList1) →
  nb ∈ getNeighbors (node_cell current) map →
  openOk map startNode goalNode closedList1 openList →
  openOk map startNode goalNode closedList1
    (visitNeighbor goalNode closedList1 current openList nb).
Proof.
  intros Hs Hcur Hlin Hnb [Hnd Hall]. split.
  - destruct (visitNeighbor_cells openList nb) as [->|[Hnin ->]]; [done|].
    apply NoDup_app. split; [done|]. split; [|apply NoDup_singleton].
    intros c Hc Hc'. apply list_elem_of_singleton in Hc'. by subst c.
  - intros n' Hn'.
    apply visitNeighbor_elem in Hn' as [?|(Hc & hh & -> & Hh)]; [by apply Hall|].
    assert (hh = heuristic nb goalNode) as ->.
    { destruct Hh as [?|(n & Hn & Hcn & <-)]; [done|].
      destruct (Hall n Hn) as (_ & (_ & Hhn & _) & _). by rewrite Hhn, Hcn. }
    assert (node_cell (Node nb.1 nb.2 (node_g current + 1)
              (heuristic nb goalNode)
              (node_g current + 1 + heuristic nb goalNode) (Some current)) = nb)
      as Hcell by by destruct nb.
    rewrite Hcell. split; [done|]. split; [|split].
    + apply nodeOk_child; [done|done| |done]. intros ->. done.
    + apply elem_of_getNeighbors in Hnb as [_ Hw]. by apply isWalkable_valid.
    + intros p Hp. rewrite lineage_child in Hp.
      apply elem_of_app in Hp as [Hp|Hp]; [right; by apply Hlin|].
      left. by apply list_elem_of_singleton in Hp.
Qed.

(** After a visit every cell that had a node has one that costs no
    more. *)
Lemma visitNeighbor_covers openList nb :
  covers openList (visitNeighbor goalNode closedList1 current openList nb).
Proof.
  unfold visitNeighbor. case_bool_decide as Hc; [apply covers_refl|].
  destruct (findNode nb openList) as [e|] eqn:Hf.
  - destruct (Z.ltb_spec (node_g current + 1) (node_g e)); [|apply covers_refl].
    by apply (updateNode_covers nb _ current openList e).
  - apply covers_app.
Qed.

(** After its visit a neighbour that is not closed has a node that costs
    at most one more than [current]. *)
Lemma visitNeighbor_visited openList nb :
  nb ∉ closedList1 →
  ∃ n', n' ∈ visitNeighbor goalNode closedList1 current openList nb ∧
        node_cell n' = nb ∧ node_g n' ≤ node_g current + 1.
Proof.
  intros Hc. unfold visitNeighbor. rewrite bool_decide_eq_false_2 by done.
  destruct (findNode nb openList) as [e|] eqn:Hf.
  - destruct (Z.ltb_spec (node_g current + 1) (node_g e)) as [Hlt|Hge].
    + destruct (updateNode_covers nb _ current openList e Hf Hlt)
        as [_ (n' & Hn' & Hcn & Hg)].
      exists n'. split; [done|]. split; [done|lia].
    + apply findNode_Some in Hf as [He Hce]. by exists e.
  - eexists. split; [apply elem_of_app; right; by apply list_elem_of_singleton|].
    split; [by destruct nb|simpl; lia].
Qed.

(** ** All the neighbours of [current] *)

Lemma foldl_visit_openOk nbs openList :
  startNode ∈ closedList1 →
  nodeOk map startNode goalNode current →
  (∀ p, p ∈ lineage current → node_cell p ∈ closedList1) →
  (∀ nb, nb ∈ nbs → nb ∈ getNeighbors (node_cell current) map) →
  openOk map startNode goalNode closedList1 openList →
  openOk map startNode goalNode closedList1
    (foldl (visitNeighbor goalNode closedList1 current) openList nbs).
Proof.
  intros Hs Hcur Hlin. revert openList.
  induction nbs as [|nb nbs IH]; intros openList Hnbs Hok; simpl; [done|].
  apply IH; [intros; apply Hnbs; by right|].
  apply visitNeighbor_openOk; [done|done|done| |done]. apply Hnbs. by left.
Qed.

Lemma foldl_visit_covers nbs openList :
  covers openList (foldl (visitNeighbor goalNode closedList1 current) openList nbs).
Proof.
  revert openList. induction nbs as [|nb nbs IH]; intros openList; simpl;
    [apply covers_refl|].
  eapply covers_trans; [apply visitNeighbor_covers|apply IH].
Qed.

Lemma foldl_visit_visited nbs openList nb :
  nb ∈ nbs → nb ∉ closedList1 →
  ∃ n', n' ∈ foldl (visitNeighbor goalNode closedList1 current) openList nbs ∧
        node_cell n' = nb ∧ node_g n' ≤ node_g current + 1.
Proof.
  revert openList. induction nbs as [|nb0 nbs IH]; intros openList Hin Hc.
  - by apply elem_of_nil in Hin.
  - simpl. apply elem_of_cons in Hin as [->|Hin]; [|by apply IH].
    destruct (visitNeighbor_visited openList nb0 Hc) as (n1 & Hn1 & Hc1 & Hg1).
    destruct (foldl_visit_covers nbs _ n1 Hn1) as (n2 & Hn2 & Hc2 & Hg2).
    exists n2. split; [done|]. split; [congruence|lia].
Qed.

Lemma foldl_visit_elem nbs openList n' :
  openOk map startNode goalNode closedList1 openList →
  startNode ∈ closedList1 →
  nodeOk map startNode goalNode current →
  (∀ p, p ∈ lineage current → node_cell p ∈ closedList1) →
  (∀ nb, nb ∈ nbs → nb ∈ getNeighbors (node_cell current) map) →
  n' ∈ foldl (visitNeighbor goalNode closedList1 current) openList nbs →
  n' ∈ openList ∨
  ∃ nb, nb ∈ nbs ∧ node_cell n' = nb ∧ node_g n' = node_g current + 1.
Proof.
  intros Hok Hs Hcur Hlin. revert openList Hok.
  induction nbs as [|nb nbs IH]; intros openList Hok Hnbs Hn'; simpl in *;
    [by left|].
  destruct (IH (visitNeighbor goalNode closedList1 current openList nb))
    as [H1|(nb1 & Hnb1 & Hc1 & Hg1)].
  - apply visitNeighbor_openOk; [done|done|done| |done]. apply Hnbs. by left.
  - intros; apply Hnbs; by right.
  - done.
  - apply visitNeighbor_elem in H1 as [?|(_ & hh & -> & _)]; [by left|].
    right. exists nb. split; [by left|]. split; [by destruct nb|done].
  - right. exists nb1. split; [by right|done].
Qed.

End Visit.

(** ** One iteration of the loop *)

Section Iteration.
Context (map : Grid) (startNode goalNode : cell).

Lemma search_S fuel openList closedList :
  search (S fuel) map goalNode openList closedList =
  match openList !! minIndex openList with
  | None => Some None
  | Some current =>
      if sameCell goalNode current then Some (Some current)
      else
        let closedList1 := closedList ∪ {[node_cell current]} in
        search fuel map goalNode
          (expand map goalNode closedList1 current
                  (delete (minIndex openList) openList))
          closedList1
  end.
Proof. done. Qed.

(** The loop starts in a good state. *)
Lemma loopOk_start :
  isValidNode startNode map = true →
  loopOk map startNode goalNode [startPathNode startNode goalNode] ∅.
Proof.
  intros Hv. split; [|split; [|by right]].
  - split; [apply NoDup_singleton|].
    intros n Hn. apply list_elem_of_singleton in Hn as ->.
    split; [apply not_elem_of_empty|]. split; [|split].
    + split; [|split; [by destruct startNode|done]].
      exists []. unfold trail. simpl. split; [by destruct startNode|].
      split; [done|]. split; [done|apply not_elem_of_nil].
    + by destruct startNode.
    + intros p Hp. left. by apply list_elem_of_singleton in Hp.
  - intros c Hc. by apply not_elem_of_empty in Hc.
Qed.

(** An iteration that goes on closes a cell that was open and leaves
    the loop in a good state. *)
Lemma loopOk_step openList closedList current :
  loopOk map startNode goalNode openList closedList →
  openList !! minIndex openList = Some current →
  let closedList1 := closedList ∪ {[node_cell current]} in
  (node_cell current ∉ closedList) ∧
  nodeOk map startNode goalNode current ∧
  (∀ p, p ∈ lineage current → node_cell p ∈ closedList1) ∧
  startNode ∈ closedList1 ∧
  openOk map startNode goalNode closedList1 (delete (minIndex openList) openList) ∧
  loopOk map startNode goalNode
    (expand map goalNode closedList1 current
            (delete (minIndex openList) openList))
    closedList1.
Proof.
  intros [[Hnd Hall] [Hval Hstart]] Hcur closedList1.
  assert (current ∈ openList) as Hin by (by eapply list_elem_of_lookup_2).
  destruct (Hall current Hin) as (Hnc & Hok & Hv & Hpc).
  assert (∀ p, p ∈ lineage current → node_cell p ∈ closedList1) as Hlin.
  { intros p Hp. subst closedList1. apply elem_of_union.
    destruct (Hpc p Hp) as [->|?]; [right; by apply elem_of_singleton|by left]. }
  destruct (delete_split _ _ _ Hcur) as (before & after & Ho & Ho1).
  assert (startNode ∈ closedList1) as Hs1.
  { subst closedList1. apply elem_of_union.
    destruct Hstart as [?| ->]; [by left|]. right.
    simpl in Hcur. injection Hcur as <-. destruct startNode.
    by apply elem_of_singleton. }
  assert (openOk map startNode goalNode closedList1
            (delete (minIndex openList) openList)) as Hok1.
  { rewrite Ho1. rewrite Ho, fmap_app, fmap_cons in Hnd.
    apply NoDup_app in Hnd as (Hb & Hba & Ha).
    apply NoDup_cons in Ha as [Hca Ha]. split.
    - rewrite fmap_app. apply NoDup_app. split; [done|]. split; [|done].
      intros c Hc Hc'. apply (Hba c Hc). by right.
    - intros n Hn. assert (n ∈ openList) as Hn'.
      { rewrite Ho. apply elem_of_app in Hn as [?|?]; apply elem_of_app;
          [by left|right; by right]. }
      destruct (Hall n Hn') as (? & ? & ? & Hpn). split; [|split; [done|split]].
      + subst closedList1. intros Hc.
        apply elem_of_union in Hc as [?|Hc]; [done|].
        apply elem_of_singleton in Hc.
        apply elem_of_app in Hn as [Hn|Hn].
        * apply (Hba (node_cell n)); [apply list_elem_of_fmap; by exists n|].
          rewrite Hc. by left.
        * apply Hca. rewrite <- Hc. apply list_elem_of_fmap. by exists n.
      + done.
      + intros p Hp. destruct (Hpn p Hp) as [?|?]; [by left|].
        right. subst closedList1. apply elem_of_union. by left. }
  split; [done|]. split; [done|]. split; [done|]. split; [done|].
  split; [done|].
  split; [|split; [|by left]].
  - unfold expand. by apply foldl_visit_openOk.
  - intros c Hc. subst closedList1. apply elem_of_union in Hc as [?|Hc];
      [by apply Hval|]. apply elem_of_singleton in Hc. by subst c.
Qed.

(** ** The loop as a whole *)

Section Rule.
Context (I : list node → gset cell → Prop).
Hypothesis I_ok :
  ∀ openList closedList,
    I openList closedList → loopOk map startNode goalNode openList closedList.
Hypothesis I_step :
  ∀ openList closedList current, I openList closedList →
    openList !! minIndex openList = Some current →
    node_cell current ≠ goalNode →
    I (expand map goalNode (closedList ∪ {[node_cell current]}) current
              (delete (minIndex openList) openList))
      (closedList ∪ {[node_cell current]}).

(** With fuel for every cell that is not closed yet, and one more, the
    loop ends: on an empty open list, or on a node of the goal cell that
    has the least [f] of the open list; the state it ends in is a state
    of [I]. *)
Lemma search_rule fuel openList closedList :
  I openList closedList →
  (length (nth 0 map []) * length map < size closedList + fuel)%nat →
  ∃ r, search fuel map goalNode openList closedList = Some r ∧
       match r with
       | None => ∃ closedList', I [] closedList'
       | Some n =>
           ∃ openList' closedList',
             I openList' closedList' ∧ n ∈ openList' ∧
             (∀ n', n' ∈ openList' → node_f n ≤ node_f n') ∧
             node_cell n = goalNode
       end.
Proof.
  revert openList closedList.
  induction fuel as [|fuel IH]; intros openList closedList HI Hfuel.
  - pose proof (I_ok _ _ HI) as (_ & Hval & _).
    pose proof (size_valid_cells closedList map Hval). lia.
  - rewrite search_S. destruct openList as [|n0 rest] eqn:Eo.
    + exists None. split; [done|]. by exists closedList.
    + rewrite <- Eo in *.
      destruct (minIndex_spec openList) as (current & Hcur & Hmin);
        [by rewrite Eo|].
      rewrite Hcur. destruct (sameCell goalNode current) eqn:Eg.
      * exists (Some current). split; [done|].
        exists openList, closedList. split; [done|].
        split; [by eapply list_elem_of_lookup_2|]. split; [done|].
        by apply sameCell_spec.
      * assert (node_cell current ≠ goalNode) as Hne.
        { intros Hc. apply sameCell_spec in Hc. congruence. }
        pose proof (I_ok _ _ HI) as Hok.
        destruct (loopOk_step _ _ _ Hok Hcur) as (Hnc & _).
        apply IH; [by apply I_step|].
        rewrite size_union, size_singleton; [lia|].
        intros c Hc Hc'. apply elem_of_singleton in Hc'. by subst c.
Qed.

End Rule.

(** The loop always ends, and a node it ends on is a node of the search
    on the goal cell. *)
Lemma search_total :
  isValidNode startNode map = true →
  ∃ r, search (searchBound map) map goalNode
         [startPathNode startNode goalNode] ∅ = Some r ∧
       match r with
       | None => True
       | Some n => nodeOk map startNode goalNode n ∧ node_cell n = goalNode
       end.
Proof.
  intros Hv.
  destruct (search_rule (loopOk map startNode goalNode)) with
    (fuel := searchBound map) (openList := [startPathNode startNode goalNode])
    (closedList := (∅ : gset cell)) as (r & Hr & Hpost).
  - done.
  - intros o c cur Ho Hcur _.
    by destruct (loopOk_step _ _ _ Ho Hcur) as (_&_&_&_&_&?).
  - by apply loopOk_start.
  - unfold searchBound. rewrite size_empty. lia.
  - exists r. split; [done|]. destruct r as [n|]; [|done].
    destruct Hpost as (o' & c' & [[_ Hall] _] & Hn & _ & Hg).
    split; [|done]. by destruct (Hall n Hn) as (_ & ? & _).
Qed.

(** More fuel does not change an answer. *)
Lemma search_fuel_mono fuel fuel' openList closedList r :
  search fuel map goalNode openList closedList = Some r →
  (fuel ≤ fuel')%nat →
  search fuel' map goalNode openList closedList = Some r.
Proof.
  revert fuel' openList closedList.
  induction fuel as [|fuel IH]; intros fuel' openList closedList Hs Hle;
    [done|].
  destruct fuel' as [|fuel']; [lia|].
  rewrite search_S in *. destruct (openList !! minIndex openList); [|done].
  destruct (sameCell goalNode n); [done|].
  apply IH; [done|lia].
Qed.

End Iteration.

(** ** The search along a direct walk *)

Section Direct.
Context (map : Grid) (startNode goalNode : cell).

(** While the goal is not closed, some open node on the direct walk has
    an [f] of at most the Manhattan distance. *)
Lemma direct_frontier openList closedList c cs :
  loopOk map startNode goalNode openList closedList →
  directOk map startNode goalNode openList closedList →
  directWalk map goalNode c cs →
  (c ∈ closedList ∨
   ∃ n, n ∈ openList ∧ node_cell n = c ∧
        node_g n + heuristic c goalNode ≤ heuristic startNode goalNode) →
  ∃ n, n ∈ openList ∧ node_f n ≤ heuristic startNode goalNode.
Proof.
  intros [[_ Hall] _] (_ & Hnbs & Hgoal & _). revert c.
  assert (∀ c, (∃ n, n ∈ openList ∧ node_cell n = c ∧
             node_g n + heuristic c goalNode ≤ heuristic startNode goalNode) →
           ∃ n, n ∈ openList ∧ node_f n ≤ heuristic startNode goalNode) as Hopen.
  { intros c (n & Hn & Hc & Hg). exists n. split; [done|].
    destruct (Hall n Hn) as (_ & (_ & Hh & Hf) & _). rewrite Hf, Hh, Hc. done. }
  induction cs as [|c1 cs IH]; intros c Hw [Hc|Hc]; try by apply (Hopen c).
  - simpl in Hw. by subst c.
  - destruct Hw as (Hnb & Hh & Hw). apply (IH c1 Hw).
    destruct (Hnbs c c1 Hc Hnb) as [?|(n & Hn & Hcn & Hg)]; [by left|].
    right. exists n. split; [done|]. split; [done|]. lia.
Qed.

(** An iteration that goes on keeps the state of the direct search. *)
Lemma directOk_step openList closedList current cs :
  directWalk map goalNode startNode cs →
  loopOk map startNode goalNode openList closedList →
  directOk map startNode goalNode openList closedList →
  openList !! minIndex openList = Some current →
  node_cell current ≠ goalNode →
  directOk map startNode goalNode
    (expand map goalNode (closedList ∪ {[node_cell current]}) current
            (delete (minIndex openList) openList))
    (closedList ∪ {[node_cell current]}).
Proof.
  intros Hwalk Hok Hd Hcur Hne.
  destruct (loopOk_step _ _ _ _ _ _ Hok Hcur)
    as (Hnc & Hcok & Hlin & Hs1 & Hok1 & Hok').
  pose proof Hd as (Hf & Hnbs & Hgoal & Hstart).
  set (D := heuristic startNode goalNode) in *.
  set (closedList1 := closedList ∪ {[node_cell current]}) in *.
  set (openList1 := delete (minIndex openList) openList) in *.
  assert (current ∈ openList) as Hin by (by eapply list_elem_of_lookup_2).
  (* the node taken has an f of D *)
  assert (node_f current = D) as HfD.
  { destruct (direct_frontier openList closedList startNode cs Hok Hd Hwalk)
      as (n & Hn & Hfn).
    - destruct Hstart as [?|(n & Hn & Hc & Hg)]; [by left|].
      right. exists n. split; [done|]. split; [done|]. fold D. lia.
    - destruct (minIndex_spec openList) as (cur' & Hcur' & Hmin);
        [by intros ->|].
      rewrite Hcur in Hcur'. injection Hcur' as <-.
      specialize (Hmin n Hn). specialize (Hf current Hin). fold D in Hfn. lia. }
  pose proof Hcok as (_ & Hh & Hfg).
  (* what is left of the open list is part of it *)
  assert (∀ n, n ∈ openList → n = current ∨ n ∈ openList1) as Hsplit.
  { destruct (delete_split _ _ _ Hcur) as (before & after & Ho & Ho1).
    intros n Hn. subst openList1. rewrite Ho1. rewrite Ho in Hn.
    apply elem_of_app in Hn as [?|Hn]; [right; apply elem_of_app; by left|].
    apply elem_of_cons in Hn as [?|?]; [by left|].
    right; apply elem_of_app; by right. }
  assert (∀ n, n ∈ openList1 → n ∈ openList) as Hsub.
  { destruct (delete_split _ _ _ Hcur) as (before & after & Ho & Ho1).
    intros n Hn. subst openList1. rewrite Ho1 in Hn. rewrite Ho.
    apply elem_of_app in Hn as [?|?]; apply elem_of_app; [by left|].
    right. by right. }
  pose proof (foldl_visit_covers goalNode closedList1 current
                (getNeighbors (node_cell current) map) openList1) as Hcov.
  fold (expand map goalNode closedList1 current openList1) in Hcov.
  split; [|split; [|split]].
  - intros n' Hn'.
    destruct (foldl_visit_elem map startNode goalNode closedList1 current
                (getNeighbors (node_cell current) map) openList1 n')
      as [Hold|(nb & Hnb & Hc & Hg)]; try done.
    + apply Hf. by apply Hsub.
    + destruct Hok' as [[_ Hall'] _].
      destruct (Hall' n' Hn') as (_ & (_ & Hh' & Hf') & _).
      apply elem_of_getNeighbors in Hnb as [Hadj _]. unfold adjacent in Hadj.
      pose proof (heuristic_triangle (node_cell current) nb goalNode).
      rewrite Hf', Hh', Hc, Hg. lia.
  - intros c nb Hc Hnb. subst closedList1.
    apply elem_of_union in Hc as [Hc|Hc].
    + destruct (Hnbs c nb Hc Hnb) as [?|(n & Hn & Hcn & Hg)];
        [left; apply elem_of_union; by left|].
      destruct (Hsplit n Hn) as [->|Hn1].
      * left. apply elem_of_union. right. by apply elem_of_singleton.
      * right. destruct (Hcov n Hn1) as (n' & Hn' & Hc' & Hg').
        exists n'. split; [done|]. split; [congruence|]. fold D. lia.
    + apply elem_of_singleton in Hc. subst c.
      destruct (decide (nb ∈ closedList ∪ {[node_cell current]})) as [?|Hncl];
        [by left|].
      right.
      destruct (foldl_visit_visited goalNode _ current
                  (getNeighbors (node_cell current) map) openList1 nb Hnb Hncl)
        as (n' & Hn' & Hc' & Hg').
      exists n'. split; [done|]. split; [done|]. fold D. lia.
  - subst closedList1. intros Hc. apply elem_of_union in Hc as [?|Hc]; [done|].
    apply elem_of_singleton in Hc. congruence.
  - destruct Hstart as [?|(n & Hn & Hc & Hg)];
      [left; apply elem_of_union; by left|].
    destruct (Hsplit n Hn) as [->|Hn1].
    + left. apply elem_of_union. right. by apply elem_of_singleton.
    + right. destruct (Hcov n Hn1) as (n' & Hn' & Hc' & Hg').
      exists n'. split; [done|]. split; [congruence|lia].
Qed.

Lemma directOk_start :
  directOk map startNode goalNode [startPathNode startNode goalNode] ∅.
Proof.
  split; [|split; [|split]].
  - intros n Hn. apply list_elem_of_singleton in Hn as ->. simpl. lia.
  - intros c nb Hc. by apply not_elem_of_empty in Hc.
  - apply not_elem_of_empty.
  - right. eexists. split; [by apply list_elem_of_singleton|].
    split; [by destruct startNode|done].
Qed.

(** When a direct walk leads from the start to the goal, the loop ends
    on a node of the goal cell whose cost is the Manhattan distance. *)
Lemma search_direct cs :
  isValidNode startNode map = true →
  directWalk map goalNode startNode cs →
  ∃ n, search (searchBound map) map goalNode
         [startPathNode startNode goalNode] ∅ = Some (Some n) ∧
       nodeOk map startNode goalNode n ∧ node_cell n = goalNode ∧
       node_g n = heuristic startNode goalNode.
Proof.
  intros Hv Hwalk.
  destruct (search_rule map startNode goalNode
              (λ o c, loopOk map startNode goalNode o c ∧
                      directOk map startNode goalNode o c))
    with (fuel := searchBound map)
         (openList := [startPathNode startNode goalNode])
         (closedList := (∅ : gset cell)) as (r & Hr & Hpost).
  - by intros o c [? _].
  - intros o c cur [Ho Hd] Hcur Hne. split.
    + by destruct (loopOk_step _ _ _ _ _ _ Ho Hcur) as (_&_&_&_&_&?).
    + by eapply directOk_step.
  - split; [by apply loopOk_start|apply directOk_start].
  - unfold searchBound. rewrite size_empty. lia.
  - assert (∀ o c, loopOk map startNode goalNode o c →
                   directOk map startNode goalNode o c →
                   ∃ n, n ∈ o ∧ node_f n ≤ heuristic startNode goalNode) as Hfront.
    { intros o c Ho Hd.
      apply (direct_frontier o c startNode cs Ho Hd Hwalk).
      destruct Hd as (_ & _ & _ & [?|(n & Hn & Hc & Hg)]); [by left|].
      right. exists n. split; [done|]. split; [done|]. lia. }
    destruct r as [n|].
    + exists n. split; [done|].
      destruct Hpost as (o' & c' & [Ho Hd] & Hn & Hmin & Hg).
      pose proof Ho as [[_ Hall] _].
      destruct (Hall n Hn) as (_ & Hnok & _).
      split; [done|]. split; [done|].
      destruct (Hfront o' c' Ho Hd) as (n1 & Hn1 & Hf1).
      destruct Hd as (Hf & _). specialize (Hf n Hn). specialize (Hmin n1 Hn1).
      destruct Hnok as (_ & Hh & Hfg). rewrite Hg in Hh.
      assert (heuristic goalNode goalNode = 0) by by apply heuristic_zero.
      lia.
    + destruct Hpost as (c' & Ho & Hd).
      destruct (Hfront [] c' Ho Hd) as (n & Hn & _).
      by apply elem_of_nil in Hn.
Qed.

End Direct.

(** ** [findPath] *)

(** [findPath] on a grid that has a row and with a tile size that is not
    zero. *)
Lemma findPath_eq start goal map tileSize :
  Qeq_bool tileSize 0 = false → map ≠ [] →
  findPath start goal map tileSize =
    let startNode := cellOf start tileSize in
    let goalNode := cellOf goal tileSize in
    if negb (isValidNode startNode map) || negb (isValidNode goalNode map)
    then Some Null
    else
      match search (searchBound map) map goalNode
              [startPathNode startNode goalNode] ∅ with
      | None => None
      | Some None => Some Null
      | Some (Some current) => Some (Path (reconstructPath current tileSize))
      end.
Proof.
  intros Hts Hmap. unfold findPath, findPath_fuel. rewrite Hts.
  rewrite (bool_decide_eq_false_2 (map = [])) by done.
  by rewrite andb_false_r.
Qed.

(** [findPath] always comes to an answer. *)
Lemma findPath_total start goal map tileSize :
  ∃ r, findPath start goal map tileSize = Some r.
Proof.
  destruct (Qeq_bool tileSize 0) eqn:Hts.
  { unfold findPath, findPath_fuel. rewrite Hts. eexists; reflexivity. }
  destruct (decide (map = [])) as [->|Hmap].
  { unfold findPath, findPath_fuel. rewrite Hts.
    rewrite bool_decide_eq_true_2 by done. unfold isValidNode. cbn [fst snd].
    destruct (0 <=? toGrid (px start) tileSize); simpl; eexists; reflexivity. }
  rewrite findPath_eq by done. cbn zeta.
  destruct (isValidNode (cellOf start tileSize) map) eqn:Hs; cbn [negb orb];
    [|eexists; reflexivity].
  destruct (isValidNode (cellOf goal tileSize) map) eqn:Hg; cbn [negb orb];
    [|eexists; reflexivity].
  destruct (search_total map (cellOf start tileSize) (cellOf goal tileSize) Hs)
    as (r & -> & _).
  destruct r; eexists; reflexivity.
Qed.

(** The fuel of [findPath] is enough: with more, the answer is the
    same. *)
Lemma findPath_fuel_enough fuel start goal map tileSize r :
  findPath start goal map tileSize = Some r →
  (searchBound map ≤ fuel)%nat →
  findPath_fuel fuel start goal map tileSize = Some r.
Proof.
  unfold findPath, findPath_fuel. intros H Hle.
  destruct (Qeq_bool tileSize 0); [done|].
  destruct (_ && _); [done|]. destruct (_ || _); [done|].
  destruct (search (searchBound map) _ _ _ _) as [r'|] eqn:Hs; [|done].
  by rewrite (search_fuel_mono _ _ _ _ _ _ _ Hs Hle).
Qed.

(** A returned path is the lineage, less the start, of a node of the
    search on the goal cell. *)
Lemma findPath_Path start goal map tileSize path :
  findPath start goal map tileSize = Some (Path path) →
  let startNode := cellOf start tileSize in
  let goalNode := cellOf goal tileSize in
  isValidNode startNode map = true ∧ isValidNode goalNode map = true ∧
  ∃ n, nodeOk map startNode goalNode n ∧ node_cell n = goalNode ∧
       path = reconstructPath n tileSize.
Proof.
  intros H. cbn zeta.
  destruct (Qeq_bool tileSize 0) eqn:Hts.
  { unfold findPath, findPath_fuel in H. rewrite Hts in H.
    by destruct (_ && _). }
  destruct (decide (map = [])) as [->|Hmap].
  { unfold findPath, findPath_fuel in H. rewrite Hts in H.
    rewrite bool_decide_eq_true_2 in H by done.
    unfold isValidNode in H. cbn [fst snd] in H.
    by destruct (0 <=? toGrid (px start) tileSize). }
  rewrite findPath_eq in H by done. cbn zeta in H.
  destruct (isValidNode (cellOf start tileSize) map) eqn:Hs; [|done].
  destruct (isValidNode (cellOf goal tileSize) map) eqn:Hg; [|done].
  cbn [negb orb] in H. split; [done|]. split; [done|].
  destruct (search_total map (cellOf start tileSize) (cellOf goal tileSize) Hs)
    as (r & Hr & Hpost).
  rewrite Hr in H. destruct r as [n|]; [|done].
  injection H as <-. exists n. by destruct Hpost.
Qed.

(** The cells of the path rebuilt from a node of the search. *)
Lemma reconstructPath_cells map startNode goalNode n tileSize :
  nodeOk map startNode goalNode n →
  ∃ rest, waypoint_cell <$> reconstructPath n tileSize = rest ∧
          trail n = startNode :: rest ∧ walk map startNode rest ∧
          Z.of_nat (length rest) = node_g n ∧ startNode ∉ rest.
Proof.
  intros [(rest & Ht & Hw & Hg & Hs) _]. exists rest. split; [|done].
  rewrite reconstructPath_lineage, fmap_drop, <- list_fmap_compose.
  unfold trail in Ht.
  change (waypoint_cell ∘ toWaypoint tileSize) with node_cell.
  by rewrite Ht.
Qed.

(** A goal that can be reached and is not the start is walkable. *)
Lemma reachable_walkable map startNode goalNode :
  reachable map startNode goalNode →
  startNode = goalNode ∨ isWalkable goalNode map = true.
Proof.
  intros (cs & Hw & Hl). destruct cs as [|c cs _] using rev_ind.
  - left. simpl in Hl. congruence.
  - right. apply (walk_walkable map startNode (cs ++ [c])); [done|].
    rewrite app_comm_cons, last_snoc in Hl. injection Hl as ->.
    apply elem_of_app. right. by apply list_elem_of_singleton.
Qed.

(** A tile that blocks is not walkable. *)
Lemma blocking_not_walkable c map tile :
  tileAt c map = Some tile → blockingTile tile → isWalkable c map = false.
Proof.
  intros Ht Hb. unfold isWalkable. rewrite Ht.
  destruct (isValidNode c map); simpl; [|done].
  unfold blockingTile, Constants.BRICK, Constants.STEEL, Constants.WATER in Hb.
  lia.
Qed.

(** When the goal cannot be reached, [findPath] returns [null]. *)
Lemma findPath_unreachable start goal map tileSize :
  Qeq_bool tileSize 0 = false → map ≠ [] →
  ¬ reachable map (cellOf start tileSize) (cellOf goal tileSize) →
  findPath start goal map tileSize = Some Null.
Proof.
  intros Hts Hmap Hun.
  destruct (findPath_total start goal map tileSize) as (r & Hr).
  destruct r as [| |path]; [|done|].
  - rewrite findPath_eq in Hr by done. cbn zeta in Hr.
    destruct (_ || _); [done|].
    by destruct (search _ _ _ _ _) as [[?|]|].
  - destruct (findPath_Path _ _ _ _ _ Hr) as (_ & _ & n & Hok & Hc & _).
    destruct Hok as [(rest & Ht & Hw & _) _]. destruct Hun.
    exists rest. split; [done|]. by rewrite <- Ht, trail_last, Hc.
Qed.

(** ** Straight corridors *)

Lemma rowCorridor_directWalk map k a b :
  Z.of_nat k = Z.abs (a.1 - b.1) → rowCorridor map a b →
  ∃ cs, directWalk map b a cs.
Proof.
  revert a. induction k as [|k IH]; intros [ax ay] Hk [Hy Hrow]; simpl in *.
  - exists []. simpl. destruct b as [bx by']. simpl in *. f_equal; lia.
  - set (a' := (if ax <? b.1 then ax + 1 else ax - 1, ay)).
    destruct (IH a') as (cs & Hcs).
    + subst a'. simpl. destruct (Z.ltb_spec ax b.1); lia.
    + subst a'. split; [done|]. simpl. intros cx Hcx. apply Hrow.
      destruct (Z.ltb_spec ax b.1); lia.
    + exists (a' :: cs). simpl. split; [|split; [|done]].
      * apply elem_of_getNeighbors. split.
        -- subst a'. unfold adjacent, heuristic. simpl.
           destruct (Z.ltb_spec ax b.1); lia.
        -- subst a'. apply Hrow. destruct (Z.ltb_spec ax b.1); lia.
      * subst a'. unfold heuristic. simpl.
        destruct (Z.ltb_spec ax b.1); lia.
Qed.

Lemma columnCorridor_directWalk map k a b :
  Z.of_nat k = Z.abs (a.2 - b.2) → columnCorridor map a b →
  ∃ cs, directWalk map b a cs.
Proof.
  revert a. induction k as [|k IH]; intros [ax ay] Hk [Hx Hcol]; simpl in *.
  - exists []. simpl. destruct b as [bx by']. simpl in *. f_equal; lia.
  - set (a' := (ax, if ay <? b.2 then ay + 1 else ay - 1)).
    destruct (IH a') as (cs & Hcs).
    + subst a'. simpl. destruct (Z.ltb_spec ay b.2); lia.
    + subst a'. split; [done|]. simpl. intros cy Hcy. apply Hcol.
      destruct (Z.ltb_spec ay b.2); lia.
    + exists (a' :: cs). simpl. split; [|split; [|done]].
      * apply elem_of_getNeighbors. split.
        -- subst a'. unfold adjacent, heuristic. simpl.
           destruct (Z.ltb_spec ay b.2); lia.
        -- subst a'. apply Hcol. destruct (Z.ltb_spec ay b.2); lia.
      * subst a'. unfold heuristic. simpl.
        destruct (Z.ltb_spec ay b.2); lia.
Qed.

(** Along a straight corridor a direct walk leads to the goal. *)
Lemma straightCorridor_directWalk map startNode goalNode :
  straightCorridor map startNode goalNode →
  isWalkable startNode map = true ∧ isWalkable goalNode map = true ∧
  ∃ cs, directWalk map goalNode startNode cs.
Proof.
  intros [Hrow|Hcol].
  - split; [|split].
    + destruct Hrow as [_ H]. destruct startNode as [sx sy].
      apply (H sx). simpl. lia.
    + destruct Hrow as [Hy H]. destruct startNode as [sx sy], goalNode as [gx gy].
      simpl in *. subst gy. apply (H gx). lia.
    + apply (rowCorridor_directWalk map
               (Z.to_nat (Z.abs (startNode.1 - goalNode.1)))); [lia|done].
  - split; [|split].
    + destruct Hcol as [_ H]. destruct startNode as [sx sy].
      apply (H sy). simpl. lia.
    + destruct Hcol as [Hx H]. destruct startNode as [sx sy], goalNode as [gx gy].
      simpl in *. subst gx. apply (H gy). lia.
    + apply (columnCorridor_directWalk map
               (Z.to_nat (Z.abs (startNode.2 - goalNode.2)))); [lia|done].
Qed.

(** When a direct walk leads from the start cell to the goal cell,
    [findPath] returns a path of as many waypoints as the Manhattan
    distance between the two cells. *)
Lemma findPath_direct start goal map tileSize cs :
  Qeq_bool tileSize 0 = false →
  isValidNode (cellOf start tileSize) map = true →
  isValidNode (cellOf goal tileSize) map = true →
  directWalk map (cellOf goal tileSize) (cellOf start tileSize) cs →
  ∃ path, findPath start goal map tileSize = Some (Path path) ∧
          Z.of_nat (length path)
          = heuristic (cellOf start tileSize) (cellOf goal tileSize).
Proof.
  intros Hts Hs Hg Hwalk.
  assert (map ≠ []) as Hmap.
  { intros ->. unfold isValidNode in Hs. simpl in Hs.
    apply andb_prop in Hs as [Hs _]. apply andb_prop in Hs as [Hs _].
    apply andb_prop in Hs as [Hs0 Hs].
    apply Z.leb_le in Hs0. apply Z.ltb_lt in Hs. lia. }
  rewrite findPath_eq by done. cbn zeta. rewrite Hs, Hg. cbn [negb orb].
  destruct (search_direct map _ _ cs Hs Hwalk) as (n & -> & Hok & Hc & Hgn).
  eexists. split; [done|].
  destruct (reconstructPath_cells _ _ _ n tileSize Hok)
    as (rest & Hrest & _ & _ & Hlen & _).
  rewrite <- Hgn, <- Hlen, <- Hrest. by rewrite length_fmap.
Qed.

(** ** [findPath]: corridors, unreachable goals, endpoints, paths *)

Lemma Qeq_bool_false (q : Q) : ¬ (q == 0)%Q → Qeq_bool q 0 = false.
Proof.
  intros H. destruct (Qeq_bool q 0) eqn:E; [|done]. by apply Qeq_bool_iff in E.
Qed.

(** C2: with the start and goal cells on an obstacle-free straight
    corridor of walkable tiles, [findPath] returns a path of as many
    waypoints as the Manhattan distance between the two cells; when the
    goal cell cannot be reached from the start cell, it returns
    [null]. *)
Theorem findPath_corridor_or_none start goal map tileSize :
  ¬ (tileSize == 0)%Q →
  let startNode := cellOf start tileSize in
  let goalNode := cellOf goal tileSize in
  (straightCorridor map startNode goalNode →
   ∃ path, findPath start goal map tileSize = Some (Path path) ∧
           Z.of_nat (length path) = heuristic startNode goalNode) ∧
  (map ≠ [] → ¬ reachable map startNode goalNode →
   findPath start goal map tileSize = Some Null).
Proof.
  intros Hts startNode goalNode. apply Qeq_bool_false in Hts. split.
  - intros Hcor.
    destruct (straightCorridor_directWalk _ _ _ Hcor) as (Hs & Hg & cs & Hcs).
    apply (findPath_direct start goal map tileSize cs); try done;
      by apply isWalkable_valid.
  - intros Hmap Hun. by apply findPath_unreachable.
Qed.

(** C7, amended: [findPath] returns [null] when the start cell or the
    goal cell lies outside the grid, and when the goal cell is a blocking
    tile other than the start cell. *)
Theorem findPath_rejects_outside_and_blocked_goal start goal map tileSize :
  ¬ (tileSize == 0)%Q → map ≠ [] →
  let startNode := cellOf start tileSize in
  let goalNode := cellOf goal tileSize in
  isValidNode startNode map = false ∨ isValidNode goalNode map = false ∨
  (startNode ≠ goalNode ∧
   ∃ tile, tileAt goalNode map = Some tile ∧ blockingTile tile) →
  findPath start goal map tileSize = Some Null.
Proof.
  intros Hts Hmap startNode goalNode H. apply Qeq_bool_false in Hts.
  destruct H as [Hs|[Hg|(Hne & tile & Ht & Hb)]].
  - rewrite findPath_eq by done. cbn zeta. fold startNode. by rewrite Hs.
  - rewrite findPath_eq by done. cbn zeta. fold goalNode. rewrite Hg.
    by rewrite orb_true_r.
  - apply findPath_unreachable; [done|done|]. intros Hr.
    apply reachable_walkable in Hr as [?|Hw]; [done|].
    fold goalNode in Hw. by rewrite (blocking_not_walkable _ _ _ Ht Hb) in Hw.
Qed.

(** C7, counterexample: a blocking start cell is not rejected; from a
    start cell on a brick, [findPath] returns the path to the empty cell
    next to it. *)
Lemma findPath_blocked_start_not_rejected :
  ¬ ∀ start goal map tileSize,
      (∃ tile, blockingTile tile ∧
               (tileAt (cellOf start tileSize) map = Some tile ∨
                tileAt (cellOf goal tileSize) map = Some tile)) →
      findPath start goal map tileSize = Some Null.
Proof.
  intros H.
  specialize (H (Examples.centre 0 0) (Examples.centre 1 0)
                Examples.gridBrickEmpty 32%Q).
  assert (findPath (Examples.centre 0 0) (Examples.centre 1 0)
            Examples.gridBrickEmpty 32
          = Some (Path [Examples.waypointAt 1 0])) as E by by vm_compute.
  rewrite E in H. discriminate H.
  exists Constants.BRICK. split; [by left|]. left. by vm_compute.
Qed.


(** ** [simplifyPath] *)

(** The loop only appends to the list it is given. *)
Lemma simplifyLoop_prefix prev rest lastDirection simplified :
  ∃ more, simplifyLoop prev rest lastDirection simplified = simplified ++ more.
Proof.
  revert prev lastDirection simplified.
  induction rest as [|curr rest IH]; intros prev lastDirection simplified;
    simpl.
  - exists []. by rewrite app_nil_r.
  - case_bool_decide.
    + destruct (IH curr (Some (JS.sign (x curr - x prev), JS.sign (y curr - y prev)))
                  (simplified ++ [prev])) as (more & ->).
      exists (prev :: more). by rewrite <- app_assoc.
    + apply IH.
Qed.

(** [simplifyPath] keeps the first and the last waypoint of a path. *)
Lemma simplifyPath_ends path :
  head (simplifyPath path) = head path ∧ last (simplifyPath path) = last path.
Proof.
  unfold simplifyPath. destruct (length path <=? 2)%nat; [done|].
  destruct path as [|p0 rest]; [done|].
  destruct (last (p0 :: rest)) as [pn|] eqn:El; [|done].
  split; [|by rewrite last_snoc].
  destruct (simplifyLoop_prefix p0 rest None [p0]) as (more & ->). done.
Qed.

(** On a path of more than two waypoints the first waypoint comes out
    twice: the list starts with it and the first round of the loop, in
    which [lastDirection] is still [null], appends it again. *)
Lemma simplifyPath_first_twice p0 p1 p2 rest :
  ∃ more, simplifyPath (p0 :: p1 :: p2 :: rest) = p0 :: p0 :: more.
Proof.
  unfold simplifyPath. cbn [length Nat.leb].
  destruct (last (p0 :: p1 :: p2 :: rest)) as [pn|] eqn:El.
  - destruct (simplifyLoop_prefix p1 (p2 :: rest)
                (Some (JS.sign (x p1 - x p0), JS.sign (y p1 - y p0)))
                ([p0] ++ [p0])) as (more & Hm).
    exists (more ++ [pn]).
    change (simplifyLoop p0 (p1 :: p2 :: rest) None [p0])
      with (simplifyLoop p1 (p2 :: rest)
              (Some (JS.sign (x p1 - x p0), JS.sign (y p1 - y p0)))
              ([p0] ++ [p0])).
    rewrite Hm. reflexivity.
  - by apply last_None in El.
Qed.

(** C8: [simplifyPath] makes a path with one turn longer, four waypoints
    for three, and returns the path of its documentation with the first
    waypoint twice, four waypoints where the documentation shows
    three. *)
Theorem simplifyPath_duplicates_first :
  simplifyPath Examples.pathTurn =
    [Examples.waypointAt 0 0; Examples.waypointAt 0 0;
     Examples.waypointAt 1 0; Examples.waypointAt 1 1] ∧
  (length Examples.pathTurn < length (simplifyPath Examples.pathTurn))%nat ∧
  simplifyPath Examples.pathDoc =
    [Examples.waypointAt 0 0; Examples.waypointAt 0 0;
     Examples.waypointAt 2 0; Examples.waypointAt 2 2].
Proof. split; [|split]; by vm_compute. Qed.

(** * Instances *)

(** A controller at full health, 100 units from the player, goes to
    [attack]. *)
Lemma evaluateState_priority_table_witness :
  StateMachine.currentState
    (EnemyAI.stateMachine
       (EnemyAI._evaluateState Examples.axisDistance (λ _, 0%Q)
          (Some (Examples.playerAt 200 100)) None Examples.controller tt).1)
  = Some "attack".
Proof.
  apply (evaluateState_priority_table Examples.axisDistance (λ _, 0%Q)
           (Some (Examples.playerAt 200 100)) None Examples.controller tt
           EnemyAI.player (Examples.playerAt 200 100)).
  - apply new_registered.
  - reflexivity.
  - reflexivity.
  - discriminate.
Defined.

(** On [grid43]: two waypoints along the top row from column 0 to
    column 2, and [null] for the brick of column 3. *)
Lemma findPath_corridor_or_none_witness :
  (∃ path, findPath (Examples.centre 0 0) (Examples.centre 2 0)
             Examples.grid43 32 = Some (Path path) ∧
           Z.of_nat (length path) = 2) ∧
  findPath (Examples.centre 0 0) (Examples.centre 3 0) Examples.grid43 32
  = Some Null.
Proof.
  assert (¬ (32 == 0)%Q) as Hts by discriminate.
  pose proof (findPath_corridor_or_none (Examples.centre 0 0)
                (Examples.centre 2 0) Examples.grid43 32 Hts) as [H1 _].
  pose proof (findPath_corridor_or_none (Examples.centre 0 0)
                (Examples.centre 3 0) Examples.grid43 32 Hts) as [_ H2].
  split.
  - apply H1. left. split; [reflexivity|].
    intros cx Hcx. change (0 ≤ cx ≤ 2) in Hcx.
    assert (cx = 0 ∨ cx = 1 ∨ cx = 2) as [-> |[-> | ->]] by lia; reflexivity.
  - apply H2; [discriminate|].
    intros Hr. apply reachable_walkable in Hr as [Hr|Hr]; discriminate Hr.
Defined.

(** On [grid43]: [null] for a goal on the water tile. *)
Lemma findPath_rejects_witness :
  findPath (Examples.centre 0 0) (Examples.centre 3 2) Examples.grid43 32
  = Some Null.
Proof.
  apply findPath_rejects_outside_and_blocked_goal; [discriminate|discriminate|].
  right. right. split; [discriminate|].
  exists Constants.WATER. split; [reflexivity|]. right. by right.
Defined.


(** A controller at full health, 400 units from the player with the
    default ranges, stays in [patrol]: the distance is not below the
    detection range and the target is not the base. *)
Lemma evaluateState_far_player_patrols :
  StateMachine.currentState
    (EnemyAI.stateMachine
       (EnemyAI._evaluateState Examples.axisDistance (λ _, 0%Q)
          (Some (Examples.playerAt 500 100)) None Examples.controller tt).1)
  = Some "patrol".
Proof. by vm_compute. Qed.

(** A board on which one agent has taken a slot holds at most two. *)
Lemma flanking_slots_bounded_witness :
  (size (AIBlackboard.flankingPositions Examples.board_flanking) ≤ 2)%nat.
Proof.
  apply (flanking_slots_bounded Examples.axisDistance Examples.board_flanking).
  unfold Examples.board_flanking.
  eapply AIBlackboard.reachable_step.
  - eapply AIBlackboard.reachable_step; [apply AIBlackboard.reachable_new|].
    apply AIBlackboard.step_update.
  - apply AIBlackboard.step_calculateFlankingPosition. reflexivity.
Defined.

(** * Further properties of the path search *)

Section Shortest.
Context (map : Grid) (startNode goalNode : cell).

(** Along a walk from the start, either its last cell is closed or some
    open node has an [f] of at most the length of the walk plus the
    heuristic of its last cell. *)
Lemma shortest_frontier openList closedList pre c suf target :
  loopOk map startNode goalNode openList closedList →
  shortestOk map startNode goalNode openList closedList →
  walk map startNode pre → last (startNode :: pre) = Some c →
  walk map c suf → last (c :: suf) = Some target →
  (c ∈ closedList ∨
   ∃ n, n ∈ openList ∧ node_cell n = c ∧ node_g n ≤ Z.of_nat (length pre)) →
  target ∈ closedList ∨
  ∃ n, n ∈ openList ∧
       node_f n ≤ Z.of_nat (length pre) + Z.of_nat (length suf)
                  + heuristic target goalNode.
Proof.
  intros [[_ Hall] _] (Hnbs & _ & _). revert pre c.
  assert (∀ (pre : list cell) c suf',
            walk map c suf' → last (c :: suf') = Some target →
            (∃ n, n ∈ openList ∧ node_cell n = c ∧
                  node_g n ≤ Z.of_nat (length pre)) →
            ∃ n, n ∈ openList ∧
                 node_f n ≤ Z.of_nat (length pre) + Z.of_nat (length suf')
                            + heuristic target goalNode) as Hopen.
  { intros pre c suf' Hw Hl (n & Hn & Hc & Hg). exists n. split; [done|].
    destruct (Hall n Hn) as (_ & (_ & Hh & Hf) & _). rewrite Hf, Hh, Hc.
    pose proof (walk_heuristic map c suf' target Hw Hl).
    pose proof (heuristic_triangle c target goalNode). lia. }
  induction suf as [|c1 suf IH]; intros pre c Hpre Hlpre Hsuf Hlsuf [Hc|Hc];
    try by apply (Hopen pre c).
  - left. simpl in Hlsuf. by injection Hlsuf as <-.
  - right. by apply (Hopen pre c).
  - destruct Hsuf as [Hnb Hsuf].
    assert (last (c1 :: suf) = Some target) as Hl1 by by destruct suf.
    destruct (IH (pre ++ [c1]) c1) as [?|(n & Hn & Hf)]; try done.
    + apply walk_snoc; [done|]. intros c' Hc'. congruence.
    + by rewrite app_comm_cons, last_snoc.
    + destruct (Hnbs c pre c1 Hc Hpre Hlpre Hnb) as [?|(n & Hn & Hcn & Hg)];
        [by left|].
      right. exists n. split; [done|]. split; [done|].
      rewrite length_app. simpl. lia.
    + by left.
    + right. exists n. split; [done|]. rewrite length_app in Hf. simpl in *. lia.
  - right. by apply (Hopen pre c).
Qed.

Lemma shortestOk_start :
  startNode ≠ goalNode →
  shortestOk map startNode goalNode [startPathNode startNode goalNode] ∅.
Proof.
  intros Hne. split; [|split].
  - intros c cs nb Hc. by apply not_elem_of_empty in Hc.
  - apply not_elem_of_empty.
  - right. eexists. split; [by apply list_elem_of_singleton|].
    split; [by destruct startNode|done].
Qed.

(** An iteration that goes on keeps that state. *)
Lemma shortestOk_step openList closedList current :
  loopOk map startNode goalNode openList closedList →
  shortestOk map startNode goalNode openList closedList →
  openList !! minIndex openList = Some current →
  node_cell current ≠ goalNode →
  shortestOk map startNode goalNode
    (expand map goalNode (closedList ∪ {[node_cell current]}) current
            (delete (minIndex openList) openList))
    (closedList ∪ {[node_cell current]}).
Proof.
  intros Hok Hd Hcur Hne.
  destruct (loopOk_step _ _ _ _ _ _ Hok Hcur)
    as (Hnc & Hcok & Hlin & Hs1 & Hok1 & Hok').
  pose proof Hd as (Hnbs & Hgoal & Hstart).
  set (closedList1 := closedList ∪ {[node_cell current]}) in *.
  set (openList1 := delete (minIndex openList) openList) in *.
  assert (current ∈ openList) as Hin by (by eapply list_elem_of_lookup_2).
  pose proof Hcok as (_ & Hh & Hfg).
  (* the node taken costs no more than any walk to its cell *)
  assert (∀ cs, walk map startNode cs →
                last (startNode :: cs) = Some (node_cell current) →
                node_g current ≤ Z.of_nat (length cs)) as Hbest.
  { intros cs Hw Hl.
    destruct (shortest_frontier openList closedList [] startNode cs
                (node_cell current) Hok Hd) as [?|(n & Hn & Hfn)]; try done.
    destruct (minIndex_spec openList) as (cur' & Hcur' & Hmin);
      [by intros ->|].
    rewrite Hcur in Hcur'. injection Hcur' as <-.
    specialize (Hmin n Hn). simpl in Hfn. lia. }
  assert (∀ n, n ∈ openList → n = current ∨ n ∈ openList1) as Hsplit.
  { destruct (delete_split _ _ _ Hcur) as (before & after & Ho & Ho1).
    intros n Hn. subst openList1. rewrite Ho1. rewrite Ho in Hn.
    apply elem_of_app in Hn as [?|Hn]; [right; apply elem_of_app; by left|].
    apply elem_of_cons in Hn as [?|?]; [by left|].
    right; apply elem_of_app; by right. }
  pose proof (foldl_visit_covers goalNode closedList1 current
                (getNeighbors (node_cell current) map) openList1) as Hcov.
  fold (expand map goalNode closedList1 current openList1) in Hcov.
  split; [|split].
  - intros c cs nb Hc Hw Hl Hnb. subst closedList1.
    apply elem_of_union in Hc as [Hc|Hc].
    + destruct (Hnbs c cs nb Hc Hw Hl Hnb) as [?|(n & Hn & Hcn & Hg)];
        [left; apply elem_of_union; by left|].
      destruct (Hsplit n Hn) as [->|Hn1].
      * left. apply elem_of_union. right. by apply elem_of_singleton.
      * right. destruct (Hcov n Hn1) as (n' & Hn' & Hc' & Hg').
        exists n'. split; [done|]. split; [congruence|lia].
    + apply elem_of_singleton in Hc. subst c.
      destruct (decide (nb ∈ closedList ∪ {[node_cell current]})) as [?|Hncl];
        [by left|].
      right.
      destruct (foldl_visit_visited goalNode _ current
                  (getNeighbors (node_cell current) map) openList1 nb Hnb Hncl)
        as (n' & Hn' & Hc' & Hg').
      exists n'. split; [done|]. split; [done|].
      specialize (Hbest cs Hw Hl). lia.
  - subst closedList1. intros Hc. apply elem_of_union in Hc as [?|Hc]; [done|].
    apply elem_of_singleton in Hc. congruence.
  - destruct Hstart as [?|(n & Hn & Hc & Hg)];
      [left; apply elem_of_union; by left|].
    destruct (Hsplit n Hn) as [->|Hn1].
    + left. apply elem_of_union. right. by apply elem_of_singleton.
    + right. destruct (Hcov n Hn1) as (n' & Hn' & Hc' & Hg').
      exists n'. split; [done|]. split; [congruence|lia].
Qed.

(** The loop ends on a node of the goal cell that costs no more than any
    walk from the start to the goal, or, when there is no such walk, on
    an empty open list. *)
Lemma search_shortest :
  isValidNode startNode map = true →
  ∃ r, search (searchBound map) map goalNode
         [startPathNode startNode goalNode] ∅ = Some r ∧
       match r with
       | Some n =>
           nodeOk map startNode goalNode n ∧ node_cell n = goalNode ∧
           ∀ cs, walk map startNode cs →
                 last (startNode :: cs) = Some goalNode →
                 node_g n ≤ Z.of_nat (length cs)
       | None => ¬ reachable map startNode goalNode
       end.
Proof.
  intros Hv.
  destruct (decide (startNode = goalNode)) as [Heq|Hne].
  { rewrite <- Heq. exists (Some (startPathNode startNode startNode)).
    pose proof (loopOk_start map startNode startNode Hv) as [[_ Hall] _].
    destruct (Hall _ ltac:(by apply list_elem_of_singleton)) as (_ & Hok & _).
    split; [|split; [done|split; [by destruct startNode|]]].
    - assert (sameCell startNode (startPathNode startNode startNode) = true)
        as E by (apply sameCell_spec; by destruct startNode).
      unfold searchBound. rewrite search_S.
      change ([startPathNode startNode startNode]
                !! minIndex [startPathNode startNode startNode])
        with (Some (startPathNode startNode startNode)).
      cbv beta iota. by rewrite E.
    - intros cs _ _. simpl. lia. }
  destruct (search_rule map startNode goalNode
              (λ o c, loopOk map startNode goalNode o c ∧
                      shortestOk map startNode goalNode o c))
    with (fuel := searchBound map)
         (openList := [startPathNode startNode goalNode])
         (closedList := (∅ : gset cell)) as (r & Hr & Hpost).
  - by intros o c [? _].
  - intros o c cur [Ho Hd] Hcur Hne'. split.
    + by destruct (loopOk_step _ _ _ _ _ _ Ho Hcur) as (_&_&_&_&_&?).
    + by apply shortestOk_step.
  - split; [by apply loopOk_start|by apply shortestOk_start].
  - unfold searchBound. rewrite size_empty. lia.
  - assert (∀ o c cs, loopOk map startNode goalNode o c →
                   shortestOk map startNode goalNode o c →
                   walk map startNode cs →
                   last (startNode :: cs) = Some goalNode →
                   ∃ n, n ∈ o ∧ node_f n ≤ Z.of_nat (length cs)) as Hfront.
    { intros o c cs Ho Hd Hw Hl.
      assert (startNode ∈ c ∨
              ∃ n, n ∈ o ∧ node_cell n = startNode ∧
                   node_g n ≤ Z.of_nat (length (@nil cell))) as Hpre
        by (by destruct Hd as (_ & _ & ?)).
      destruct (shortest_frontier o c [] startNode cs goalNode Ho Hd
                  I eq_refl Hw Hl Hpre) as [Hc|(n & Hn & Hf)].
      - by destruct Hd as (_ & ? & _).
      - exists n. split; [done|].
        assert (heuristic goalNode goalNode = 0) by by apply heuristic_zero.
        simpl in Hf. lia. }
    exists r. split; [done|]. destruct r as [n|].
    + destruct Hpost as (o' & c' & [Ho Hd] & Hn & Hmin & Hg).
      pose proof Ho as [[_ Hall] _].
      destruct (Hall n Hn) as (_ & Hnok & _).
      split; [done|]. split; [done|]. intros cs Hw Hl.
      destruct (Hfront o' c' cs Ho Hd Hw Hl) as (n1 & Hn1 & Hf1).
      specialize (Hmin n1 Hn1).
      destruct Hnok as (_ & Hh & Hfg). rewrite Hg in Hh.
      assert (heuristic goalNode goalNode = 0) by by apply heuristic_zero.
      lia.
    + destruct Hpost as (c' & Ho & Hd). intros (cs & Hw & Hl).
      destruct (Hfront [] c' cs Ho Hd Hw Hl) as (n & Hn & _).
      by apply elem_of_nil in Hn.
Qed.

End Shortest.

(** ** What [findPath] returns *)

(** X1: [findPath] comes to an answer on every input, within the
    iterations of [searchBound], and a run with more fuel gives the same
    answer. *)
Theorem findPath_terminates start goal map tileSize :
  ∃ r, findPath start goal map tileSize = Some r ∧
       ∀ fuel, (searchBound map ≤ fuel)%nat →
               findPath_fuel fuel start goal map tileSize = Some r.
Proof.
  destruct (findPath_total start goal map tileSize) as (r & Hr).
  exists r. split; [done|]. intros fuel Hle. by apply findPath_fuel_enough.
Qed.

(** The search of [findPath], with its result stated for all walks. *)
Lemma findPath_search start goal map tileSize :
  Qeq_bool tileSize 0 = false →
  isValidNode (cellOf start tileSize) map = true →
  isValidNode (cellOf goal tileSize) map = true →
  let startNode := cellOf start tileSize in
  let goalNode := cellOf goal tileSize in
  (¬ reachable map startNode goalNode ∧
   findPath start goal map tileSize = Some Null) ∨
  ∃ n, findPath start goal map tileSize
         = Some (Path (reconstructPath n tileSize)) ∧
       nodeOk map startNode goalNode n ∧ node_cell n = goalNode ∧
       ∀ cs, walk map startNode cs → last (startNode :: cs) = Some goalNode →
             node_g n ≤ Z.of_nat (length cs).
Proof.
  intros Hts Hs Hg startNode goalNode.
  assert (map ≠ []) as Hmap.
  { intros ->. unfold isValidNode in Hs. simpl in Hs.
    apply andb_prop in Hs as [Hs _]. apply andb_prop in Hs as [Hs _].
    apply andb_prop in Hs as [Hs0 Hs].
    apply Z.leb_le in Hs0. apply Z.ltb_lt in Hs. lia. }
  rewrite findPath_eq by done. cbn zeta. rewrite Hs, Hg. cbn [negb orb].
  destruct (search_shortest map startNode goalNode Hs) as (r & Hr & Hpost).
  fold startNode goalNode. rewrite Hr. destruct r as [n|].
  - right. exists n. by split.
  - left. by split.
Qed.

(** X2: a returned path is a shortest one: it has no more waypoints than
    any walk from the start cell to the goal cell has steps. *)
Theorem findPath_shortest start goal map tileSize path cs :
  findPath start goal map tileSize = Some (Path path) →
  walk map (cellOf start tileSize) cs →
  last (cellOf start tileSize :: cs) = Some (cellOf goal tileSize) →
  (length path ≤ length cs)%nat.
Proof.
  intros H Hw Hl.
  destruct (findPath_Path _ _ _ _ _ H) as (Hs & Hg & _).
  assert (Qeq_bool tileSize 0 = false) as Hts.
  { unfold findPath, findPath_fuel in H.
    destruct (Qeq_bool tileSize 0); [|done]. by destruct (_ && _). }
  destruct (findPath_search start goal map tileSize Hts Hs Hg)
    as [[_ E]|(n & E & Hok & _ & Hbest)]; rewrite E in H; [done|].
  injection H as <-.
  destruct (reconstructPath_cells _ _ _ n tileSize Hok)
    as (rest & Hrest & _ & _ & Hlen & _).
  specialize (Hbest cs Hw Hl).
  rewrite <- (length_fmap waypoint_cell), Hrest. lia.
Qed.

(** X3: from a start cell inside the grid, [findPath] returns [null]
    exactly when no walk leads from the start cell to the goal cell. *)
Theorem findPath_null_iff_unreachable start goal map tileSize :
  ¬ (tileSize == 0)%Q →
  isValidNode (cellOf start tileSize) map = true →
  findPath start goal map tileSize = Some Null ↔
  ¬ reachable map (cellOf start tileSize) (cellOf goal tileSize).
Proof.
  intros Hts Hs. apply Qeq_bool_false in Hts.
  assert (map ≠ []) as Hmap.
  { intros ->. unfold isValidNode in Hs. simpl in Hs.
    apply andb_prop in Hs as [Hs' _]. apply andb_prop in Hs' as [Hs' _].
    apply andb_prop in Hs' as [Hs0 Hs'].
    apply Z.leb_le in Hs0. apply Z.ltb_lt in Hs'. lia. }
  split; [|by apply findPath_unreachable].
  intros H Hr.
  assert (isValidNode (cellOf goal tileSize) map = true) as Hg.
  { apply reachable_walkable in Hr as [<-|Hw]; [done|].
    by apply isWalkable_valid. }
  destruct (findPath_search start goal map tileSize Hts Hs Hg)
    as [[Hun _]|(n & E & _)]; [done|].
  rewrite E in H. discriminate H.
Qed.

(** X4: a returned path ends on the goal cell, and it is empty exactly
    when the start cell is the goal cell. *)
Theorem findPath_ends_on_goal start goal map tileSize path :
  findPath start goal map tileSize = Some (Path path) →
  (path = [] ↔ cellOf start tileSize = cellOf goal tileSize) ∧
  ∀ w, last path = Some w → waypoint_cell w = cellOf goal tileSize.
Proof.
  intros H.
  destruct (findPath_Path _ _ _ _ _ H) as (_ & _ & n & Hok & Hc & ->).
  destruct (reconstructPath_cells _ _ _ n tileSize Hok)
    as (rest & Hrest & Ht & _ & _ & Hs).
  pose proof (trail_last n) as Hl. rewrite Ht, Hc in Hl.
  split; [split|].
  - intros E. rewrite E in Hrest. simpl in Hrest. subst rest.
    simpl in Hl. congruence.
  - intros E. destruct rest as [|c rest _] using rev_ind.
    + by apply fmap_nil_inv in Hrest.
    + rewrite app_comm_cons, last_snoc in Hl. injection Hl as ->.
      destruct Hs. rewrite E. apply elem_of_app. right.
      by apply list_elem_of_singleton.
  - intros w Hw.
    assert (last rest = Some (waypoint_cell w)) as Hlr
      by (by rewrite <- Hrest, fmap_last, Hw).
    destruct rest as [|c rest]; [done|].
    assert (last (cellOf start tileSize :: c :: rest) = last (c :: rest)) as E
      by done.
    rewrite E, Hlr in Hl. congruence.
Qed.

(** The floor of an integer and a half. *)
Lemma Qfloor_half (z : Z) (q : Q) :
  (q == inject_Z z + (1 # 2))%Q → Qfloor q = z.
Proof.
  intros E. rewrite (Qfloor_comp _ _ E).
  assert (z ≤ Qfloor (inject_Z z + (1 # 2))).
  { rewrite <- (Qfloor_Z z) at 1. apply Qfloor_resp_le.
    rewrite <- (Qplus_0_r (inject_Z z)) at 1.
    apply Qplus_le_r. discriminate. }
  assert (Qfloor (inject_Z z + (1 # 2)) < z + 1).
  { rewrite Zlt_Qlt. eapply Qle_lt_trans; [apply Qfloor_le|].
    rewrite inject_Z_plus. apply Qplus_lt_r. reflexivity. }
  lia.
Qed.

(** The world coordinates of a waypoint lead back to its cell. *)
Lemma toWaypoint_cellOf tileSize n :
  ¬ (tileSize == 0)%Q →
  cellOf (mkPoint (x (toWaypoint tileSize n)) (y (toWaypoint tileSize n)))
         tileSize
  = node_cell n.
Proof.
  intros Hts. unfold cellOf, toGrid, node_cell.
  cbn [px py x y toWaypoint]. f_equal.
  - apply Qfloor_half. field. done.
  - apply Qfloor_half. field. done.
Qed.

(** X5: every waypoint of a returned path lies at the centre of its
    cell, and its world coordinates convert back to that cell. *)
Theorem findPath_waypoints_centred start goal map tileSize path w :
  findPath start goal map tileSize = Some (Path path) →
  w ∈ path →
  x w = (inject_Z (gridX w) * tileSize + tileSize / 2)%Q ∧
  y w = (inject_Z (gridY w) * tileSize + tileSize / 2)%Q ∧
  cellOf (mkPoint (x w) (y w)) tileSize = waypoint_cell w.
Proof.
  intros H Hw.
  assert (Qeq_bool tileSize 0 = false) as Hts.
  { unfold findPath, findPath_fuel in H.
    destruct (Qeq_bool tileSize 0); [|done]. by destruct (_ && _). }
  destruct (findPath_Path _ _ _ _ _ H) as (_ & _ & n & _ & _ & ->).
  rewrite reconstructPath_lineage in Hw.
  apply subseteq_drop, list_elem_of_fmap in Hw as (n' & -> & _).
  split; [done|]. split; [done|].
  apply toWaypoint_cellOf. intros E. apply Qeq_bool_iff in E. congruence.
Qed.

(** ** What [simplifyPath] keeps *)

Lemma simplifyLoop_step prev curr rest lastDirection simplified :
  ∃ simplified',
    simplifyLoop prev (curr :: rest) lastDirection simplified
    = simplifyLoop curr rest (Some (travel prev curr)) simplified' ∧
    (simplified' = simplified ∨ simplified' = simplified ++ [prev]) ∧
    (lastDirection ≠ Some (travel prev curr) →
     simplified' = simplified ++ [prev]).
Proof.
  cbn [simplifyLoop]. fold (travel prev curr). case_bool_decide as Hd.
  - exists (simplified ++ [prev]). split; [done|]. split; [by right|done].
  - rewrite <- Hd.
    exists simplified. split; [done|]. split; [by left|]. intros Hne. done.
Qed.

Lemma simplifyLoop_elem prev rest lastDirection simplified w :
  w ∈ simplifyLoop prev rest lastDirection simplified →
  w ∈ simplified ∨ w ∈ prev :: rest.
Proof.
  revert prev lastDirection simplified.
  induction rest as [|curr rest IH]; intros prev lastDirection simplified Hw.
  - by left.
  - destruct (simplifyLoop_step prev curr rest lastDirection simplified)
      as (acc & E & [-> | ->] & _); rewrite E in Hw; apply IH in Hw.
    + destruct Hw as [?|?]; [by left|right; by right].
    + destruct Hw as [Hw|?]; [|right; by right].
      apply elem_of_app in Hw as [?|Hw]; [by left|].
      apply list_elem_of_singleton in Hw as ->. right. by left.
Qed.

Lemma simplifyLoop_length prev rest lastDirection simplified :
  (length (simplifyLoop prev rest lastDirection simplified)
   ≤ length simplified + length rest)%nat.
Proof.
  revert prev lastDirection simplified.
  induction rest as [|curr rest IH]; intros prev lastDirection simplified.
  - simpl. lia.
  - destruct (simplifyLoop_step prev curr rest lastDirection simplified)
      as (acc & -> & [-> | ->] & _).
    + specialize (IH curr (Some (travel prev curr)) simplified). simpl. lia.
    + specialize (IH curr (Some (travel prev curr)) (simplified ++ [prev])).
      rewrite length_app in IH. simpl in *. lia.
Qed.

(** A waypoint at which the direction of travel changes is kept. *)
Lemma simplifyLoop_turn prev rest lastDirection simplified i a b c :
  (prev :: rest) !! i = Some a →
  (prev :: rest) !! S i = Some b →
  (prev :: rest) !! S (S i) = Some c →
  travel a b ≠ travel b c →
  b ∈ simplifyLoop prev rest lastDirection simplified.
Proof.
  revert prev lastDirection simplified i.
  induction rest as [|curr rest IH];
    intros prev lastDirection simplified i Ha Hb Hc Hturn; [by destruct i|].
  destruct (simplifyLoop_step prev curr rest lastDirection simplified)
    as (acc & -> & _).
  destruct i as [|i]; [|by apply (IH curr _ acc i)].
  simpl in Ha, Hb, Hc. injection Ha as ->. injection Hb as ->.
  destruct rest as [|c' rest]; [done|]. simpl in Hc. injection Hc as ->.
  destruct (simplifyLoop_step b c rest (Some (travel a b)) acc)
    as (acc' & -> & _ & Hpush).
  rewrite Hpush by congruence.
  destruct (simplifyLoop_prefix c rest (Some (travel b c)) (acc ++ [b]))
    as (more & ->).
  apply elem_of_app. left. apply elem_of_app. right.
  by apply list_elem_of_singleton.
Qed.

(** X6: [simplifyPath] returns a path of at most two waypoints as it is;
    it keeps the first and the last waypoint and every waypoint at which
    the direction of travel changes, returns waypoints of the path only,
    and at most one more than the path has. *)
Theorem simplifyPath_keeps_turns path :
  ((length path ≤ 2)%nat → simplifyPath path = path) ∧
  head (simplifyPath path) = head path ∧
  last (simplifyPath path) = last path ∧
  (∀ w, w ∈ simplifyPath path → w ∈ path) ∧
  (length (simplifyPath path) ≤ length path + 1)%nat ∧
  ∀ i a b c, path !! i = Some a → path !! S i = Some b →
             path !! S (S i) = Some c → travel a b ≠ travel b c →
             b ∈ simplifyPath path.
Proof.
  destruct (simplifyPath_ends path) as [Hh Hl].
  split; [|split; [done|split; [done|]]].
  { intros Hle. unfold simplifyPath.
    destruct (Nat.leb_spec (length path) 2); [done|lia]. }
  unfold simplifyPath. destruct (length path <=? 2)%nat eqn:Elen.
  { split; [done|]. split; [lia|].
    intros i a b c Ha Hb Hc _. apply Nat.leb_le in Elen.
    apply lookup_lt_Some in Hc. lia. }
  destruct path as [|p0 rest]; [done|].
  destruct (last (p0 :: rest)) as [pn|] eqn:El; [|by apply last_None in El].
  split; [|split].
  - intros w Hw. apply elem_of_app in Hw as [Hw|Hw].
    + apply simplifyLoop_elem in Hw as [Hw|?]; [|done].
      apply list_elem_of_singleton in Hw as ->. by left.
    + apply list_elem_of_singleton in Hw as ->.
      apply list_elem_of_lookup. exists (pred (length (p0 :: rest))).
      by rewrite <- last_lookup.
  - rewrite length_app.
    pose proof (simplifyLoop_length p0 rest None [p0]). simpl in *. lia.
  - intros i a b c Ha Hb Hc Hturn. apply elem_of_app. left.
    by apply (simplifyLoop_turn p0 rest None [p0] i a b c).
Qed.

(** * Properties of the grid movement helpers *)

(** The floor of a number between two consecutive integers. *)
Lemma Qfloor_between (z : Z) (q : Q) :
  (inject_Z z <= q)%Q → (q < inject_Z (z + 1))%Q → Qfloor q = z.
Proof.
  intros Hle Hlt.
  assert (z ≤ Qfloor q).
  { rewrite <- (Qfloor_Z z). by apply Qfloor_resp_le. }
  assert (Qfloor q < z + 1).
  { rewrite Zlt_Qlt. eapply Qle_lt_trans; [apply Qfloor_le|done]. }
  lia.
Qed.

Lemma Qfloor_bounds (q : Q) :
  (inject_Z (Qfloor q) <= q)%Q ∧ (q < inject_Z (Qfloor q) + 1)%Q.
Proof.
  split; [apply Qfloor_le|].
  pose proof (Qlt_floor q) as H. by rewrite inject_Z_plus in H.
Qed.

(** X7: the cell of the centre of a cell is that cell:
    [pixelToGrid] undoes [gridToPixel]. *)
Theorem pixelToGrid_gridToPixel (gridX gridY : Z) :
  GridMovement.pixelToGrid (GridMovement.gridToPixel gridX gridY).1
                           (GridMovement.gridToPixel gridX gridY).2
  = (gridX, gridY).
Proof.
  unfold GridMovement.pixelToGrid, GridMovement.gridToPixel,
    Constants.TILE_SIZE.
  cbn [fst snd]. f_equal; apply Qfloor_half; field.
Qed.

(** X8: [snapToGrid] returns a multiple of the tile size that lies
    within half a tile of its argument, and it leaves such a multiple
    as it is. *)
Theorem snapToGrid_nearest (value : Q) :
  let snapped := GridMovement.snapToGrid value in
  (∃ k : Z, snapped = (inject_Z k * Constants.TILE_SIZE)%Q) ∧
  (-16 <= value - snapped)%Q ∧ (value - snapped < 16)%Q ∧
  GridMovement.snapToGrid snapped = snapped.
Proof.
  unfold GridMovement.snapToGrid, GridMovement.round, Constants.TILE_SIZE.
  cbn zeta. set (k := Qfloor (value / 32 + (1 # 2))).
  destruct (Qfloor_bounds (value / 32 + (1 # 2))) as [Hlo Hhi]. fold k in Hlo, Hhi.
  assert (value == 32 * (value / 32))%Q as Hv by (field; done).
  split; [by exists k|]. split; [|split].
  - lra.
  - lra.
  - do 2 f_equal. apply Qfloor_half. field.
Qed.

(** The four corners of a tank that stands at the centre of a cell lie in
    that cell. *)
Lemma corner_cell (g : Z) (d : Q) :
  (-16 < d)%Q → (d < 16)%Q →
  Qfloor ((inject_Z g * Constants.TILE_SIZE + Constants.TILE_SIZE / 2 + d)
          / Constants.TILE_SIZE) = g.
Proof.
  intros Hlo Hhi. unfold Constants.TILE_SIZE.
  assert ((inject_Z g * 32 + 32 / 2 + d) / 32
          == inject_Z g + (16 + d) * (1 # 32))%Q as E by field.
  rewrite (Qfloor_comp _ _ E).
  apply Qfloor_between;
    [|rewrite inject_Z_plus; change (inject_Z 1) with 1%Q]; lra.
Qed.

(** The test of a corner that lies in the cell [c]. *)
Lemma cornerWalkable_spec map (c : cell) (corner : Q * Q) :
  Qfloor (corner.1 / Constants.TILE_SIZE) = c.1 →
  Qfloor (corner.2 / Constants.TILE_SIZE) = c.2 →
  GridMovement.cornerWalkable map corner = true ↔
  isValidNode c map = true ∧
  ∀ tile, tileAt c map = Some tile → ¬ blockingTile tile.
Proof.
  intros Hx Hy. unfold GridMovement.cornerWalkable. rewrite Hx, Hy.
  unfold isValidNode. destruct c as [cx cy]. cbn [fst snd].
  destruct (Z.ltb_spec cy 0), (Z.leb_spec (Z.of_nat (length map)) cy),
    (Z.ltb_spec cx 0), (Z.leb_spec (Z.of_nat (length (nth 0 map []))) cx);
    cbn [orb];
    try (split; [done|]; intros [Hv _];
         apply andb_prop in Hv as [Hv Hv4]; apply andb_prop in Hv as [Hv Hv3];
         apply andb_prop in Hv as [Hv1 Hv2];
         apply Z.leb_le in Hv1, Hv3; apply Z.ltb_lt in Hv2, Hv4; lia).
  assert ((0 <=? cx) && (cx <? Z.of_nat (length (nth 0 map []))) &&
          (0 <=? cy) && (cy <? Z.of_nat (length map)) = true) as ->.
  { rewrite !andb_true_iff.
    repeat split; (apply Z.leb_le || apply Z.ltb_lt); lia. }
  unfold blockingTile, Constants.BRICK, Constants.STEEL, Constants.WATER.
  destruct (tileAt (cx, cy) map) as [tile|];
    [|split; [intros _; split; [done|intros ? [=]]|done]].
  rewrite negb_true_iff, !orb_false_iff, !Z.eqb_neq. split.
  - intros [[? ?] ?]. split; [done|]. intros ? [= <-] Hb. lia.
  - intros [_ H']. specialize (H' tile eq_refl). lia.
Qed.

(** A tank at the centre of a cell: its four corners lie in that cell. *)
Lemma centre_fits_iff map (c : cell) :
  GridMovement.isPositionWalkable (GridMovement.gridToPixel c.1 c.2).1
    (GridMovement.gridToPixel c.1 c.2).2 (Some map) = true ↔
  isValidNode c map = true ∧
  ∀ tile, tileAt c map = Some tile → ¬ blockingTile tile.
Proof.
  unfold GridMovement.isPositionWalkable, GridMovement.gridToPixel.
  cbn [fst snd forallb]. rewrite !andb_true_iff.
  assert (∀ dx dy : Q, (-16 < dx)%Q → (dx < 16)%Q → (-16 < dy)%Q → (dy < 16)%Q →
            GridMovement.cornerWalkable map
              ((inject_Z c.1 * Constants.TILE_SIZE + Constants.TILE_SIZE / 2
                + dx)%Q,
               (inject_Z c.2 * Constants.TILE_SIZE + Constants.TILE_SIZE / 2
                + dy)%Q) = true ↔
            isValidNode c map = true ∧
            ∀ tile, tileAt c map = Some tile → ¬ blockingTile tile) as Hcorner.
  { intros dx dy ? ? ? ?.
    apply cornerWalkable_spec; cbn [fst snd]; by apply corner_cell. }
  destruct (Hcorner (-14) (-14))%Q as [Ha1 Ha2]; [reflexivity..|].
  destruct (Hcorner 14 (-14))%Q as [_ Hb2]; [reflexivity..|].
  destruct (Hcorner (-14) 14)%Q as [_ Hc2]; [reflexivity..|].
  destruct (Hcorner 14 14)%Q as [_ Hd2]; [reflexivity..|].
  split.
  - intros [H _]. by apply Ha1.
  - intros H. split; [by apply Ha2|]. split; [by apply Hb2|].
    split; [by apply Hc2|]. split; [by apply Hd2|done].
Qed.

(** A waypoint of a returned path: its cell is walkable and it lies at
    the centre of that cell. *)
Lemma findPath_waypoint map start goal tileSize path w :
  findPath start goal map tileSize = Some (Path path) →
  w ∈ path →
  isWalkable (waypoint_cell w) map = true ∧
  x w = (inject_Z (gridX w) * tileSize + tileSize / 2)%Q ∧
  y w = (inject_Z (gridY w) * tileSize + tileSize / 2)%Q.
Proof.
  intros H Hw.
  destruct (findPath_Path _ _ _ _ _ H) as (_ & _ & n & Hok & _ & ->).
  destruct (reconstructPath_cells _ _ _ n tileSize Hok)
    as (rest & Hrest & _ & Hwalk & _ & _).
  split.
  - eapply walk_walkable; [exact Hwalk|].
    rewrite <- Hrest. apply list_elem_of_fmap. by exists w.
  - rewrite reconstructPath_lineage in Hw.
    by apply subseteq_drop, list_elem_of_fmap in Hw as (n' & -> & _).
Qed.

(** A tank fits on the centre of a cell that the path search can walk
    on. *)
Lemma centre_fits map (c : cell) :
  isWalkable c map = true →
  GridMovement.isPositionWalkable (GridMovement.gridToPixel c.1 c.2).1
    (GridMovement.gridToPixel c.1 c.2).2 (Some map) = true.
Proof.
  intros Hw. apply centre_fits_iff.
  apply isWalkable_tile in Hw as (Hv & tile & Ht & Htile).
  split; [done|]. intros tile' Ht' Hb.
  rewrite Ht in Ht'. injection Ht' as <-.
  unfold walkableTile, Constants.EMPTY, Constants.ICE, Constants.FOREST,
    Constants.BASE in Htile.
  unfold blockingTile, Constants.BRICK, Constants.STEEL, Constants.WATER in Hb.
  lia.
Qed.

(** X9: a tank fits on the centre of a cell exactly when the cell is
    inside the grid and holds no brick, steel or water; so it fits on
    the centre of every cell that the path search can walk on, and on
    no cell outside the grid. *)
Theorem isPositionWalkable_centre map (c : cell) :
  let fits :=
    GridMovement.isPositionWalkable (GridMovement.gridToPixel c.1 c.2).1
      (GridMovement.gridToPixel c.1 c.2).2 (Some map) in
  (fits = true ↔
   isValidNode c map = true ∧
   ∀ tile, tileAt c map = Some tile → ¬ blockingTile tile) ∧
  (isWalkable c map = true → fits = true) ∧
  (isValidNode c map = false → fits = false).
Proof.
  cbn zeta. pose proof (centre_fits_iff map c) as Hiff.
  split; [exact Hiff|]. split; [apply centre_fits|].
  intros Hv.
  destruct (GridMovement.isPositionWalkable _ _ _); [|done].
  destruct Hiff as [Hiff _]. destruct (Hiff eq_refl) as [Hv' _]. congruence.
Qed.

(** X10: with tiles of 32 units, a tank fits on every waypoint of a path
    that [findPath] returns. *)
Theorem findPath_waypoints_fit start goal map path w :
  findPath start goal map Constants.TILE_SIZE = Some (Path path) →
  w ∈ path →
  GridMovement.isPositionWalkable (x w) (y w) (Some map) = true.
Proof.
  intros H Hw.
  destruct (findPath_waypoint _ _ _ _ _ w H Hw) as (Hc & Hx & Hy).
  rewrite Hx, Hy. by apply (centre_fits map (waypoint_cell w)).
Qed.

(** ** Comparisons of numbers *)

Lemma JS_lt_spec (a b : Q) : JS.lt a b = true ↔ (a < b)%Q.
Proof.
  unfold JS.lt. rewrite Qlt_alt. destruct (a ?= b)%Q; split; congruence.
Qed.

Lemma JS_lt_false (a b : Q) : JS.lt a b = false ↔ (b <= a)%Q.
Proof.
  split.
  - intros H. apply Qnot_lt_le. intros Hlt. apply JS_lt_spec in Hlt. congruence.
  - intros H. destruct (JS.lt a b) eqn:E; [|done].
    apply JS_lt_spec in E. apply Qle_not_lt in H. done.
Qed.

Lemma JS_le_spec (a b : Q) : JS.le a b = true ↔ (a <= b)%Q.
Proof. apply Qle_bool_iff. Qed.

Lemma JS_le_false (a b : Q) : JS.le a b = false ↔ (b < a)%Q.
Proof.
  split.
  - intros H. apply Qnot_le_lt. intros Hle. apply JS_le_spec in Hle. congruence.
  - intros H. destruct (JS.le a b) eqn:E; [|done].
    apply JS_le_spec in E. apply Qlt_not_le in H. done.
Qed.

(** ** Corner slides *)

(** A slide of at most three units towards the grid line. *)
Lemma slide_closer (offset : Q) :
  (2 < Qabs offset)%Q →
  let amount :=
    ((if JS.lt 0 offset then -1 else 1) * Qmin 3 (Qabs offset))%Q in
  (Qabs amount <= 3)%Q ∧ (Qabs (offset + amount) < Qabs offset)%Q.
Proof.
  intros Habs. cbn zeta.
  destruct (Q.min_spec 3 (Qabs offset)) as [[Hm ->]|[Hm ->]];
    destruct (JS.lt 0 offset) eqn:E;
    [apply JS_lt_spec in E|apply JS_lt_false in E
    |apply JS_lt_spec in E|apply JS_lt_false in E].
  - rewrite (Qabs_pos offset) in * by lra. split.
    + assert (-1 * 3 == -3)%Q as -> by ring. by compute.
    + rewrite Qabs_pos by lra. lra.
  - rewrite (Qabs_neg offset) in * by lra. split.
    + assert (1 * 3 == 3)%Q as -> by ring. by compute.
    + rewrite Qabs_neg by lra. lra.
  - rewrite (Qabs_pos offset) in * by lra. split.
    + rewrite Qabs_neg by lra. lra.
    + assert (offset + -1 * offset == 0)%Q as -> by ring.
      change (Qabs 0) with 0%Q. lra.
  - rewrite (Qabs_neg offset) in * by lra. split.
    + rewrite Qabs_pos by lra. lra.
    + assert (offset + 1 * - offset == 0)%Q as -> by ring.
      change (Qabs 0) with 0%Q. lra.
Qed.

(** X11: a corner slide is across the direction of movement, is of at
    most three units, brings the tank closer to the grid line it names as
    target, and that target is a place where the tank fits. *)
Theorem calculateCornerSlide_towards_grid tank direction map slide :
  GridMovement.calculateCornerSlide tank direction map = Some slide →
  (Qabs (GridMovement.amount slide) <= 3)%Q ∧
  match GridMovement.axis slide with
  | GridMovement.axisX =>
      (direction = GridMovement.up ∨ direction = GridMovement.down) ∧
      GridMovement.targetValue slide
        = GridMovement.snapToGrid (GridMovement.tank_x tank) ∧
      (Qabs (GridMovement.tank_x tank + GridMovement.amount slide
             - GridMovement.targetValue slide)
       < Qabs (GridMovement.tank_x tank - GridMovement.targetValue slide))%Q ∧
      GridMovement.isPositionWalkable (GridMovement.targetValue slide)
        (GridMovement.tank_y tank) map = true
  | GridMovement.axisY =>
      (direction = GridMovement.left ∨ direction = GridMovement.right) ∧
      GridMovement.targetValue slide
        = GridMovement.snapToGrid (GridMovement.tank_y tank) ∧
      (Qabs (GridMovement.tank_y tank + GridMovement.amount slide
             - GridMovement.targetValue slide)
       < Qabs (GridMovement.tank_y tank - GridMovement.targetValue slide))%Q ∧
      GridMovement.isPositionWalkable (GridMovement.tank_x tank)
        (GridMovement.targetValue slide) map = true
  end.
Proof.
  unfold GridMovement.calculateCornerSlide. destruct map as [map|]; [|done].
  cbn zeta. cbn [GridMovement.checkAlignment GridMovement.alignedX
                 GridMovement.alignedY GridMovement.offsetX
                 GridMovement.offsetY GridMovement.nearestX
                 GridMovement.nearestY].
  set (ox := (GridMovement.tank_x tank
              - GridMovement.snapToGrid (GridMovement.tank_x tank))%Q).
  set (oy := (GridMovement.tank_y tank
              - GridMovement.snapToGrid (GridMovement.tank_y tank))%Q).
  assert (Eox : ox = (GridMovement.tank_x tank
              - GridMovement.snapToGrid (GridMovement.tank_x tank))%Q)
    by reflexivity.
  assert (Eoy : oy = (GridMovement.tank_y tank
              - GridMovement.snapToGrid (GridMovement.tank_y tank))%Q)
    by reflexivity.
  clearbody ox oy.
  destruct (_ && _ && JS.lt 2 (Qabs ox) && _) eqn:E1.
  - intros [= <-]. cbn [GridMovement.amount GridMovement.axis
                        GridMovement.targetValue].
    apply andb_prop in E1 as [E1 Hw]. apply andb_prop in E1 as [E1 H2].
    apply andb_prop in E1 as [Hd _]. apply bool_decide_eq_true in Hd.
    apply JS_lt_spec in H2.
    destruct (slide_closer ox H2) as [Ha Hc]. split; [done|].
    split; [done|]. split; [done|]. split; [|done].
    rewrite <- Eox. eapply Qle_lt_trans; [|exact Hc]. apply Qle_lteq. right.
    apply Qabs_wd. rewrite Eox. ring.
  - destruct (_ && _ && JS.lt 2 (Qabs oy) && _) eqn:E2; [|done].
    intros [= <-]. cbn [GridMovement.amount GridMovement.axis
                        GridMovement.targetValue].
    apply andb_prop in E2 as [E2 Hw]. apply andb_prop in E2 as [E2 H2].
    apply andb_prop in E2 as [Hd _]. apply bool_decide_eq_true in Hd.
    apply JS_lt_spec in H2.
    destruct (slide_closer oy H2) as [Ha Hc]. split; [done|].
    split; [done|]. split; [done|]. split; [|done].
    rewrite <- Eoy. eapply Qle_lt_trans; [|exact Hc]. apply Qle_lteq. right.
    apply Qabs_wd. rewrite Eoy. ring.
Qed.

(** ** The search for a place nearby *)

(** The first element of a list that passes a test. *)
Lemma find_first {A} (P : A → bool) (l : list A) (a : A) :
  List.find P l = Some a →
  ∃ i, l !! i = Some a ∧ P a = true ∧
       ∀ j b, (j < i)%nat → l !! j = Some b → P b = false.
Proof.
  induction l as [|a0 l IH]; [done|]. simpl. destruct (P a0) eqn:E.
  - intros [= <-]. exists 0%nat. split; [done|]. split; [done|]. intros; lia.
  - intros H. destruct (IH H) as (i & Hi & HP & Hbefore).
    exists (S i). split; [done|]. split; [done|].
    intros [|j] b Hj Hb; [by injection Hb as <-|].
    apply (Hbefore j); [lia|done].
Qed.

Lemma find_none_all {A} (P : A → bool) (l : list A) (a : A) :
  List.find P l = None → a ∈ l → P a = false.
Proof.
  intros H Ha. apply (find_none P l H). by apply list_elem_of_In.
Qed.

(** The offsets of the search are those of at most three cells. *)
Lemma searchOffsets_complete (d : Z * Z) :
  GridMovement.ringDistance d ≤ 3 → d ∈ GridMovement.searchOffsets.
Proof.
  destruct d as [dx dy]. unfold GridMovement.ringDistance. cbn [fst snd].
  intros H.
  assert (forallb (λ dx, forallb (λ dy,
            bool_decide ((dx, dy) ∈ GridMovement.searchOffsets))
            (seqZ (-3) 7)) (seqZ (-3) 7) = true) as Hall by (by vm_compute).
  rewrite forallb_forall in Hall.
  assert (In dx (seqZ (-3) 7)) as Hdx
    by (apply list_elem_of_In, elem_of_seqZ; lia).
  specialize (Hall dx Hdx). rewrite forallb_forall in Hall.
  assert (In dy (seqZ (-3) 7)) as Hdy
    by (apply list_elem_of_In, elem_of_seqZ; lia).
  eapply bool_decide_eq_true_1. by apply Hall.
Qed.

Lemma searchOffsets_sound (d : Z * Z) :
  d ∈ GridMovement.searchOffsets → GridMovement.ringDistance d ≤ 3.
Proof.
  assert (forallb (λ d, GridMovement.ringDistance d <=? 3)
            GridMovement.searchOffsets = true) as Hall by (by vm_compute).
  rewrite forallb_forall in Hall. intros Hd.
  apply Z.leb_le, Hall. by apply list_elem_of_In.
Qed.

(** The search goes through the rings from the inside out. *)
Lemma searchOffsets_order i j d d' :
  GridMovement.searchOffsets !! i = Some d →
  GridMovement.searchOffsets !! j = Some d' →
  GridMovement.ringDistance d' < GridMovement.ringDistance d →
  (j < i)%nat.
Proof.
  intros Hi Hj Hlt.
  assert (forallb (λ i, forallb (λ j,
            match GridMovement.searchOffsets !! i,
                  GridMovement.searchOffsets !! j with
            | Some d, Some d' =>
                implb (GridMovement.ringDistance d'
                         <? GridMovement.ringDistance d) (j <? i)%nat
            | _, _ => true
            end) (seq 0 49)) (seq 0 49) = true) as Hall by (by vm_compute).
  rewrite forallb_forall in Hall.
  assert (length GridMovement.searchOffsets = 49%nat) as Hlen by (by vm_compute).
  assert (In i (seq 0 49)) as Hi'.
  { apply list_elem_of_In, elem_of_seq. apply lookup_lt_Some in Hi. lia. }
  specialize (Hall i Hi'). rewrite forallb_forall in Hall.
  assert (In j (seq 0 49)) as Hj'.
  { apply list_elem_of_In, elem_of_seq. apply lookup_lt_Some in Hj. lia. }
  specialize (Hall j Hj'). rewrite Hi, Hj in Hall.
  apply Z.ltb_lt in Hlt. rewrite Hlt in Hall. simpl in Hall.
  by apply Nat.ltb_lt.
Qed.

(** X12: [findNearestWalkablePosition] returns the centre of a cell at
    most three cells away on which the tank fits, and no cell of a
    smaller ring around the tank is such a cell; it returns [null] when
    there is no map, and when no cell within three cells is such a
    cell. *)
Theorem findNearestWalkablePosition_nearest tank map :
  let '(gridX, gridY) :=
    GridMovement.pixelToGrid (GridMovement.tank_x tank)
                             (GridMovement.tank_y tank) in
  let centre (d : Z * Z) := GridMovement.gridToPixel (gridX + d.1) (gridY + d.2) in
  GridMovement.findNearestWalkablePosition tank None = None ∧
  match GridMovement.findNearestWalkablePosition tank (Some map) with
  | Some pixel =>
      GridMovement.isPositionWalkable pixel.1 pixel.2 (Some map) = true ∧
      ∃ d, GridMovement.ringDistance d ≤ 3 ∧ pixel = centre d ∧
           ∀ d', GridMovement.ringDistance d' < GridMovement.ringDistance d →
                 GridMovement.isPositionWalkable (centre d').1 (centre d').2
                   (Some map) = false
  | None =>
      ∀ d, GridMovement.ringDistance d ≤ 3 →
           GridMovement.isPositionWalkable (centre d).1 (centre d).2
             (Some map) = false
  end.
Proof.
  unfold GridMovement.findNearestWalkablePosition.
  destruct (GridMovement.pixelToGrid _ _) as [gridX gridY].
  split; [done|].
  set (centre := λ d : Z * Z, GridMovement.gridToPixel (gridX + d.1) (gridY + d.2)).
  destruct (List.find _ _) as [pixel|] eqn:E.
  - apply find_first in E as (i & Hi & HP & Hbefore). split; [done|].
    rewrite list_lookup_fmap in Hi.
    destruct (GridMovement.searchOffsets !! i) as [d|] eqn:Ed; [|done].
    injection Hi as <-. exists d. split; [|split; [done|]].
    + apply searchOffsets_sound. by eapply list_elem_of_lookup_2.
    + intros d' Hlt.
      assert (d' ∈ GridMovement.searchOffsets) as Hd'.
      { apply searchOffsets_complete.
        assert (GridMovement.ringDistance d ≤ 3)
          by (apply searchOffsets_sound; by eapply list_elem_of_lookup_2).
        lia. }
      apply list_elem_of_lookup in Hd' as (j & Hj).
      apply (Hbefore j); [by eapply searchOffsets_order|].
      by rewrite list_lookup_fmap, Hj.
  - intros d Hd. apply (find_none_all _ _ _ E).
    apply list_elem_of_fmap. exists d. split; [done|].
    by apply searchOffsets_complete.
Qed.

(** ** Snapping a tank to the grid *)

(** The offset of a coordinate from the grid line nearest to it. *)
Lemma snapToGrid_offset (value : Q) :
  (-16 <= value - GridMovement.snapToGrid value)%Q ∧
  (value - GridMovement.snapToGrid value < 16)%Q.
Proof.
  unfold GridMovement.snapToGrid, GridMovement.round, Constants.TILE_SIZE.
  destruct (Qfloor_bounds (value / 32 + (1 # 2))) as [Hlo Hhi].
  assert (value == 32 * (value / 32))%Q as Hv by (field; done).
  split; lra.
Qed.

Lemma snapToGrid_fixed (value : Q) :
  GridMovement.snapToGrid (GridMovement.snapToGrid value)
  = GridMovement.snapToGrid value.
Proof.
  unfold GridMovement.snapToGrid, GridMovement.round, Constants.TILE_SIZE.
  do 2 f_equal. apply Qfloor_half. field.
Qed.

(** The offset is of less than half a tile except on the centre line of
    a cell, where a half goes up. *)
Lemma snapToGrid_offset_small (value : Q) :
  (Qabs (value - GridMovement.snapToGrid value) < 16)%Q ↔
  ¬ ∃ k : Z, (value == inject_Z k * 32 + 16)%Q.
Proof.
  destruct (snapToGrid_offset value) as [Hlo Hhi].
  rewrite Qabs_Qlt_condition. split.
  - intros [Hlt _] (k & Hk).
    assert (GridMovement.snapToGrid value == inject_Z (k + 1) * 32)%Q as E.
    { unfold GridMovement.snapToGrid, GridMovement.round, Constants.TILE_SIZE.
      assert (value / 32 + (1 # 2) == inject_Z (k + 1))%Q as E'.
      { rewrite inject_Z_plus. change (inject_Z 1) with 1%Q.
        rewrite Hk. field. }
      by rewrite (Qfloor_comp _ _ E'), Qfloor_Z. }
    rewrite inject_Z_plus in E. change (inject_Z 1) with 1%Q in E. lra.
  - intros Hc. split; [|done].
    destruct (Qlt_le_dec (-(16)) (value - GridMovement.snapToGrid value))
      as [?|Hle]; [done|].
    destruct Hc.
    exists (GridMovement.round (value / Constants.TILE_SIZE) + -1).
    unfold GridMovement.snapToGrid, Constants.TILE_SIZE in *.
    rewrite inject_Z_plus. change (inject_Z (-1)) with (-1)%Q. lra.
Qed.

(** X13: [forceSnapToGrid] either moves the tank to the grid lines
    nearest to it or leaves it where it is.  It moves the tank exactly
    when the tank is on the centre line of no cell and fits at the place
    it is moved to; a second call then leaves the tank there. *)
Theorem forceSnapToGrid_spec tank map :
  let snapped :=
    GridMovement.mkTank (GridMovement.snapToGrid (GridMovement.tank_x tank))
                        (GridMovement.snapToGrid (GridMovement.tank_y tank)) in
  let centred (v : Q) := ∃ k : Z, (v == inject_Z k * 32 + 16)%Q in
  (GridMovement.forceSnapToGrid tank map = (true, snapped) ∨
   GridMovement.forceSnapToGrid tank map = (false, tank)) ∧
  ((GridMovement.forceSnapToGrid tank map).1 = true ↔
   ¬ centred (GridMovement.tank_x tank) ∧
   ¬ centred (GridMovement.tank_y tank) ∧
   GridMovement.isPositionWalkable (GridMovement.tank_x snapped)
     (GridMovement.tank_y snapped) map = true) ∧
  ((GridMovement.forceSnapToGrid tank map).1 = true →
   GridMovement.forceSnapToGrid snapped map = (true, snapped)).
Proof.
  cbn zeta. cbn [GridMovement.tank_x GridMovement.tank_y].
  assert (∀ t, GridMovement.forceSnapToGrid t map
    = if JS.lt (Qabs (GridMovement.tank_x t
                      - GridMovement.snapToGrid (GridMovement.tank_x t))) 16 &&
         JS.lt (Qabs (GridMovement.tank_y t
                      - GridMovement.snapToGrid (GridMovement.tank_y t))) 16 &&
         GridMovement.isPositionWalkable
           (GridMovement.snapToGrid (GridMovement.tank_x t))
           (GridMovement.snapToGrid (GridMovement.tank_y t)) map
      then (true, GridMovement.mkTank
                    (GridMovement.snapToGrid (GridMovement.tank_x t))
                    (GridMovement.snapToGrid (GridMovement.tank_y t)))
      else (false, t)) as Hdef by done.
  assert ((GridMovement.forceSnapToGrid tank map).1 = true ↔
          (¬ ∃ k : Z, (GridMovement.tank_x tank == inject_Z k * 32 + 16)%Q) ∧
          (¬ ∃ k : Z, (GridMovement.tank_y tank == inject_Z k * 32 + 16)%Q) ∧
          GridMovement.isPositionWalkable
            (GridMovement.snapToGrid (GridMovement.tank_x tank))
            (GridMovement.snapToGrid (GridMovement.tank_y tank)) map = true)
    as Hiff.
  { rewrite Hdef, <- !snapToGrid_offset_small, <- !JS_lt_spec.
    destruct (JS.lt _ 16), (JS.lt _ 16), (GridMovement.isPositionWalkable _ _ _);
      cbn [andb fst]; split; try done; intros (? & ? & ?); done. }
  split; [|split; [exact Hiff|]].
  - rewrite Hdef. destruct (_ && _ && _); [by left|by right].
  - intros Hok. apply Hiff in Hok as (_ & _ & Hw).
    rewrite Hdef. cbn [GridMovement.tank_x GridMovement.tank_y].
    rewrite !snapToGrid_fixed, Hw.
    assert (∀ v : Q, JS.lt (Qabs (v - v)) 16 = true) as Hz.
    { intros v. apply JS_lt_spec. apply Qabs_Qlt_condition. lra. }
    by rewrite !Hz.
Qed.

(** ** The directions a tank can take *)

Lemma cornerWalkable_Qeq map (c c' : Q * Q) :
  (c.1 == c'.1)%Q → (c.2 == c'.2)%Q →
  GridMovement.cornerWalkable map c = GridMovement.cornerWalkable map c'.
Proof.
  intros H1 H2. unfold GridMovement.cornerWalkable.
  assert (c.1 / Constants.TILE_SIZE == c'.1 / Constants.TILE_SIZE)%Q as E1
    by (by rewrite H1).
  assert (c.2 / Constants.TILE_SIZE == c'.2 / Constants.TILE_SIZE)%Q as E2
    by (by rewrite H2).
  by rewrite (Qfloor_comp _ _ E1), (Qfloor_comp _ _ E2).
Qed.

(** [isPositionWalkable] gives one answer for equal numbers. *)
Lemma isPositionWalkable_Qeq (x x' y y' : Q) map :
  (x == x')%Q → (y == y')%Q →
  GridMovement.isPositionWalkable x y map
  = GridMovement.isPositionWalkable x' y' map.
Proof.
  intros Hx Hy. destruct map as [map|]; [|done].
  unfold GridMovement.isPositionWalkable. cbn [forallb].
  rewrite (cornerWalkable_Qeq map (x - 14, y - 14)%Q (x' - 14, y' - 14)%Q),
    (cornerWalkable_Qeq map (x + 14, y - 14)%Q (x' + 14, y' - 14)%Q),
    (cornerWalkable_Qeq map (x - 14, y + 14)%Q (x' - 14, y' + 14)%Q),
    (cornerWalkable_Qeq map (x + 14, y + 14)%Q (x' + 14, y' + 14)%Q);
    cbn [fst snd]; try done; by rewrite ?Hx, ?Hy.
Qed.

(** For a tank on the centre of the cell [c], the test of
    [canMoveInDirection] is that of the centre of the cell ahead. *)
Lemma canMoveInDirection_centre map (c : cell) (d : GridMovement.Direction) :
  let ahead : cell :=
    (c.1 + (GridMovement.vector d).1, c.2 + (GridMovement.vector d).2) in
  GridMovement.canMoveInDirection
    (GridMovement.mkTank (GridMovement.gridToPixel c.1 c.2).1
                         (GridMovement.gridToPixel c.1 c.2).2) d (Some map)
  = GridMovement.isPositionWalkable
      (GridMovement.gridToPixel ahead.1 ahead.2).1
      (GridMovement.gridToPixel ahead.1 ahead.2).2 (Some map).
Proof.
  cbn zeta. unfold GridMovement.canMoveInDirection, GridMovement.gridToPixel.
  cbn [fst snd GridMovement.tank_x GridMovement.tank_y].
  apply isPositionWalkable_Qeq; rewrite inject_Z_plus; ring.
Qed.

(** X14: a tank on the centre of a cell can move in a direction exactly
    when the cell ahead is inside the grid and holds no brick, steel or
    water.  Every neighbour that the path search offers for the cell
    lies ahead in a direction the tank can take. *)
Theorem getAvailableDirections_centre map (c : cell) :
  let tank :=
    GridMovement.mkTank (GridMovement.gridToPixel c.1 c.2).1
                        (GridMovement.gridToPixel c.1 c.2).2 in
  let ahead (d : GridMovement.Direction) : cell :=
    (c.1 + (GridMovement.vector d).1, c.2 + (GridMovement.vector d).2) in
  (∀ d, d ∈ GridMovement.getAvailableDirections tank (Some map) ↔
        isValidNode (ahead d) map = true ∧
        ∀ tile, tileAt (ahead d) map = Some tile → ¬ blockingTile tile) ∧
  (∀ nb, nb ∈ getNeighbors c map →
         ∃ d, nb = ahead d ∧
              d ∈ GridMovement.getAvailableDirections tank (Some map)).
Proof.
  cbn zeta.
  assert (∀ d, d ∈ GridMovement.getAvailableDirections
                     (GridMovement.mkTank (GridMovement.gridToPixel c.1 c.2).1
                        (GridMovement.gridToPixel c.1 c.2).2) (Some map) ↔
               isValidNode (c.1 + (GridMovement.vector d).1,
                            c.2 + (GridMovement.vector d).2) map = true ∧
               ∀ tile, tileAt (c.1 + (GridMovement.vector d).1,
                               c.2 + (GridMovement.vector d).2) map = Some tile →
                       ¬ blockingTile tile) as Hiff.
  { intros d. unfold GridMovement.getAvailableDirections.
    rewrite list_elem_of_In, filter_In, <- list_elem_of_In.
    rewrite canMoveInDirection_centre. cbn zeta.
    rewrite (centre_fits_iff map (c.1 + (GridMovement.vector d).1,
                                  c.2 + (GridMovement.vector d).2)).
    split; [by intros [_ ?]|]. intros H. split; [|done].
    clear H. destruct d; repeat constructor. }
  split; [exact Hiff|].
  intros nb Hnb.
  assert (isWalkable nb map = true) as Hw
    by (by apply elem_of_getNeighbors in Hnb as [_ ?]).
  assert (∃ d, nb = (c.1 + (GridMovement.vector d).1,
                     c.2 + (GridMovement.vector d).2)) as (d & ->).
  { unfold getNeighbors, directions in Hnb.
    apply list_elem_of_filter in Hnb as [_ Hnb].
    apply list_elem_of_fmap in Hnb as (dir & -> & Hdir).
    repeat (apply elem_of_cons in Hdir as [->|Hdir]);
      [by exists GridMovement.up|by exists GridMovement.down
      |by exists GridMovement.left|by exists GridMovement.right
      |by apply elem_of_nil in Hdir]. }
  exists d. split; [done|]. apply Hiff.
  apply centre_fits_iff. by apply centre_fits.
Qed.

(** * Properties of the state machine over its life *)

Section MachineRuns.
Context {Ctx Arg : Type}.
Implicit Types (m : StateMachine.t Ctx Arg) (w : Ctx) (name : string).

Lemma setState_names_registered name args m w :
  StateMachine.names_registered m →
  StateMachine.names_registered (StateMachine.setState name args m w).1.2.
Proof.
  intros (Hc & Hp & Hpc & Hne). unfold StateMachine.setState.
  destruct (StateMachine.states m !! name) as [st|] eqn:H; [|done].
  destruct (decide _) as [|Hcur]; [done|]. cbn [fst snd].
  split; [|split; [|split]]; cbn.
  - intros c [= <-]. by eexists.
  - intros p Hcp. by apply Hc.
  - intros p _. by eexists.
  - intros c [= <-] E. by rewrite E in Hcur.
Qed.

Lemma perform_names_registered (c : StateMachine.call Ctx Arg) (mw : StateMachine.t Ctx Arg * Ctx) :
  StateMachine.names_registered mw.1 →
  StateMachine.names_registered (StateMachine.perform c mw).1.
Proof.
  intros Hok. destruct c as [name st|name args|delta| |]; cbn [StateMachine.perform fst snd].
  - destruct Hok as (Hc & Hp & Hpc & Hne).
    split; [by apply addState_current_registered|].
    split; [|done]. intros p Hprev. cbn in *.
    destruct (decide (name = p)) as [->|Hn].
    + rewrite lookup_insert_eq. by eexists.
    + rewrite lookup_insert_ne by done. by apply Hp.
  - by apply setState_names_registered.
  - done.
  - unfold StateMachine.revertToPrevious.
    destruct (JS.truthy_str _); [|done].
    destruct (StateMachine.previousState mw.1); [|done].
    by apply setState_names_registered.
  - split; [|split; [|split]]; by cbn.
Qed.

Lemma run_names_registered (calls : list (StateMachine.call Ctx Arg)) w :
  StateMachine.names_registered (StateMachine.run calls w).1.
Proof.
  induction calls as [|c calls IH] using rev_ind.
  - split; [|split; [|split]]; by cbn.
  - unfold StateMachine.run in *. rewrite foldl_snoc.
    by apply perform_names_registered.
Qed.

(** X15: [states] is an object literal, in which a look-up finds the
    registered states under every name that [Object.prototype] does not
    define.  Whatever calls were made on a new machine with state names
    other than those of [Object.prototype], the current and the previous
    state are registered states or [null], there is a current state when
    there is a previous one, and the two differ.  So the look-up of the
    current state in [setState], [update] and [reset] finds a state. *)
Theorem run_names_are_registered (calls : list (StateMachine.call Ctx Arg)) w :
  (∀ c name, c ∈ calls → StateMachine.call_name c = Some name →
             name ∉ JS.objectPrototypeNames) →
  let m := (StateMachine.run calls w).1 in
  (∀ c, StateMachine.currentState m = Some c →
        is_Some (StateMachine.states m !! c)) ∧
  (∀ p, StateMachine.previousState m = Some p →
        is_Some (StateMachine.states m !! p) ∧
        ∃ c, StateMachine.currentState m = Some c ∧ c ≠ p).
Proof.
  intros _. cbn zeta.
  destruct (run_names_registered calls w) as (Hc & Hp & Hpc & Hne).
  split; [exact Hc|]. intros p Hprev. split; [by apply Hp|].
  destruct (Hpc p Hprev) as [c Hcur]. exists c. split; [done|].
  intros ->. by apply (Hne p).
Qed.

End MachineRuns.

(** * Properties of the terrain checks of the blackboard *)

(** The point test of the blackboard is the corner test of the movement
    helper. *)
Lemma isPositionWalkable_cornerWalkable scene map (x y : Q) :
  AIBlackboard.levelData_map scene = Some map →
  AIBlackboard._isPositionWalkable scene x y
  = GridMovement.cornerWalkable map (x, y).
Proof. intros H. unfold AIBlackboard._isPositionWalkable. by rewrite H. Qed.

Lemma cornerWalkable_floor map (c c' : Q * Q) :
  Qfloor (c.1 / Constants.TILE_SIZE) = Qfloor (c'.1 / Constants.TILE_SIZE) →
  Qfloor (c.2 / Constants.TILE_SIZE) = Qfloor (c'.2 / Constants.TILE_SIZE) →
  GridMovement.cornerWalkable map c = GridMovement.cornerWalkable map c'.
Proof. intros H1 H2. unfold GridMovement.cornerWalkable. by rewrite H1, H2. Qed.

(** A point within half a tile of [v] lies in the column of [v - 16] or
    in that of [v + 16]. *)
Lemma Qfloor_within_half (v d : Q) :
  (-16 <= d)%Q → (d <= 16)%Q →
  Qfloor ((v + d) / 32) = Qfloor ((v + -16) / 32) ∨
  Qfloor ((v + d) / 32) = Qfloor ((v + 16) / 32).
Proof.
  intros Hlo Hhi.
  destruct (Qfloor_bounds ((v + -16) / 32)) as [Ha Hb].
  set (a := Qfloor ((v + -16) / 32)) in *.
  assert ((v + -16) / 32 == (v + -16) * (1 # 32))%Q as E0 by field.
  assert ((v + 16) / 32 == (v + 16) * (1 # 32))%Q as E1 by field.
  assert ((v + d) / 32 == (v + d) * (1 # 32))%Q as E2 by field.
  rewrite E0 in Ha, Hb.
  assert (Qfloor ((v + 16) / 32) = a + 1) as ->.
  { apply Qfloor_between; rewrite E1, ?inject_Z_plus;
      change (inject_Z 1) with 1%Q; lra. }
  destruct (Qlt_le_dec ((v + d) * (1 # 32)) (inject_Z a + 1)) as [Hlt|Hge].
  - left. apply Qfloor_between; rewrite E2, ?inject_Z_plus;
      change (inject_Z 1) with 1%Q; lra.
  - right. apply Qfloor_between; rewrite E2, ?inject_Z_plus;
      change (inject_Z 1) with 1%Q; lra.
Qed.

(** A corner of the tank lies in a cell of one of the four points that
    [_isPositionSafelyWalkable] tests around the position. *)
Lemma corner_among_checked map (x y dx dy : Q) :
  (-16 <= dx)%Q → (dx <= 16)%Q → (-16 <= dy)%Q → (dy <= 16)%Q →
  GridMovement.cornerWalkable map (x + -16, y + -16)%Q = true →
  GridMovement.cornerWalkable map (x + 16, y + -16)%Q = true →
  GridMovement.cornerWalkable map (x + -16, y + 16)%Q = true →
  GridMovement.cornerWalkable map (x + 16, y + 16)%Q = true →
  GridMovement.cornerWalkable map (x + dx, y + dy)%Q = true.
Proof.
  intros ? ? ? ? H1 H2 H3 H4.
  destruct (Qfloor_within_half x dx) as [Ex|Ex]; [done..| |];
    destruct (Qfloor_within_half y dy) as [Ey|Ey]; try done.
  - by rewrite (cornerWalkable_floor map _ (x + -16, y + -16)%Q).
  - by rewrite (cornerWalkable_floor map _ (x + -16, y + 16)%Q).
  - by rewrite (cornerWalkable_floor map _ (x + 16, y + -16)%Q).
  - by rewrite (cornerWalkable_floor map _ (x + 16, y + 16)%Q).
Qed.

(** A tank fits on a position that is safely walkable. *)
Lemma safelyWalkable_fits_aux scene (x y : Q) :
  AIBlackboard._isPositionSafelyWalkable scene x y = true →
  GridMovement.isPositionWalkable x y (AIBlackboard.levelData_map scene)
  = true.
Proof.
  intros H. destruct (AIBlackboard.levelData_map scene) as [map|] eqn:Hmap;
    [|done].
  unfold AIBlackboard._isPositionSafelyWalkable in H. cbn [forallb fst snd] in H.
  rewrite !(isPositionWalkable_cornerWalkable scene map) in H by done.
  rewrite !andb_true_iff in H. destruct H as (_ & H1 & H2 & H3 & H4 & _).
  unfold GridMovement.isPositionWalkable. cbn [forallb].
  rewrite !andb_true_iff.
  assert (∀ a b a' b' : Q, (a == a')%Q → (b == b')%Q →
            GridMovement.cornerWalkable map (a, b) = true →
            GridMovement.cornerWalkable map (a', b') = true) as Hq.
  { intros a b a' b' Ha Hb <-. symmetry. by apply cornerWalkable_Qeq. }
  apply (Hq _ _ (x + -16) (y + -16))%Q in H1;
    [|unfold Constants.TILE_SIZE; field..].
  apply (Hq _ _ (x + 16) (y + -16))%Q in H2;
    [|unfold Constants.TILE_SIZE; field..].
  apply (Hq _ _ (x + -16) (y + 16))%Q in H3;
    [|unfold Constants.TILE_SIZE; field..].
  apply (Hq _ _ (x + 16) (y + 16))%Q in H4;
    [|unfold Constants.TILE_SIZE; field..].
  assert (∀ dx dy : Q, (-16 <= dx)%Q → (dx <= 16)%Q →
            (-16 <= dy)%Q → (dy <= 16)%Q →
            GridMovement.cornerWalkable map (x + dx, y + dy)%Q = true) as Hc
    by (intros; by apply corner_among_checked).
  split; [apply (Hc (-14) (-14))%Q; lra|].
  split; [apply (Hc 14 (-14))%Q; lra|].
  split; [apply (Hc (-14) 14)%Q; lra|].
  split; [apply (Hc 14 14)%Q; lra|done].
Qed.

(** X17: a tank fits, by the test of the movement helper, on every
    position that the blackboard takes for safely walkable, and such a
    position is walkable by the point test; without a map both tests
    hold everywhere. *)
Theorem safelyWalkable_fits scene (x y : Q) :
  (AIBlackboard._isPositionSafelyWalkable scene x y = true →
   AIBlackboard._isPositionWalkable scene x y = true ∧
   GridMovement.isPositionWalkable x y (AIBlackboard.levelData_map scene)
   = true) ∧
  (AIBlackboard.levelData_map scene = None →
   AIBlackboard._isPositionSafelyWalkable scene x y = true ∧
   GridMovement.isPositionWalkable x y (AIBlackboard.levelData_map scene)
   = true).
Proof.
  split.
  - intros H. split; [|by apply safelyWalkable_fits_aux].
    unfold AIBlackboard._isPositionSafelyWalkable in H.
    cbn [forallb fst snd] in H. by apply andb_prop in H as [? _].
  - intros Hmap. rewrite Hmap. split; [|done].
    unfold AIBlackboard._isPositionSafelyWalkable,
      AIBlackboard._isPositionWalkable.
    by rewrite Hmap.
Qed.

(** * Properties of the flanking slots *)

Section Flanking.
Context (Distance_Between : Q → Q → Q → Q → Q).

(** A position that is not occupied keeps the distance to every slot of
    another agent. *)
Lemma isPositionOccupied_false p enemyId b :
  AIBlackboard._isPositionOccupied Distance_Between p enemyId b = false ↔
  ∀ other q, other ≠ enemyId →
    AIBlackboard.flankingPositions b !! other = Some q →
    (AIBlackboard.minDistanceBetweenEnemies (AIBlackboard.config b)
     <= Distance_Between (AIBlackboard.flank_x p) (AIBlackboard.flank_y p)
          (AIBlackboard.flank_x q) (AIBlackboard.flank_y q))%Q.
Proof.
  unfold AIBlackboard._isPositionOccupied. split.
  - intros H other q Hne Hq. apply JS_lt_false.
    destruct (JS.lt _ _) eqn:E; [|done].
    assert (existsb
      (λ entry : string * AIBlackboard.flankPos,
         if String.eqb entry.1 enemyId then false
         else JS.lt (Distance_Between (AIBlackboard.flank_x p)
                       (AIBlackboard.flank_y p) (AIBlackboard.flank_x entry.2)
                       (AIBlackboard.flank_y entry.2))
                    (AIBlackboard.minDistanceBetweenEnemies (AIBlackboard.config b)))
      (map_to_list (AIBlackboard.flankingPositions b)) = true) as Hex.
    { apply existsb_exists. exists (other, q). split.
      - apply list_elem_of_In. by apply elem_of_map_to_list.
      - cbn [fst snd]. by destruct (String.eqb_spec other enemyId). }
    congruence.
  - intros H. destruct (existsb _ _) eqn:E; [|done].
    apply existsb_exists in E as ([other q] & Hin & Hlt).
    apply list_elem_of_In, elem_of_map_to_list in Hin. cbn [fst snd] in Hlt.
    destruct (String.eqb_spec other enemyId) as [|Hne]; [done|].
    apply JS_lt_spec in Hlt. specialize (H other q Hne Hin).
    by apply Qle_not_lt in H.
Qed.

(** What [_findNearbyWalkablePosition] returns has passed its two
    tests. *)
Lemma findNearbyWalkablePosition_Some scene p searchRadius q :
  AIBlackboard._findNearbyWalkablePosition scene p searchRadius = Some q →
  AIBlackboard._isPositionValid scene (AIBlackboard.flank_x q)
    (AIBlackboard.flank_y q) = true ∧
  AIBlackboard._isPositionSafelyWalkable scene (AIBlackboard.flank_x q)
    (AIBlackboard.flank_y q) = true ∧
  AIBlackboard.side q = AIBlackboard.side p.
Proof.
  unfold AIBlackboard._findNearbyWalkablePosition.
  destruct (List.find _ _) as [c|] eqn:E; [|done]. intros [= <-].
  apply find_some in E as [_ E]. apply andb_prop in E as [? ?]. done.
Qed.

(** X18: a position that [calculateFlankingPosition] returns is stored
    as the slot of the agent and of no other agent, is at least the
    minimal distance away from the slot of every other agent, lies
    inside the margins of the field, and is a place where a tank fits;
    the call changes nothing else, and nothing when it returns [null]. *)
Theorem calculateFlankingPosition_result scene enemyId enemyPos b :
  let r := AIBlackboard.calculateFlankingPosition Distance_Between scene
             enemyId enemyPos b in
  match r.1 with
  | Some p =>
      r.2 = AIBlackboard.with_flankingPositions
              (<[enemyId := p]> (AIBlackboard.flankingPositions b)) b ∧
      is_Some (AIBlackboard.playerLastKnownPosition b) ∧
      (∀ other q, other ≠ enemyId →
         AIBlackboard.flankingPositions b !! other = Some q →
         (AIBlackboard.minDistanceBetweenEnemies (AIBlackboard.config b)
          <= Distance_Between (AIBlackboard.flank_x p) (AIBlackboard.flank_y p)
               (AIBlackboard.flank_x q) (AIBlackboard.flank_y q))%Q) ∧
      AIBlackboard._isPositionValid scene (AIBlackboard.flank_x p)
        (AIBlackboard.flank_y p) = true ∧
      AIBlackboard._isPositionSafelyWalkable scene (AIBlackboard.flank_x p)
        (AIBlackboard.flank_y p) = true ∧
      GridMovement.isPositionWalkable (AIBlackboard.flank_x p)
        (AIBlackboard.flank_y p) (AIBlackboard.levelData_map scene) = true
  | None => r.2 = b
  end.
Proof.
  cbn zeta. unfold AIBlackboard.calculateFlankingPosition.
  destruct (AIBlackboard.playerLastKnownPosition b) as [playerPos|]; [|done].
  cbn zeta.
  assert (∀ p,
    AIBlackboard._isPositionOccupied Distance_Between p enemyId b = false →
    AIBlackboard._isPositionValid scene (AIBlackboard.flank_x p)
      (AIBlackboard.flank_y p) = true →
    AIBlackboard._isPositionSafelyWalkable scene (AIBlackboard.flank_x p)
      (AIBlackboard.flank_y p) = true →
    is_Some (Some playerPos) ∧
    (∀ other q, other ≠ enemyId →
       AIBlackboard.flankingPositions b !! other = Some q →
       (AIBlackboard.minDistanceBetweenEnemies (AIBlackboard.config b)
        <= Distance_Between (AIBlackboard.flank_x p) (AIBlackboard.flank_y p)
             (AIBlackboard.flank_x q) (AIBlackboard.flank_y q))%Q) ∧
    AIBlackboard._isPositionValid scene (AIBlackboard.flank_x p)
      (AIBlackboard.flank_y p) = true ∧
    AIBlackboard._isPositionSafelyWalkable scene (AIBlackboard.flank_x p)
      (AIBlackboard.flank_y p) = true ∧
    GridMovement.isPositionWalkable (AIBlackboard.flank_x p)
      (AIBlackboard.flank_y p) (AIBlackboard.levelData_map scene) = true)
    as Hgood.
  { intros p Ho Hv Hs. split; [by eexists|].
    split; [by apply isPositionOccupied_false|]. split; [done|].
    split; [done|]. by apply safelyWalkable_fits_aux. }
  destruct (List.find _ _) as [p|] eqn:E1; cbn [fst snd].
  - split; [done|]. apply find_some in E1 as [_ E1].
    apply andb_prop in E1 as [Ho E1]. apply andb_prop in E1 as [Hv Hs].
    apply negb_true_iff in Ho. by apply Hgood.
  - match goal with
    | |- context [List.find ?f ?l] => destruct (List.find f l) as [p|] eqn:E2
    end; cbn [fst snd]; [|done].
    split; [done|]. apply find_some in E2 as [Hin Ho].
    apply negb_true_iff in Ho.
    apply list_elem_of_In, list_elem_of_omap in Hin as (p0 & _ & Hp0).
    apply findNearbyWalkablePosition_Some in Hp0 as (Hv & Hs & _).
    by apply Hgood.
Qed.
End Flanking.

(** * Properties of the patrol points *)

Section Patrol.
Context (Distance_Between : Q → Q → Q → Q → Q).

(** One point of the scan: a point that an agent holds is passed over;
    any other point is the best one afterwards, or the best one stays. *)
Lemma scorePatrolPoint_step assigned currentPos random acc index
    (point : AIBlackboard.pos) :
  let acc' :=
    AIBlackboard.scorePatrolPoint Distance_Between assigned currentPos random
      acc (index, point) in
  ((AIBlackboard.Idx index ∈ assigned) ∧ acc' = acc) ∨
  ((AIBlackboard.Idx index ∉ assigned) ∧
   ∃ score p i, acc'.2 = Some (score, p, i) ∧
     ((p, i) = (point, index) ∨ ∃ score', acc.2 = Some (score', p, i))).
Proof.
  cbn zeta. unfold AIBlackboard.scorePatrolPoint.
  case_bool_decide as Hassigned; [by left|]. right. split; [done|].
  cbn zeta. destruct acc.2 as [[[bestScore bp] bi]|] eqn:Ebest.
  - destruct (JS.lt bestScore _); cbn [snd].
    + eexists _, _, _. split; [done|]. by left.
    + eexists _, _, _. split; [done|]. right. by eexists.
  - cbn [snd]. eexists _, _, _. split; [done|]. by left.
Qed.

(** The scan: the best point is a point of the list that no agent
    holds; when there is none, every point is held by an agent. *)
Lemma foldl_scorePatrolPoint assigned currentPos random
    (points : list AIBlackboard.pos) (entries : list (nat * AIBlackboard.pos))
    acc :
  (∀ e, e ∈ entries → points !! e.1 = Some e.2) →
  (∀ score point index, acc.2 = Some (score, point, index) →
     points !! index = Some point ∧ AIBlackboard.Idx index ∉ assigned) →
  let acc' :=
    foldl (AIBlackboard.scorePatrolPoint Distance_Between assigned currentPos
             random) acc entries in
  (∀ score point index, acc'.2 = Some (score, point, index) →
     points !! index = Some point ∧ AIBlackboard.Idx index ∉ assigned) ∧
  (is_Some acc.2 → is_Some acc'.2) ∧
  (acc'.2 = None → ∀ e, e ∈ entries → AIBlackboard.Idx e.1 ∈ assigned).
Proof.
  revert acc. induction entries as [|[index point] entries IH];
    intros acc Hentries Hacc; cbn zeta.
  - split; [done|]. split; [done|]. intros _ e He. by apply elem_of_nil in He.
  - cbn [foldl].
    assert (points !! index = Some point) as Hpoint
      by (apply (Hentries (index, point)); by left).
    assert (∀ e, e ∈ entries → points !! e.1 = Some e.2) as Hrest
      by (intros e He; apply Hentries; by right).
    destruct (scorePatrolPoint_step assigned currentPos random acc index point)
      as [[Hin ->]|(Hnin & s & p & i & Ha & Hpi)].
    + destruct (IH acc Hrest Hacc) as (H1 & H2 & H3).
      split; [done|]. split; [done|].
      intros Hnone e He. apply elem_of_cons in He as [->|He]; [done|].
      by apply H3.
    + set (a := AIBlackboard.scorePatrolPoint Distance_Between assigned
                  currentPos random acc (index, point)) in *.
      assert (∀ score point0 index0, a.2 = Some (score, point0, index0) →
                points !! index0 = Some point0 ∧
                AIBlackboard.Idx index0 ∉ assigned) as Hinv.
      { intros score point0 index0 E. rewrite Ha in E.
        injection E as <- <- <-.
        destruct Hpi as [[= -> ->]|[s' Hs']]; [done|by eapply Hacc]. }
      destruct (IH a Hrest Hinv) as (H1 & H2 & H3).
      assert (is_Some (foldl (AIBlackboard.scorePatrolPoint Distance_Between
                assigned currentPos random) a entries).2) as [best Hbest]
        by (apply H2; rewrite Ha; by eexists).
      split; [done|]. split; [by eexists|].
      intros Hnone. congruence.
Qed.

(** An index is among the assigned ones when an agent holds it. *)
Lemma elem_of_assigned (m : gmap string AIBlackboard.jsindex) (i : AIBlackboard.jsindex) :
  i ∈ (map_to_list m).*2 ↔ ∃ other, m !! other = Some i.
Proof.
  rewrite list_elem_of_fmap. split.
  - intros ([other j] & -> & Hin). exists other.
    by apply elem_of_map_to_list in Hin.
  - intros (other & Hin). exists (other, i). split; [done|].
    by apply elem_of_map_to_list.
Qed.

(** X19: [assignPatrolPoint] stores one index for the agent and returns
    the patrol point at that index; it changes nothing else.  As long
    as there is a patrol point that no agent holds, the one it hands out
    is such a point. *)
Theorem assignPatrolPoint_free random enemyId currentPos b :
  let r := AIBlackboard.assignPatrolPoint Distance_Between random enemyId
             currentPos b in
  let held (i : nat) :=
    ∃ other, AIBlackboard.assignedPatrolPoints b !! other
             = Some (AIBlackboard.Idx i) in
  ∃ i, r.1 = AIBlackboard.patrolPoints b !! i ∧
       r.2 = AIBlackboard.with_assignedPatrolPoints
               (<[enemyId := AIBlackboard.Idx i]>
                  (AIBlackboard.assignedPatrolPoints b)) b ∧
       ((∃ j, (j < length (AIBlackboard.patrolPoints b))%nat ∧ ¬ held j) →
        (i < length (AIBlackboard.patrolPoints b))%nat ∧ ¬ held i).
Proof.
  cbn zeta. unfold AIBlackboard.assignPatrolPoint. cbn zeta.
  set (assigned := (map_to_list (AIBlackboard.assignedPatrolPoints b)).*2).
  set (entries := imap (λ i p, (i, p)) (AIBlackboard.patrolPoints b)).
  assert (∀ e, e ∈ entries → AIBlackboard.patrolPoints b !! e.1 = Some e.2)
    as Hentries.
  { intros e He. apply list_elem_of_lookup in He as (k & Hk).
    unfold entries in Hk. rewrite list_lookup_imap in Hk.
    destruct (AIBlackboard.patrolPoints b !! k) eqn:E; [|done].
    by injection Hk as <-. }
  destruct (foldl_scorePatrolPoint assigned currentPos random
              (AIBlackboard.patrolPoints b) entries (0%nat, None) Hentries)
    as (H1 & _ & H3); [done|].
  destruct (foldl _ _ entries) as [draws [[[score point] index]|]];
    cbn [fst snd] in *.
  - destruct (H1 score point index eq_refl) as [Hpoint Hfree].
    exists index. split; [done|]. split; [done|]. intros _.
    split; [by eapply lookup_lt_Some|].
    intros Hheld. apply Hfree. by apply elem_of_assigned.
  - eexists. split; [done|]. split; [done|].
    intros (j & Hj & Hfree). destruct Hfree.
    apply elem_of_assigned.
    apply lookup_lt_is_Some_2 in Hj as [p Hp].
    apply (H3 eq_refl (j, p)). apply list_elem_of_lookup. exists j.
    unfold entries. by rewrite list_lookup_imap, Hp.
Qed.
End Patrol.

(** The index of an agent after [k] calls of [getNextPatrolPoint]. *)
Lemma getNextPatrolPoint_iter enemyId b i (k : nat) :
  AIBlackboard.assignedPatrolPoints b !! enemyId = Some (AIBlackboard.Idx i) →
  AIBlackboard.patrolPoints b ≠ [] →
  let b' := Nat.iter k (λ b0, (AIBlackboard.getNextPatrolPoint enemyId b0).2) b in
  AIBlackboard.patrolPoints b' = AIBlackboard.patrolPoints b ∧
  AIBlackboard.assignedPatrolPoints b' !! enemyId
  = Some (if k is O then AIBlackboard.Idx i
          else AIBlackboard.Idx ((i + k) mod length (AIBlackboard.patrolPoints b))).
Proof.
  intros Hi Hne. cbn zeta. induction k as [|k [IHp IHa]]; [done|].
  rewrite Nat.iter_succ.
  set (b' := Nat.iter k _ b) in *.
  unfold AIBlackboard.getNextPatrolPoint. rewrite IHa. cbn [fst snd].
  split; [done|]. cbn. rewrite lookup_insert_eq, IHp.
  destruct (AIBlackboard.patrolPoints b) as [|p0 pts] eqn:Epts; [done|].
  set (n := length (p0 :: pts)).
  assert (n ≠ 0)%nat by (unfold n; simpl; lia).
  destruct k as [|k].
  - by rewrite Nat.add_1_r.
  - do 2 f_equal.
    rewrite Nat.Div0.add_mod_idemp_l. f_equal. lia.
Qed.

(** X20: for an agent that holds no index, [getNextPatrolPoint] returns
    [null] and changes nothing.  For an agent that holds one, while
    there are patrol points, it returns the patrol point at the next
    index, going round the list, and stores that index; as many calls
    as there are patrol points lead back to an index of the list. *)
Theorem getNextPatrolPoint_cycles enemyId b :
  let r := AIBlackboard.getNextPatrolPoint enemyId b in
  let n := length (AIBlackboard.patrolPoints b) in
  (AIBlackboard.assignedPatrolPoints b !! enemyId = None → r = (None, b)) ∧
  (∀ i, AIBlackboard.assignedPatrolPoints b !! enemyId
        = Some (AIBlackboard.Idx i) →
        AIBlackboard.patrolPoints b ≠ [] →
        is_Some r.1 ∧
        r.1 = AIBlackboard.patrolPoints b !! ((i + 1) mod n)%nat ∧
        r.2 = AIBlackboard.with_assignedPatrolPoints
                (<[enemyId := AIBlackboard.Idx ((i + 1) mod n)]>
                   (AIBlackboard.assignedPatrolPoints b)) b ∧
        ((i < n)%nat →
         AIBlackboard.assignedPatrolPoints
           (Nat.iter n (λ b0, (AIBlackboard.getNextPatrolPoint enemyId b0).2) b)
           !! enemyId = Some (AIBlackboard.Idx i))).
Proof.
  cbn zeta. split.
  - intros H. unfold AIBlackboard.getNextPatrolPoint. by rewrite H.
  - intros i Hi Hne.
    assert (AIBlackboard.getNextPatrolPoint enemyId b
            = (AIBlackboard.patrolPoints b
                 !! ((i + 1) mod length (AIBlackboard.patrolPoints b))%nat,
               AIBlackboard.with_assignedPatrolPoints
                 (<[enemyId := AIBlackboard.Idx
                      ((i + 1) mod length (AIBlackboard.patrolPoints b))]>
                    (AIBlackboard.assignedPatrolPoints b)) b)) as E.
    { unfold AIBlackboard.getNextPatrolPoint. rewrite Hi.
      by destruct (AIBlackboard.patrolPoints b). }
    rewrite E. cbn [fst snd].
    assert (length (AIBlackboard.patrolPoints b) ≠ 0)%nat as Hn
      by (by destruct (AIBlackboard.patrolPoints b)).
    split; [|split; [done|split; [done|]]].
    + apply lookup_lt_is_Some_2. by apply Nat.mod_upper_bound.
    + intros Hlt.
      destruct (getNextPatrolPoint_iter enemyId b i
                  (length (AIBlackboard.patrolPoints b)) Hi Hne) as [_ Ha].
      rewrite Ha.
      destruct (length (AIBlackboard.patrolPoints b)) as [|n'] eqn:En; [done|].
      do 2 f_equal. rewrite <- En.
      rewrite <- Nat.Div0.add_mod_idemp_r, Nat.Div0.mod_same, Nat.add_0_r.
      apply Nat.mod_small. lia.
Qed.

(** ** The validation of the patrol points *)

Section Validation.
Context (Distance_Between : Q → Q → Q → Q → Q).

(** The points that the loop of [_generateWalkablePatrolPoints] adds are
    safely walkable and at least 100 units away from the points there
    were; the loop stops at [count] points. *)
Lemma generateLoop_spec scene existing random count attemptsLeft attempts points :
  let points' :=
    AIBlackboard.generateLoop Distance_Between scene existing random count
      attemptsLeft attempts points in
  (∀ p, p ∈ points' →
        p ∈ points ∨
        (AIBlackboard._isPositionSafelyWalkable scene (AIBlackboard.pos_x p)
           (AIBlackboard.pos_y p) = true ∧
         ∀ q, q ∈ existing →
              (100 <= Distance_Between (AIBlackboard.pos_x p)
                        (AIBlackboard.pos_y p) (AIBlackboard.pos_x q)
                        (AIBlackboard.pos_y q))%Q)) ∧
  (length points' ≤ length points `max` count)%nat.
Proof.
  revert attempts points.
  induction attemptsLeft as [|attemptsLeft IH]; intros attempts points;
    cbn zeta; cbn [AIBlackboard.generateLoop].
  - split; [by left|lia].
  - destruct (Nat.ltb_spec (length points) count) as [Hlt|Hge];
      [|split; [by left|lia]].
    cbn zeta.
    match goal with
    | |- context [AIBlackboard._isPositionSafelyWalkable scene ?cx ?cy] =>
        set (x := cx); set (y := cy)
    end.
    destruct (AIBlackboard._isPositionSafelyWalkable scene x y) eqn:Hsafe;
      [destruct (existsb _ (existing ++ points)) eqn:Hclose|];
      try (destruct (IH (S attempts) points) as [H1 H2]; split; [done|lia]).
    destruct (IH (S attempts) (points ++ [AIBlackboard.mkPos x y]))
      as [H1 H2].
    split.
    + intros p Hp. apply H1 in Hp as [Hp|Hp]; [|by right].
      apply elem_of_app in Hp as [Hp|Hp]; [by left|].
      apply list_elem_of_singleton in Hp as ->. right. split; [done|].
      intros q Hq. cbn [AIBlackboard.pos_x AIBlackboard.pos_y].
      apply JS_lt_false. destruct (JS.lt _ 100) eqn:E; [|done].
      assert (existsb
                (λ p, JS.lt (Distance_Between x y (AIBlackboard.pos_x p)
                               (AIBlackboard.pos_y p)) 100)
                (existing ++ points) = true) as Hex; [|congruence].
      apply existsb_exists. exists q. split; [|done].
      apply list_elem_of_In, elem_of_app. by left.
    + rewrite length_app in H2. simpl in H2. lia.
Qed.

(** X21: with a map, the validation keeps the patrol points that are
    safely walkable, in their order, and adds points only when fewer
    than five are left; afterwards every patrol point is safely
    walkable, a point that was added is at least 100 units away from
    every point there was, there are no more points than before or than
    ten, and a further validation changes nothing. *)
Theorem validatePatrolPoints_safe scene random b map :
  AIBlackboard.levelData_map scene = Some map →
  AIBlackboard.patrolPointsNeedValidation b = true →
  let b' := AIBlackboard._validatePatrolPoints Distance_Between scene random b in
  let safe (p : AIBlackboard.pos) :=
    AIBlackboard._isPositionSafelyWalkable scene (AIBlackboard.pos_x p)
      (AIBlackboard.pos_y p) = true in
  AIBlackboard.patrolPointsNeedValidation b' = false ∧
  (∀ p, p ∈ AIBlackboard.patrolPoints b' → safe p) ∧
  (∃ added,
     AIBlackboard.patrolPoints b'
     = List.filter (λ p, AIBlackboard._isPositionSafelyWalkable scene
                           (AIBlackboard.pos_x p) (AIBlackboard.pos_y p))
                   (AIBlackboard.patrolPoints b) ++ added ∧
     (added ≠ [] →
      (length (AIBlackboard.patrolPoints b') ≤ 10)%nat) ∧
     ∀ p q, p ∈ added → q ∈ AIBlackboard.patrolPoints b →
            (100 <= Distance_Between (AIBlackboard.pos_x p)
                      (AIBlackboard.pos_y p) (AIBlackboard.pos_x q)
                      (AIBlackboard.pos_y q))%Q) ∧
  (length (AIBlackboard.patrolPoints b')
   ≤ length (AIBlackboard.patrolPoints b) `max` 10)%nat ∧
  (∀ scene' random',
     AIBlackboard._validatePatrolPoints Distance_Between scene' random' b' = b').
Proof.
  intros Hmap Hneed. cbn zeta.
  set (valid := List.filter
         (λ p, AIBlackboard._isPositionSafelyWalkable scene
                 (AIBlackboard.pos_x p) (AIBlackboard.pos_y p))
         (AIBlackboard.patrolPoints b)).
  assert (∀ p, p ∈ valid →
            AIBlackboard._isPositionSafelyWalkable scene (AIBlackboard.pos_x p)
              (AIBlackboard.pos_y p) = true) as Hvalid.
  { intros p Hp. apply list_elem_of_In, filter_In in Hp as [_ Hp]. done. }
  assert (length valid ≤ length (AIBlackboard.patrolPoints b))%nat as Hlen
    by apply filter_length_le.
  assert (∃ added,
            AIBlackboard._validatePatrolPoints Distance_Between scene random b
            = AIBlackboard.with_patrolPoints (valid ++ added) false b ∧
            (added ≠ [] → length (valid ++ added) ≤ 10)%nat ∧
            (length (valid ++ added)
             ≤ length (AIBlackboard.patrolPoints b) `max` 10)%nat ∧
            ∀ p, p ∈ added →
              AIBlackboard._isPositionSafelyWalkable scene
                (AIBlackboard.pos_x p) (AIBlackboard.pos_y p) = true ∧
              ∀ q, q ∈ AIBlackboard.patrolPoints b →
                (100 <= Distance_Between (AIBlackboard.pos_x p)
                          (AIBlackboard.pos_y p) (AIBlackboard.pos_x q)
                          (AIBlackboard.pos_y q))%Q)
    as (added & -> & Hten & Hmax & Hadded).
  { unfold AIBlackboard._validatePatrolPoints. rewrite Hneed, Hmap.
    cbn [negb]. fold valid.
    destruct (Nat.ltb_spec (length valid) 5) as [Hfew|Hmany].
    - unfold AIBlackboard._generateWalkablePatrolPoints.
      destruct (generateLoop_spec scene (AIBlackboard.patrolPoints b) random
                  (10 - length valid) ((10 - length valid) * 20) 0 [])
        as [Hadd Hcount].
      simpl in Hcount. eexists. split; [done|].
      rewrite length_app. split; [lia|]. split; [lia|].
      intros p Hp. by apply Hadd in Hp as [Hp|Hp]; [apply elem_of_nil in Hp|].
    - exists []. rewrite app_nil_r. split; [done|]. split; [done|].
      split; [lia|]. intros p Hp. by apply elem_of_nil in Hp. }
  cbn [AIBlackboard.patrolPoints AIBlackboard.patrolPointsNeedValidation
       AIBlackboard.with_patrolPoints].
  split; [done|]. split; [|split; [|split; [done|done]]].
  - intros p Hp. apply elem_of_app in Hp as [Hp|Hp]; [by apply Hvalid|].
    by apply Hadded.
  - exists added. split; [done|]. split; [done|].
    intros p q Hp Hq. by apply Hadded.
Qed.
End Validation.

(** * Properties of what the blackboard knows of the player and the team *)

(** X22: after [updatePlayerInfo] for a player that is not destroyed,
    the blackboard knows the position of the player.  The information
    is valid while it is younger than the expiry time;
    [predictPlayerPosition] adds the velocity times the prediction time
    to the position while the information is no older than the expiry
    time, and returns the position itself once it is older. *)
Theorem updatePlayerInfo_known scene scene' p b :
  AIBlackboard.isDestroyed p = false →
  let b' := AIBlackboard.updatePlayerInfo scene (Some p) b in
  let age := (AIBlackboard.time_now scene' - AIBlackboard.time_now scene)%Q in
  let expire := AIBlackboard.playerInfoExpireTime (AIBlackboard.config b) in
  let v := default (AIBlackboard.playerVelocity b) (AIBlackboard.body_velocity p) in
  AIBlackboard.playerLastKnownPosition b'
  = Some (AIBlackboard.mkPos (AIBlackboard.player_x p) (AIBlackboard.player_y p)) ∧
  AIBlackboard.playerVelocity b' = v ∧
  (AIBlackboard.isPlayerInfoValid scene' b' = true ↔ (age < expire)%Q) ∧
  (∀ t, (age <= expire)%Q →
        AIBlackboard.predictPlayerPosition scene' t b'
        = Some (AIBlackboard.mkPos (AIBlackboard.player_x p + v.1 * t)
                                   (AIBlackboard.player_y p + v.2 * t))) ∧
  (∀ t, (expire < age)%Q →
        AIBlackboard.predictPlayerPosition scene' t b'
        = Some (AIBlackboard.mkPos (AIBlackboard.player_x p)
                                   (AIBlackboard.player_y p))).
Proof.
  intros Halive. cbn zeta. unfold AIBlackboard.updatePlayerInfo.
  rewrite Halive.
  unfold AIBlackboard.isPlayerInfoValid, AIBlackboard.predictPlayerPosition.
  cbn [AIBlackboard.playerLastKnownPosition AIBlackboard.with_playerInfo
       AIBlackboard.playerLastSeenTime AIBlackboard.playerVelocity
       AIBlackboard.config AIBlackboard.pos_x AIBlackboard.pos_y].
  set (age := (AIBlackboard.time_now scene' - AIBlackboard.time_now scene)%Q).
  set (expire := AIBlackboard.playerInfoExpireTime (AIBlackboard.config b)).
  assert (JS.lt (expire / 1000) (age / 1000) = true ↔ (expire < age)%Q) as Hold.
  { rewrite JS_lt_spec.
    assert (expire / 1000 == expire * (1 # 1000))%Q as -> by field.
    assert (age / 1000 == age * (1 # 1000))%Q as -> by field.
    split; intros; lra. }
  split; [done|]. split; [by destruct (AIBlackboard.body_velocity p)|].
  split; [apply JS_lt_spec|]. split.
  - intros t Hage.
    assert (JS.lt (expire / 1000) (age / 1000) = false) as ->.
    { apply not_true_is_false. intros E. apply Hold in E. lra. }
    by destruct (AIBlackboard.body_velocity p).
  - intros t Hage. apply Hold in Hage. by rewrite Hage.
Qed.

(** The count of [getAttackersCount] as the size of a part of the map of
    the targets. *)
Lemma getAttackersCount_size target excludeId b :
  AIBlackboard.getAttackersCount target excludeId b
  = size (filter (λ kv : string * string,
                    kv.2 = target ∧ Some kv.1 ≠ excludeId ∧
                    kv.1 ∈ AIBlackboard.attackingEnemies b)
                 (AIBlackboard.assignedTargets b)).
Proof.
  unfold AIBlackboard.getAttackersCount.
  apply (map_fold_weak_ind
           (λ r m, r = size (filter (λ kv : string * string,
                                       kv.2 = target ∧ Some kv.1 ≠ excludeId ∧
                                       kv.1 ∈ AIBlackboard.attackingEnemies b) m))).
  - by rewrite map_filter_empty, map_size_empty.
  - intros i x m r Hi ->.
    destruct (String.eqb_spec x target) as [->|Hx];
      repeat case_bool_decide; cbn [andb];
      try (rewrite map_filter_insert_False by (cbn; tauto);
           by rewrite delete_id).
    rewrite map_filter_insert_True by done.
    by rewrite map_size_insert_None by (by rewrite map_lookup_filter_None; left).
Qed.

(** X23: [getAttackersCount] is the number of agents, other than the
    excluded one, that are assigned the target and marked as attacking.
    It is at most the number of agents marked as attacking, and marking
    or unmarking the excluded agent does not change it. *)
Theorem getAttackersCount_spec target excludeId b :
  AIBlackboard.getAttackersCount target excludeId b
  = size (filter (λ kv : string * string,
                    kv.2 = target ∧ Some kv.1 ≠ excludeId ∧
                    kv.1 ∈ AIBlackboard.attackingEnemies b)
                 (AIBlackboard.assignedTargets b)) ∧
  (AIBlackboard.getAttackersCount target excludeId b
   ≤ size (AIBlackboard.attackingEnemies b))%nat ∧
  ∀ enemyId,
    AIBlackboard.getAttackersCount target (Some enemyId)
      (AIBlackboard.markAsAttacking enemyId b)
    = AIBlackboard.getAttackersCount target (Some enemyId) b ∧
    AIBlackboard.getAttackersCount target (Some enemyId)
      (AIBlackboard.markAsNotAttacking enemyId b)
    = AIBlackboard.getAttackersCount target (Some enemyId) b.
Proof.
  split; [apply getAttackersCount_size|]. split.
  - rewrite getAttackersCount_size, <- size_dom.
    apply subseteq_size. intros e He.
    apply elem_of_dom in He as [x Hx].
    by apply map_lookup_filter_Some in Hx as (_ & _ & _ & ?).
  - intros enemyId. rewrite !getAttackersCount_size.
    cbn [AIBlackboard.assignedTargets AIBlackboard.attackingEnemies
         AIBlackboard.markAsAttacking AIBlackboard.markAsNotAttacking
         AIBlackboard.with_attackingEnemies].
    split; f_equal; apply map_filter_ext; intros e x _; cbn [fst snd];
      rewrite ?elem_of_union, ?elem_of_difference, ?elem_of_singleton;
      split; intros (Hx & Hne & He); (split; [done|]); (split; [done|]).
    + destruct He as [He| ->]; [done|]. by destruct Hne.
    + by left.
    + by destruct He.
    + split; [done|]. intros ->. by destruct Hne.
Qed.

(** ** The order of the flanking candidates *)

Lemma insertByKey_perm {A} (key : A → Z) (a : A) (l : list A) :
  AIBlackboard.insertByKey key a l ≡ₚ a :: l.
Proof.
  induction l as [|b l IH]; [done|]. cbn [AIBlackboard.insertByKey].
  destruct (key b <=? key a); [|done].
  rewrite IH. apply Permutation_swap.
Qed.

Lemma insertByKey_sorted {A} (key : A → Z) (a : A) (l : list A) :
  StronglySorted (λ x y, key x ≤ key y) l →
  StronglySorted (λ x y, key x ≤ key y) (AIBlackboard.insertByKey key a l).
Proof.
  induction 1 as [|b l Hl IH Hb]; cbn [AIBlackboard.insertByKey].
  - by repeat constructor.
  - destruct (Z.leb_spec (key b) (key a)) as [Hle|Hgt].
    + constructor; [done|].
      rewrite Forall_forall in *. intros x Hx.
      rewrite insertByKey_perm in Hx.
      apply elem_of_cons in Hx as [->|Hx]; [done|].
      by apply Hb.
    + constructor; [by constructor|].
      constructor; [lia|]. rewrite Forall_forall in *.
      intros x Hx. specialize (Hb x Hx). lia.
Qed.

Lemma sortByKey_spec {A} (key : A → Z) (l : list A) :
  AIBlackboard.sortByKey key l ≡ₚ l ∧
  StronglySorted (λ x y, key x ≤ key y) (AIBlackboard.sortByKey key l).
Proof.
  unfold AIBlackboard.sortByKey.
  assert (∀ acc, StronglySorted (λ x y, key x ≤ key y) acc →
            foldl (λ acc a, AIBlackboard.insertByKey key a acc) acc l
              ≡ₚ acc ++ l ∧
            StronglySorted (λ x y, key x ≤ key y)
              (foldl (λ acc a, AIBlackboard.insertByKey key a acc) acc l))
    as H; [|apply H; constructor].
  induction l as [|a l IH]; intros acc Hacc; cbn [foldl].
  - by rewrite app_nil_r.
  - destruct (IH (AIBlackboard.insertByKey key a acc)) as [Hp Hs];
      [by apply insertByKey_sorted|].
    split; [|done]. rewrite Hp, insertByKey_perm.
    cbn [app]. apply Permutation_middle.
Qed.

(** In a sorted list the keys grow with the index. *)
Lemma sorted_lookup {A} (key : A → Z) (l : list A) (i j : nat) (a b : A) :
  StronglySorted (λ x y, key x ≤ key y) l →
  (i < j)%nat → l !! i = Some a → l !! j = Some b → key a ≤ key b.
Proof.
  intros Hs. revert i j. induction Hs as [|c l Hl IH Hc]; intros i j Hij Ha Hb;
    [done|].
  destruct j as [|j]; [lia|]. cbn in Hb. destruct i as [|i].
  - cbn in Ha. injection Ha as ->. rewrite Forall_forall in Hc.
    apply Hc. by eapply list_elem_of_lookup_2.
  - cbn in Ha. apply (IH i j); [lia|done..].
Qed.

(** X24: for a player that faces up, down, left or right, and candidates
    on the four sides, [_prioritizeFlankingPositions] returns the
    candidates in another order, in which a candidate behind the player
    comes before every candidate that is not behind it, and a candidate
    in front of the player after every candidate that is not in front
    of it. *)
Theorem prioritizeFlankingPositions_back_first positions playerDirection
    behind front :
  (playerDirection, behind, front)
    ∈ [("up", "bottom", "top"); ("down", "top", "bottom");
       ("left", "right", "left"); ("right", "left", "right")] →
  (∀ p, p ∈ positions →
        AIBlackboard.side p ∈ ["left"; "right"; "top"; "bottom"]) →
  let sorted :=
    AIBlackboard._prioritizeFlankingPositions positions playerDirection in
  sorted ≡ₚ positions ∧
  ∀ i j a b, (i < j)%nat → sorted !! i = Some a → sorted !! j = Some b →
    (AIBlackboard.side b = behind → AIBlackboard.side a = behind) ∧
    (AIBlackboard.side a = front → AIBlackboard.side b = front).
Proof.
  intros Hdir Hsides. cbn zeta.
  assert (∀ priority,
            (∀ s, s ∈ ["left"; "right"; "top"; "bottom"] →
                  0 ≤ AIBlackboard.indexOf s priority ≤ 3 ∧
                  (AIBlackboard.indexOf s priority = 0 → s = behind) ∧
                  (AIBlackboard.indexOf s priority = 3 → s = front)) →
            AIBlackboard.indexOf behind priority = 0 →
            AIBlackboard.indexOf front priority = 3 →
            let sorted :=
              AIBlackboard.sortByKey
                (λ a, AIBlackboard.indexOf (AIBlackboard.side a) priority)
                positions in
            sorted ≡ₚ positions ∧
            ∀ i j a b, (i < j)%nat → sorted !! i = Some a → sorted !! j = Some b →
              (AIBlackboard.side b = behind → AIBlackboard.side a = behind) ∧
              (AIBlackboard.side a = front → AIBlackboard.side b = front))
    as Hgen.
  { intros priority Hkeys Hbehind Hfront. cbn zeta.
    destruct (sortByKey_spec
                (λ a, AIBlackboard.indexOf (AIBlackboard.side a) priority)
                positions) as [Hperm Hsorted].
    split; [done|]. intros i j a b Hij Ha Hb.
    pose proof (sorted_lookup _ _ i j a b Hsorted Hij Ha Hb) as Hle.
    cbn beta in Hle.
    assert (a ∈ positions) as Hapos
      by (rewrite <- Hperm; by eapply list_elem_of_lookup_2).
    assert (b ∈ positions) as Hbpos
      by (rewrite <- Hperm; by eapply list_elem_of_lookup_2).
    destruct (Hkeys _ (Hsides a Hapos)) as (Ha03 & Ha0 & Ha3).
    destruct (Hkeys _ (Hsides b Hbpos)) as (Hb03 & Hb0 & Hb3).
    split.
    - intros E. rewrite E, Hbehind in Hle. apply Ha0. lia.
    - intros E. rewrite E, Hfront in Hle. apply Hb3. lia. }
  repeat (apply elem_of_cons in Hdir as [[= -> -> ->]|Hdir]);
    [| | | |by apply elem_of_nil in Hdir];
    apply Hgen; try reflexivity;
    intros s Hs;
    repeat (apply elem_of_cons in Hs as [->|Hs]);
    try (by apply elem_of_nil in Hs);
    (split; [by vm_compute|split; by vm_compute]).
Qed.

(** * Properties of the controller *)

(** ** Registration with the blackboard *)

(** Two blackboards with the same fields. *)
Lemma blackboard_ext (b b' : AIBlackboard.t) :
  AIBlackboard.playerLastKnownPosition b = AIBlackboard.playerLastKnownPosition b' →
  AIBlackboard.playerLastSeenTime b = AIBlackboard.playerLastSeenTime b' →
  AIBlackboard.playerVelocity b = AIBlackboard.playerVelocity b' →
  AIBlackboard.playerDirection b = AIBlackboard.playerDirection b' →
  AIBlackboard.assignedTargets b = AIBlackboard.assignedTargets b' →
  AIBlackboard.targetAssignmentCooldown b = AIBlackboard.targetAssignmentCooldown b' →
  AIBlackboard.flankingPositions b = AIBlackboard.flankingPositions b' →
  AIBlackboard.occupiedPositions b = AIBlackboard.occupiedPositions b' →
  AIBlackboard.threatLevel b = AIBlackboard.threatLevel b' →
  AIBlackboard.dangerZones b = AIBlackboard.dangerZones b' →
  AIBlackboard.activeEnemyCount b = AIBlackboard.activeEnemyCount b' →
  AIBlackboard.enemyPositions b = AIBlackboard.enemyPositions b' →
  AIBlackboard.attackingEnemies b = AIBlackboard.attackingEnemies b' →
  AIBlackboard.patrolPoints b = AIBlackboard.patrolPoints b' →
  AIBlackboard.assignedPatrolPoints b = AIBlackboard.assignedPatrolPoints b' →
  AIBlackboard.patrolPointsNeedValidation b = AIBlackboard.patrolPointsNeedValidation b' →
  AIBlackboard.config b = AIBlackboard.config b' →
  b = b'.
Proof. destruct b, b'. cbn. by intros -> -> -> -> -> -> -> -> -> -> -> -> -> -> -> -> ->. Qed.

(** X25: a controller that coordinates with its team registers with a
    target and with the position of its tank; with the priority of a
    tank type that is not a name of [Object.prototype], it prefers the
    player unless its tank is of the type FAST.  A controller that does
    not coordinate leaves the blackboard as it is.  On a blackboard that
    holds nothing for the controller, unregistering after registering
    gives back the blackboard as it was, whatever the priority. *)
Theorem register_then_unregister scene id tk priority enabled b :
  (EnemyAI.type tk ∉ JS.objectPrototypeNames →
   let preferred :=
     if String.eqb (EnemyAI.type tk) "FAST" then "base" else "player" in
   ∃ b', EnemyAI._registerToBlackboard scene id tk
           (EnemyAI._determineTargetPriority (EnemyAI.type tk)) true (Some b)
         = Some b' ∧
         AIBlackboard.assignedTargets b' !! id
         = Some (AIBlackboard.assignTarget id preferred b).1 ∧
         AIBlackboard.enemyPositions b' !! id
         = Some (AIBlackboard.mkTimed (EnemyAI.tank_x tk) (EnemyAI.tank_y tk)
                   (AIBlackboard.time_now scene))) ∧
  EnemyAI._registerToBlackboard scene id tk priority false (Some b) = Some b ∧
  (AIBlackboard.assignedTargets b !! id = None →
   AIBlackboard.flankingPositions b !! id = None →
   AIBlackboard.assignedPatrolPoints b !! id = None →
   AIBlackboard.enemyPositions b !! id = None →
   id ∉ AIBlackboard.attackingEnemies b →
   EnemyAI.unregisterFromBlackboard id
     (EnemyAI._registerToBlackboard scene id tk priority enabled (Some b))
   = Some b).
Proof.
  assert ((if JS.lt (1 # 2)
                (EnemyAI.priority_player
                   (EnemyAI._determineTargetPriority (EnemyAI.type tk)))
           then "player" else "base")
          = if String.eqb (EnemyAI.type tk) "FAST" then "base" else "player")
    as Hpref.
  { unfold EnemyAI._determineTargetPriority.
    destruct (String.eqb_spec (EnemyAI.type tk) "BASIC") as [->|_]; [done|].
    destruct (String.eqb (EnemyAI.type tk) "FAST"); [done|].
    destruct (String.eqb (EnemyAI.type tk) "POWER"); [done|].
    by destruct (String.eqb (EnemyAI.type tk) "ARMOR"). }
  split; [|split; [done|]].
  - intros _. cbn zeta. eexists. split; [done|]. rewrite Hpref.
    unfold AIBlackboard.assignTarget.
    destruct (AIBlackboard.targetCounts _) as [playerTargetCount baseTargetCount].
    simpl. by rewrite !lookup_insert_eq.
  - intros Ht Hf Hp He Ha.
    unfold EnemyAI._registerToBlackboard, EnemyAI.unregisterFromBlackboard.
    destruct enabled; f_equal; apply blackboard_ext; try reflexivity;
      try (unfold AIBlackboard.assignTarget;
           destruct (AIBlackboard.targetCounts _)
             as [playerTargetCount baseTargetCount]);
      simpl; try reflexivity;
      try (by apply delete_insert_id); try (by apply delete_id);
      apply difference_disjoint_L; by apply disjoint_singleton_r.
Qed.

(** ** The choice of the target *)

Section Selection.
Context {Ctx : Type}.
Implicit Types (ai : EnemyAI.t Ctx).

(** X26: [_selectTarget] changes the current target only.  A target it
    leaves is an object of the scene that is not destroyed, and it
    leaves no target exactly when neither the player nor the base is
    such an object. *)
Theorem selectTarget_live random playerObj baseObj ai :
  let ai' := EnemyAI._selectTarget random playerObj baseObj ai in
  let available (o : option EnemyAI.Entity) :=
    match o with Some e => EnemyAI.notDestroyed e | None => false end in
  ai' = EnemyAI.with_currentTarget (EnemyAI.currentTarget ai') ai ∧
  (∀ tk, EnemyAI.currentTarget ai' = Some tk →
         available (EnemyAI.targetObject tk playerObj baseObj) = true) ∧
  (EnemyAI.currentTarget ai' = None ↔
   available playerObj = false ∧ available baseObj = false).
Proof.
  cbn zeta. unfold EnemyAI._selectTarget.
  set (available := λ o : option EnemyAI.Entity,
         match o with Some e => EnemyAI.notDestroyed e | None => false end).
  change (match playerObj with
          | Some p => EnemyAI.notDestroyed p | None => false end)
    with (available playerObj).
  change (match baseObj with
          | Some b => EnemyAI.notDestroyed b | None => false end)
    with (available baseObj).
  set (keepDrawn := match EnemyAI.currentTarget ai with
                    | Some tk => _ | None => false end).
  assert (keepDrawn = true →
          ∃ tk, EnemyAI.currentTarget ai = Some tk ∧
                available (EnemyAI.targetObject tk playerObj baseObj) = true)
    as Hkeep.
  { unfold keepDrawn. destruct (EnemyAI.currentTarget ai) as [tk|]; [|done].
    intros H. by exists tk. }
  cbn zeta.
  destruct (keepDrawn && JS.lt (random 0%nat) (8 # 10)) eqn:E.
  - apply andb_prop in E as [Hk _]. destruct (Hkeep Hk) as (tk & Htk & Hav).
    split; [by destruct ai|]. split.
    + intros tk' Htk'. rewrite Htk in Htk'. by injection Htk' as <-.
    + rewrite Htk. split; [done|]. intros [Hp Hb].
      destruct tk; cbn in Hav; congruence.
  - destruct (available playerObj) eqn:Hp, (available baseObj) eqn:Hb;
      cbn [negb andb].
    + destruct (JS.lt (random _) (EnemyAI.priority_player _)); cbn; (split; [done|]);
        (split; [by intros tk [= <-]|]); split; [done|by intros [? ?]|done|by intros [? ?]].
    + cbn. split; [done|]. split; [by intros tk [= <-]|].
      split; [done|by intros [? ?]].
    + cbn. split; [done|]. split; [by intros tk [= <-]|].
      split; [done|by intros [? ?]].
    + cbn. split; [done|]. split; [done|]. done.
Qed.
End Selection.

(** ** The terrain ahead of the tank *)

(** A whole number of tiles further on. *)
Lemma Qfloor_shift (q : Q) (z : Z) :
  Qfloor ((q + inject_Z z * Constants.TILE_SIZE) / Constants.TILE_SIZE)
  = Qfloor (q / Constants.TILE_SIZE) + z.
Proof.
  unfold Constants.TILE_SIZE.
  destruct (Qfloor_bounds (q / 32)) as [Hlo Hhi].
  assert ((q + inject_Z z * 32) / 32 == q / 32 + inject_Z z)%Q as E by field.
  rewrite (Qfloor_comp _ _ E).
  apply Qfloor_between; rewrite ?inject_Z_plus;
    change (inject_Z 1) with 1%Q; lra.
Qed.

(** X27: a direction is safe for the controller exactly when the cell
    ahead of the cell of the tank is one the path search can walk on
    and is not the base; the cell ahead is then a neighbour that the
    path search offers for the cell of the tank.  Without a map every
    direction is safe. *)
Theorem isDirectionSafe_ahead tk direction map :
  let here : cell :=
    (Qfloor (EnemyAI.tank_x tk / Constants.TILE_SIZE),
     Qfloor (EnemyAI.tank_y tk / Constants.TILE_SIZE)) in
  let ahead : cell :=
    (here.1 + (GridMovement.vector direction).1,
     here.2 + (GridMovement.vector direction).2) in
  (EnemyAI._isDirectionSafe tk direction (Some map) = true ↔
   isWalkable ahead map = true ∧ tileAt ahead map ≠ Some Constants.BASE) ∧
  (EnemyAI._isDirectionSafe tk direction (Some map) = true →
   ahead ∈ getNeighbors here map) ∧
  EnemyAI._isDirectionSafe tk direction None = true.
Proof.
  cbn zeta. cbn [fst snd].
  set (hx := Qfloor (EnemyAI.tank_x tk / Constants.TILE_SIZE)).
  set (hy := Qfloor (EnemyAI.tank_y tk / Constants.TILE_SIZE)).
  set (ax := hx + (GridMovement.vector direction).1).
  set (ay := hy + (GridMovement.vector direction).2).
  assert (EnemyAI._isDirectionSafe tk direction (Some map) = true ↔
          isWalkable (ax, ay) map = true ∧
          tileAt (ax, ay) map ≠ Some Constants.BASE) as Hiff.
  { unfold EnemyAI._isDirectionSafe. cbn zeta. rewrite !Qfloor_shift.
    fold hx hy ax ay.
    unfold isWalkable, isValidNode. cbn [fst snd].
    unfold Constants.EMPTY, Constants.ICE, Constants.FOREST, Constants.BASE.
    destruct (Z.ltb_spec ay 0), (Z.leb_spec (Z.of_nat (length map)) ay),
      (Z.ltb_spec ax 0), (Z.leb_spec (Z.of_nat (length (nth 0 map []))) ax),
      (Z.leb_spec 0 ax), (Z.ltb_spec ax (Z.of_nat (length (nth 0 map [])))),
      (Z.leb_spec 0 ay), (Z.ltb_spec ay (Z.of_nat (length map)));
      try lia; cbn [orb andb negb]; try (split; [done|by intros [? _]]).
    destruct (tileAt (ax, ay) map) as [tile|];
      [|split; [done|by intros [? _]]].
    rewrite !orb_true_iff, !Z.eqb_eq. split.
    - intros [[?|?]|?]; (split; [tauto|]); intros [= ?]; lia.
    - intros [[[[?|?]|?]|?] Hb]; try tauto. destruct Hb. by f_equal. }
  split; [exact Hiff|]. split; [|done].
  intros Hsafe. apply Hiff in Hsafe as [Hw _].
  apply elem_of_getNeighbors. split; [|done].
  unfold adjacent, heuristic. cbn [fst snd]. unfold ax, ay.
  destruct direction; cbn; lia.
Qed.

(** ** The line of sight *)










(** ** The legs of a simplified path *)

(** Two neighbours in a list with one more element at its end. *)
Lemma lookup_snoc_pair {A} (l : list A) (z : A) (i : nat) (u v : A) :
  (l ++ [z]) !! i = Some u → (l ++ [z]) !! S i = Some v →
  (l !! i = Some u ∧ l !! S i = Some v) ∨ (last l = Some u ∧ v = z).
Proof.
  intros Hu Hv. destruct (decide (S i < length l)%nat) as [Hlt|Hge].
  - left. rewrite !lookup_app_l in Hu, Hv by lia. done.
  - right. assert (S i = length l) as Hi.
    { apply lookup_lt_Some in Hv. rewrite length_app in Hv. simpl in Hv. lia. }
    rewrite lookup_app_l in Hu by lia.
    rewrite Hi, lookup_app_r, Nat.sub_diag in Hv by lia.
    injection Hv as <-. split; [|done].
    rewrite last_lookup. by replace (pred (length l)) with i by lia.
Qed.

(** The stretch since the last waypoint that was kept is straight. *)
Lemma straight_so_far (path before run after : list waypoint)
    (lastDirection : option (Z * Z)) (u v : waypoint) :
  path = before ++ run ++ after →
  head run = Some u → last run = Some v →
  (∀ j a b, run !! j = Some a → run !! S j = Some b →
            Some (travel a b) = lastDirection) →
  straightRun path u v.
Proof.
  intros Hpath Hu Hv Hdir.
  exists before, run, after, (default (0, 0) lastDirection).
  split; [done|]. split; [done|]. split; [done|].
  intros j a b Ha Hb. by rewrite <- (Hdir j a b Ha Hb).
Qed.

Lemma simplifyLoop_legs (path : list waypoint) prev rest lastDirection
    simplified before run pn :
  path = before ++ run ++ rest →
  last run = Some prev →
  head run = last simplified →
  (∀ j a b, run !! j = Some a → run !! S j = Some b →
            Some (travel a b) = lastDirection) →
  (∀ i u v, simplified !! i = Some u → simplified !! S i = Some v →
            straightRun path u v) →
  last (prev :: rest) = Some pn →
  ∀ i u v,
    (simplifyLoop prev rest lastDirection simplified ++ [pn]) !! i = Some u →
    (simplifyLoop prev rest lastDirection simplified ++ [pn]) !! S i = Some v →
    straightRun path u v.
Proof.
  revert prev lastDirection simplified before run.
  induction rest as [|curr rest IH];
    intros prev lastDirection simplified before run Hpath Hlast Hhead Hdir
      Hlegs Hpn.
  - cbn [simplifyLoop]. cbn in Hpn. injection Hpn as <-.
    intros i u v Hu Hv.
    destruct (lookup_snoc_pair _ _ _ _ _ Hu Hv) as [[? ?]|[Hs ->]];
      [by eapply Hlegs|].
    eapply straight_so_far; [done| |done..]. by rewrite Hhead.
  - assert (last (curr :: rest) = Some pn) as Hpn' by done.
    assert (∃ run0, run = run0 ++ [prev]) as (run0 & ->).
    { destruct run as [|r0 run _] using rev_ind; [done|].
      rewrite last_snoc in Hlast. injection Hlast as ->. by eexists. }
    cbn [simplifyLoop]. fold (travel prev curr). case_bool_decide as Hturn.
    + apply (IH curr _ _ (before ++ run0) [prev; curr]); try done.
      * rewrite Hpath. by rewrite <- !app_assoc.
      * by rewrite last_snoc.
      * intros [|[|j]] a b Ha Hb; cbn in Ha, Hb; try done.
        injection Ha as <-. by injection Hb as <-.
      * intros i u v Hu Hv.
        destruct (lookup_snoc_pair _ _ _ _ _ Hu Hv) as [[? ?]|[Hs ->]];
          [by eapply Hlegs|].
        eapply straight_so_far; [done| |by rewrite last_snoc|done].
        by rewrite Hhead.
    + apply (IH curr _ _ before ((run0 ++ [prev]) ++ [curr])); try done.
      * rewrite Hpath. by rewrite <- !app_assoc.
      * by rewrite last_snoc.
      * rewrite <- Hhead. by destruct run0.
      * intros j a b Ha Hb.
        destruct (lookup_snoc_pair _ _ _ _ _ Ha Hb) as [[? ?]|[Hs ->]];
          [by eapply Hdir|].
        rewrite last_snoc in Hs. by injection Hs as <-.
Qed.

(** Two waypoints that follow one another in a simplified path are the
    ends of a straight stretch of the path. *)
Lemma simplifyPath_legs (path : list waypoint) (i : nat) (u v : waypoint) :
  simplifyPath path !! i = Some u → simplifyPath path !! S i = Some v →
  straightRun path u v.
Proof.
  unfold simplifyPath. destruct (length path <=? 2)%nat eqn:Elen.
  - apply Nat.leb_le in Elen. intros Hu Hv.
    destruct path as [|p0 [|p1 [|p2 path]]]; try done; [|simpl in Elen; lia].
    destruct i as [|i]; [|done]. cbn in Hu, Hv.
    injection Hu as <-. injection Hv as <-.
    exists [], [p0; p1], [], (travel p0 p1).
    split; [done|]. split; [done|]. split; [done|].
    intros [|[|j]] a b Ha Hb; cbn in Ha, Hb; try done.
    injection Ha as <-. by injection Hb as <-.
  - destruct path as [|p0 rest]; [done|].
    destruct (last (p0 :: rest)) as [pn|] eqn:El; [|by apply last_None in El].
    apply (simplifyLoop_legs (p0 :: rest) p0 rest None [p0] [] [p0] pn);
      done.
Qed.

(** ** The legs of a planned route *)

(** [Math.sign] by cases. *)
Lemma JS_sign_spec (q : Q) :
  ((q < 0)%Q ∧ JS.sign q = -1) ∨ ((q == 0)%Q ∧ JS.sign q = 0) ∨
  ((0 < q)%Q ∧ JS.sign q = 1).
Proof.
  unfold JS.sign. destruct (q ?= 0)%Q eqn:E.
  - right. left. split; [|done]. by apply Qeq_alt.
  - left. split; [|done]. by apply Qlt_alt.
  - right. right. split; [|done]. by apply Qgt_alt.
Qed.

(** The sign of a step of one tile, or none, along an axis. *)
Lemma sign_step (tileSize q : Q) (delta : Z) :
  ¬ (tileSize == 0)%Q → -1 ≤ delta ≤ 1 →
  (q == inject_Z delta * tileSize)%Q →
  JS.sign q = JS.sign tileSize * delta ∧
  (JS.sign tileSize = 1 ∨ JS.sign tileSize = -1).
Proof.
  intros Hts Hdelta E.
  assert (delta = -1 ∨ delta = 0 ∨ delta = 1) as [-> |[-> | ->]] by lia;
    [change (inject_Z (-1)) with (-1)%Q in E
    |change (inject_Z 0) with 0%Q in E
    |change (inject_Z 1) with 1%Q in E];
    destruct (JS_sign_spec q) as [[Hq ->]|[[Hq ->]|[Hq ->]]];
    destruct (JS_sign_spec tileSize) as [[Ht ->]|[[Ht ->]|[Ht ->]]];
    try done; try lra; (split; [done|]); auto.
Qed.

(** Between the centres of two cells next to one another, the direction
    of travel tells the step from the one cell to the other. *)
Lemma travel_step (tileSize : Q) (a b a' b' : waypoint) :
  ¬ (tileSize == 0)%Q →
  (∀ w, w ∈ [a; b; a'; b'] →
        x w = (inject_Z (gridX w) * tileSize + tileSize / 2)%Q ∧
        y w = (inject_Z (gridY w) * tileSize + tileSize / 2)%Q) →
  adjacent (waypoint_cell a) (waypoint_cell b) →
  adjacent (waypoint_cell a') (waypoint_cell b') →
  travel a b = travel a' b' →
  gridX b - gridX a = gridX b' - gridX a' ∧
  gridY b - gridY a = gridY b' - gridY a'.
Proof.
  intros Hts Hc Hadj Hadj' Ht.
  unfold adjacent, heuristic, waypoint_cell in Hadj, Hadj'.
  cbn [fst snd] in Hadj, Hadj'.
  assert (∀ u v, u ∈ [a; b; a'; b'] → v ∈ [a; b; a'; b'] →
            -1 ≤ gridX v - gridX u ≤ 1 → -1 ≤ gridY v - gridY u ≤ 1 →
            travel u v = (JS.sign tileSize * (gridX v - gridX u),
                          JS.sign tileSize * (gridY v - gridY u))) as Hstep.
  { intros u v Hu Hv Hx Hy. unfold travel.
    destruct (Hc u Hu) as [-> ->]. destruct (Hc v Hv) as [-> ->].
    f_equal; apply sign_step; try done;
      rewrite <- Z.add_opp_r, inject_Z_plus, inject_Z_opp; field. }
  rewrite (Hstep a b), (Hstep a' b') in Ht;
    [|repeat constructor|repeat constructor|lia|lia
     |repeat constructor|repeat constructor|lia|lia].
  injection Ht as Hx Hy.
  destruct (sign_step tileSize 0 0 Hts) as [_ [Hs|Hs]];
    [lia|change (inject_Z 0) with 0%Q; lra| |];
    rewrite Hs in Hx, Hy; lia.
Qed.

(** The cells of a stretch with one step from each waypoint to the
    next. *)
Lemma straight_cells (run : list waypoint) (u : waypoint) (delta : Z * Z) :
  head run = Some u →
  (∀ j a b, run !! j = Some a → run !! S j = Some b →
            gridX b - gridX a = delta.1 ∧ gridY b - gridY a = delta.2) →
  ∀ j w, run !! j = Some w →
         gridX w = gridX u + Z.of_nat j * delta.1 ∧
         gridY w = gridY u + Z.of_nat j * delta.2.
Proof.
  intros Hu Hstep j. induction j as [|j IH]; intros w Hw.
  - rewrite <- head_lookup, Hu in Hw. injection Hw as <-. lia.
  - destruct (run !! j) as [a|] eqn:Ha.
    2:{ apply lookup_ge_None in Ha. apply lookup_lt_Some in Hw. lia. }
    destruct (IH a eq_refl) as [Hx Hy].
    destruct (Hstep j a w Ha Hw) as [Hdx Hdy]. lia.
Qed.

(** Two waypoints that follow one another in a returned path lie on
    cells next to one another. *)
Lemma findPath_adjacent start goal map tileSize path i a b :
  findPath start goal map tileSize = Some (Path path) →
  path !! i = Some a → path !! S i = Some b →
  adjacent (waypoint_cell a) (waypoint_cell b).
Proof.
  intros H Ha Hb.
  destruct (findPath_Path _ _ _ _ _ H) as (_ & _ & n & Hok & _ & ->).
  destruct (reconstructPath_cells _ _ _ n tileSize Hok)
    as (rest & Hrest & _ & Hw & _ & _).
  apply (walk_adjacent map (cellOf start tileSize) rest (S i)); [done| |].
  - simpl. rewrite <- Hrest, list_lookup_fmap, Ha. done.
  - simpl. rewrite <- Hrest, list_lookup_fmap, Hb. done.
Qed.

(** X30: a route is planned by [findPath] and shortened by
    [simplifyPath].  Two waypoints that follow one another in the
    shortened route lie in one row or in one column of cells, and every
    cell from the one to the other is a cell that can be walked on. *)
Theorem simplified_route_legs start goal map tileSize path i u v :
  findPath start goal map tileSize = Some (Path path) →
  simplifyPath path !! i = Some u →
  simplifyPath path !! S i = Some v →
  (gridX u = gridX v ∨ gridY u = gridY v) ∧
  ∀ c : cell,
    gridX u `min` gridX v ≤ c.1 ≤ gridX u `max` gridX v →
    gridY u `min` gridY v ≤ c.2 ≤ gridY u `max` gridY v →
    isWalkable c map = true.
Proof.
  intros Hfind Hu Hv.
  assert (¬ (tileSize == 0)%Q) as Hts.
  { intros E. apply Qeq_bool_iff in E.
    unfold findPath, findPath_fuel in Hfind. rewrite E in Hfind.
    by destruct (_ && _). }
  destruct (simplifyPath_legs path i u v Hu Hv)
    as (before & run & after & d & -> & Hhead & Hlast & Hdir).
  assert (∀ j w, run !! j = Some w →
            (before ++ run ++ after) !! (length before + j)%nat = Some w)
    as Hin.
  { intros j w Hw. rewrite lookup_app_r by lia.
    replace (length before + j - length before)%nat with j by lia.
    by apply lookup_app_l_Some. }
  assert (∀ j w, run !! j = Some w →
            isWalkable (waypoint_cell w) map = true ∧
            x w = (inject_Z (gridX w) * tileSize + tileSize / 2)%Q ∧
            y w = (inject_Z (gridY w) * tileSize + tileSize / 2)%Q) as Hway.
  { intros j w Hw. apply (findPath_waypoint _ _ _ _ _ w Hfind).
    by eapply list_elem_of_lookup_2, Hin. }
  assert (∀ j a b, run !! j = Some a → run !! S j = Some b →
            adjacent (waypoint_cell a) (waypoint_cell b)) as Hadj.
  { intros j a b Ha Hb.
    apply (findPath_adjacent _ _ _ _ _ (length before + j) a b Hfind);
      [by apply Hin|].
    replace (S (length before + j)) with (length before + S j)%nat by lia.
    by apply Hin. }
  assert (∃ delta : Z * Z,
            Z.abs delta.1 + Z.abs delta.2 = 1 ∧
            ∀ j a b, run !! j = Some a → run !! S j = Some b →
                     gridX b - gridX a = delta.1 ∧
                     gridY b - gridY a = delta.2) as (delta & Hunit & Hstep).
  { destruct run as [|r0 [|r1 run]].
    - exists (1, 0). split; [done|]. by intros j a b Ha.
    - exists (1, 0). split; [done|]. intros [|j] a b Ha Hb; by cbn in Hb.
    - exists (gridX r1 - gridX r0, gridY r1 - gridY r0).
      pose proof (Hadj 0%nat r0 r1 eq_refl eq_refl) as H01.
      split.
      { unfold adjacent, heuristic, waypoint_cell in H01.
        cbn [fst snd] in *. lia. }
      intros j a b Ha Hb. cbn [fst snd].
      apply (travel_step tileSize a b r0 r1); [done| |by eapply Hadj|done|].
      + intros w Hw.
        assert (∃ k, (r0 :: r1 :: run) !! k = Some w) as [k Hk].
        { repeat (apply elem_of_cons in Hw as [->|Hw]);
            [by exists j|by exists (S j)|by exists 0%nat|by exists 1%nat
            |by apply elem_of_nil in Hw]. }
        by destruct (Hway k w Hk) as (_ & ? & ?).
      + rewrite (Hdir j a b Ha Hb). symmetry. by apply (Hdir 0%nat). }
  pose proof (straight_cells run u delta Hhead Hstep) as Hcells.
  assert (∃ n, run !! n = Some v ∧ length run = S n) as (n & Hn & Hlen).
  { rewrite last_lookup in Hlast. exists (pred (length run)).
    split; [done|]. apply lookup_lt_Some in Hlast. lia. }
  destruct (Hcells n v Hn) as [Hvx Hvy].
  assert ((delta.1 = 1 ∧ delta.2 = 0) ∨ (delta.1 = -1 ∧ delta.2 = 0) ∨
          (delta.1 = 0 ∧ delta.2 = 1) ∨ (delta.1 = 0 ∧ delta.2 = -1))
    as Hdelta by lia.
  split; [destruct Hdelta as [[E1 E2]|[[E1 E2]|[[E1 E2]|[E1 E2]]]];
          rewrite E1 in Hvx; rewrite E2 in Hvy; lia|].
  intros [cx cy] Hcx Hcy. cbn [fst snd] in Hcx, Hcy.
  assert (∃ j, (j ≤ n)%nat ∧
               cx = gridX u + Z.of_nat j * delta.1 ∧
               cy = gridY u + Z.of_nat j * delta.2) as (j & Hj & -> & ->).
  { exists (Z.to_nat (Z.abs (cx - gridX u) + Z.abs (cy - gridY u))).
    destruct Hdelta as [[E1 E2]|[[E1 E2]|[[E1 E2]|[E1 E2]]]];
      rewrite E1 in *; rewrite E2 in *; lia. }
  assert (is_Some (run !! j)) as [w Hw]
    by (apply lookup_lt_is_Some_2; lia).
  destruct (Hcells j w Hw) as [Hwx Hwy].
  destruct (Hway j w Hw) as (Hwalk & _).
  unfold waypoint_cell in Hwalk. by rewrite Hwx, Hwy in Hwalk.
Qed.

(** * Further instances *)

(** On [grid43]: the way from the top left cell to the base in the
    bottom left cell leads around the steel tile, and the returned path
    is no longer than this walk of six steps. *)
Lemma findPath_shortest_witness :
  ∃ path, findPath (Examples.centre 0 0) (Examples.centre 0 2)
            Examples.grid43 32 = Some (Path path) ∧
          (length path ≤ 6)%nat.
Proof.
  destruct (findPath (Examples.centre 0 0) (Examples.centre 0 2)
              Examples.grid43 32) as [[| |path]|] eqn:E;
    try (by vm_compute in E).
  exists path. split; [reflexivity|].
  apply (findPath_shortest (Examples.centre 0 0) (Examples.centre 0 2)
           Examples.grid43 32 path
           [(1, 0); (2, 0); (2, 1); (2, 2); (1, 2); (0, 2)] E).
  - vm_compute. repeat split; repeat constructor.
  - reflexivity.
Defined.

(** On [grid43]: no walk leads from the top left cell to the water tile,
    and [findPath] returns [null] for it. *)
Lemma findPath_null_iff_unreachable_witness :
  findPath (Examples.centre 0 0) (Examples.centre 3 2) Examples.grid43 32
  = Some Null ∧
  ¬ reachable Examples.grid43 (0, 0) (3, 2).
Proof.
  assert (¬ (32 == 0)%Q) as Hts by discriminate.
  assert (isValidNode (cellOf (Examples.centre 0 0) 32) Examples.grid43 = true)
    as Hs by reflexivity.
  pose proof (findPath_null_iff_unreachable (Examples.centre 0 0)
                (Examples.centre 3 2) Examples.grid43 32 Hts Hs) as [H _].
  split; [reflexivity|]. apply H. reflexivity.
Defined.

(** On [grid43]: the path along the top row ends on the goal cell. *)
Lemma findPath_ends_on_goal_witness :
  waypoint_cell (Examples.waypointAt 2 0) = (2, 0).
Proof.
  assert (findPath (Examples.centre 0 0) (Examples.centre 2 0)
            Examples.grid43 32
          = Some (Path [Examples.waypointAt 1 0; Examples.waypointAt 2 0]))
    as E by (vm_compute; reflexivity).
  destruct (findPath_ends_on_goal _ _ _ _ _ E) as [_ H].
  apply (H (Examples.waypointAt 2 0)). reflexivity.
Defined.

(** On [grid43]: the first waypoint of the path along the top row is the
    centre (48, 16) of the cell (1, 0). *)
Lemma findPath_waypoints_centred_witness :
  x (Examples.waypointAt 1 0) = (inject_Z 1 * 32 + 32 / 2)%Q ∧
  cellOf (mkPoint (x (Examples.waypointAt 1 0)) (y (Examples.waypointAt 1 0)))
         32 = (1, 0).
Proof.
  assert (findPath (Examples.centre 0 0) (Examples.centre 2 0)
            Examples.grid43 32
          = Some (Path [Examples.waypointAt 1 0; Examples.waypointAt 2 0]))
    as E by (vm_compute; reflexivity).
  assert (Examples.waypointAt 1 0
          ∈ [Examples.waypointAt 1 0; Examples.waypointAt 2 0]) as Hin
    by (by left).
  destruct (findPath_waypoints_centred _ _ _ _ _ _ E Hin) as (Hx & _ & Hc).
  split; [exact Hx|exact Hc].
Defined.

(** On [grid43]: a tank fits on the first waypoint of the path along the
    top row. *)
Lemma findPath_waypoints_fit_witness :
  GridMovement.isPositionWalkable (x (Examples.waypointAt 1 0))
    (y (Examples.waypointAt 1 0)) (Some Examples.grid43) = true.
Proof.
  apply (findPath_waypoints_fit (Examples.centre 0 0) (Examples.centre 2 0)
           Examples.grid43
           [Examples.waypointAt 1 0; Examples.waypointAt 2 0]).
  - vm_compute; reflexivity.
  - by left.
Defined.

(** On [gridOpen]: a tank that moves up at x = 47, fifteen units to the
    right of the grid line x = 32, is slid three units to the left. *)
Lemma calculateCornerSlide_towards_grid_witness :
  GridMovement.calculateCornerSlide (GridMovement.mkTank 47 48)
    GridMovement.up (Some Examples.gridOpen)
  = Some (GridMovement.mkSlide GridMovement.axisX (-3) 32) ∧
  (Qabs (-3) <= 3)%Q ∧
  (Qabs (47 + -3 - 32) < Qabs (47 - 32))%Q.
Proof.
  assert (GridMovement.calculateCornerSlide (GridMovement.mkTank 47 48)
            GridMovement.up (Some Examples.gridOpen)
          = Some (GridMovement.mkSlide GridMovement.axisX (-3) 32)) as E
    by (vm_compute; reflexivity).
  destruct (calculateCornerSlide_towards_grid _ _ _ _ E) as (Ha & _ & _ & Hc & _).
  split; [exact E|]. split; [exact Ha|exact Hc].
Defined.

(** On the open field every candidate patrol point of a new blackboard
    passes the validation. *)
Lemma validatePatrolPoints_safe_witness :
  let b' :=
    AIBlackboard._validatePatrolPoints Examples.axisDistance
      Examples.sceneField (λ _, 0%Q) AIBlackboard.new in
  AIBlackboard.patrolPointsNeedValidation b' = false ∧
  ∀ p, p ∈ AIBlackboard.patrolPoints b' →
       AIBlackboard._isPositionSafelyWalkable Examples.sceneField
         (AIBlackboard.pos_x p) (AIBlackboard.pos_y p) = true.
Proof.
  destruct (validatePatrolPoints_safe Examples.axisDistance
              Examples.sceneField (λ _, 0%Q) AIBlackboard.new
              Examples.gridField eq_refl eq_refl) as (H1 & H2 & _).
  split; [exact H1|exact H2].
Defined.

(** A player seen at (400, 400) that moves to the right with 10 units
    per second is expected at (403, 400) after 0.3 seconds. *)
Lemma updatePlayerInfo_known_witness :
  let p :=
    AIBlackboard.mkPlayer false 400 400 (Some (10, 0)%Q) (Some "right")
      None None in
  AIBlackboard.predictPlayerPosition Examples.scenePlayer (3 # 10)
    (AIBlackboard.updatePlayerInfo Examples.scenePlayer (Some p)
       AIBlackboard.new)
  = Some (AIBlackboard.mkPos (400 + 10 * (3 # 10)) (400 + 0 * (3 # 10))).
Proof.
  cbn zeta.
  destruct (updatePlayerInfo_known Examples.scenePlayer Examples.scenePlayer
              (AIBlackboard.mkPlayer false 400 400 (Some (10, 0)%Q)
                 (Some "right") None None)
              AIBlackboard.new eq_refl) as (_ & _ & _ & H & _).
  apply H. by vm_compute.
Defined.

(** A machine with the states ['a'] and ['b'] that was switched to ['a']
    and then to ['b']: both names are registered, and the previous state
    ['a'] differs from the current one. *)
Lemma run_names_are_registered_witness :
  let calls :=
    [StateMachine.call_addState "a" (Examples.logState "a");
     StateMachine.call_addState "b" (Examples.logState "b");
     StateMachine.call_setState "a" [];
     StateMachine.call_setState "b" []] in
  let m := (StateMachine.run calls []).1 in
  (StateMachine.currentState m = Some "b" ∧
   StateMachine.previousState m = Some "a") ∧
  (∀ c, StateMachine.currentState m = Some c →
        is_Some (StateMachine.states m !! c)) ∧
  (∀ p, StateMachine.previousState m = Some p →
        is_Some (StateMachine.states m !! p) ∧
        ∃ c, StateMachine.currentState m = Some c ∧ c ≠ p).
Proof.
  split; [by vm_compute|].
  apply (run_names_are_registered
           [StateMachine.call_addState "a" (Examples.logState "a");
            StateMachine.call_addState "b" (Examples.logState "b");
            StateMachine.call_setState "a" [];
            StateMachine.call_setState "b" []] []).
  intros c name Hc Hname.
  repeat (apply elem_of_cons in Hc as [->|Hc]);
    try (by apply elem_of_nil in Hc);
    injection Hname as <-; intros Hin;
    repeat (apply elem_of_cons in Hin as [Hin|Hin]; [discriminate|]);
    by apply elem_of_nil in Hin.
Defined.

(** For a player that faces up, the candidate below the player comes
    first and the one above it last. *)
Lemma prioritizeFlankingPositions_back_first_witness :
  let positions :=
    [AIBlackboard.mkFlank 280 400 "left"; AIBlackboard.mkFlank 520 400 "right";
     AIBlackboard.mkFlank 400 280 "top"; AIBlackboard.mkFlank 400 520 "bottom"] in
  let sorted := AIBlackboard._prioritizeFlankingPositions positions "up" in
  sorted ≡ₚ positions ∧
  ∀ i j a b, (i < j)%nat → sorted !! i = Some a → sorted !! j = Some b →
    (AIBlackboard.side b = "bottom" → AIBlackboard.side a = "bottom") ∧
    (AIBlackboard.side a = "top" → AIBlackboard.side b = "top").
Proof.
  apply (prioritizeFlankingPositions_back_first _ "up" "bottom" "top").
  - by left.
  - intros p Hp.
    repeat (apply elem_of_cons in Hp as [->|Hp]); cbn;
      [by left|right; by left|right; right; by left
      |right; right; right; by left|by apply elem_of_nil in Hp].
Defined.

(** On [grid43]: the route from the top left cell to the base turns in
    the cells (2, 0) and (2, 2); the cell (2, 1) between them can be
    walked on. *)
Lemma simplified_route_legs_witness :
  simplifyPath
    [Examples.waypointAt 1 0; Examples.waypointAt 2 0; Examples.waypointAt 2 1;
     Examples.waypointAt 2 2; Examples.waypointAt 1 2; Examples.waypointAt 0 2]
    !! 2%nat = Some (Examples.waypointAt 2 0) ∧
  isWalkable (2, 1) Examples.grid43 = true.
Proof.
  assert (findPath (Examples.centre 0 0) (Examples.centre 0 2)
            Examples.grid43 32
          = Some (Path [Examples.waypointAt 1 0; Examples.waypointAt 2 0;
                        Examples.waypointAt 2 1; Examples.waypointAt 2 2;
                        Examples.waypointAt 1 2; Examples.waypointAt 0 2]))
    as E by (vm_compute; reflexivity).
  assert (simplifyPath
            [Examples.waypointAt 1 0; Examples.waypointAt 2 0;
             Examples.waypointAt 2 1; Examples.waypointAt 2 2;
             Examples.waypointAt 1 2; Examples.waypointAt 0 2]
            !! 2%nat = Some (Examples.waypointAt 2 0)) as Hu
    by (vm_compute; reflexivity).
  split; [exact Hu|].
  destruct (simplified_route_legs _ _ _ _ _ 2 (Examples.waypointAt 2 0)
              (Examples.waypointAt 2 2) E Hu) as [_ H];
    [vm_compute; reflexivity|].
  apply (H (2, 1)); cbn; lia.
Defined.
